(** * Maze Quest: the game core of [src/app.component.ts], embedded in Rocq

    The component keeps its state in Angular signals and mutates it from
    event handlers and timer callbacks.  Here every handler is a function on
    an explicit [Game] record; [Math.random] is an explicit stream of
    outcomes that is threaded through the functions that draw from it.
    Audio, colours, scrolling, fullscreen and sharing are display glue and
    are left out. *)

From stdpp Require Import base numbers option list strings.
From Stdlib Require Import ZArith Lia.

Local Open Scope Z_scope.

(** ** Data model *)

(** A cell of [maze: string[][]]: ['W'], [' '], ['S'] and ['E']. *)
Inductive Cell : Type :=
  | Wall    (* 'W' *)
  | Path    (* ' ' *)
  | Start   (* 'S' *)
  | Exit.   (* 'E' *)

#[global] Instance Cell_eq_dec : EqDecision Cell.
Proof. solve_decision. Defined.

(** [maze[y][x]]: the outer list holds the rows. *)
Abbreviation Maze := (list (list Cell)).

(** [{x, y}] objects; the first component is the column [x]. *)
Abbreviation Pos := (Z * Z)%type.

Inductive GameStatus : Type :=
  | StatusStart | Playing | LevelComplete | GameComplete | GameOver.

#[global] Instance GameStatus_eq_dec : EqDecision GameStatus.
Proof. solve_decision. Defined.

(** ** The random source

    One element of the stream stands for one call of [Math.random()].
    [Math.floor(Math.random() * n)] is any integer of [0, n): the head of
    the stream reduced modulo [n].  An exhausted stream keeps answering 0.
    Every sequence of outcomes of a finite run is the prefix of a stream. *)
Abbreviation Rng := (list nat).

Definition randInt (n : nat) (r : Rng) : nat * Rng :=
  match r with
  | [] => (0%nat, [])
  | k :: r' => ((k mod n)%nat, r')
  end.

(** ** Grid access *)

(** [maze[y][x]], with [None] for JavaScript's [undefined]. *)
Definition cellAt (maze : Maze) (x y : Z) : option Cell :=
  if (0 <=? x) && (0 <=? y)
  then maze !! Z.to_nat y ≫= (λ row, row !! Z.to_nat x)
  else None.

(** [maze[y][x] = c].  Every assignment of the program addresses a cell
    inside the grid (see [squareOf_setCell] and the [cellAt_setCell]
    lemmas, which the proofs below use at each write); outside the grid
    the model leaves the grid as it is. *)
Definition setCell (maze : Maze) (x y : Z) (c : Cell) : Maze :=
  if (0 <=? x) && (0 <=? y)
  then alter (λ row, <[Z.to_nat x := c]> row) (Z.to_nat y) maze
  else maze.

(** [v === 'W'] and [v === ' '] on a possibly undefined value. *)
Definition isWall (v : option Cell) : bool :=
  match v with Some Wall => true | _ => false end.

Definition isPath (v : option Cell) : bool :=
  match v with Some Path => true | _ => false end.

Definition isExit (v : option Cell) : bool :=
  match v with Some Exit => true | _ => false end.

Definition isStart (v : option Cell) : bool :=
  match v with Some Start => true | _ => false end.

(** ** Maze generation *)

(** [[a[i], a[j]] = [a[j], a[i]]] *)
Definition swap {A} (l : list A) (i j : nat) : list A :=
  match l !! i, l !! j with
  | Some vi, Some vj => <[j := vi]> (<[i := vj]> l)
  | _, _ => l
  end.

(** The Fisher–Yates loop [for (i = n - 1; i > 0; i--)]; [shuffleFrom i]
    runs the iterations [i, i-1, ..., 1]. *)
Fixpoint shuffleFrom {A} (i : nat) (l : list A) (r : Rng) : list A * Rng :=
  match i with
  | O => (l, r)
  | S i' =>
      let '(j, r) := randInt (S i) r in
      shuffleFrom i' (swap l i j) r
  end.

Definition shuffle {A} (l : list A) (r : Rng) : list A * Rng :=
  shuffleFrom (length l - 1)%nat l r.

Definition carveDirections : list (Z * Z) := [(0, -2); (0, 2); (-2, 0); (2, 0)].

(** The [for (const [dx, dy] of directions)] loop of [carve]; [rec] is the
    recursive call [carve(nx, ny)]. *)
Fixpoint carveLoop (rec : Maze → Z → Z → Rng → option (Maze * Rng))
    (size cx cy : Z) (dirs : list (Z * Z)) (maze : Maze) (r : Rng)
    : option (Maze * Rng) :=
  match dirs with
  | [] => Some (maze, r)
  | (dx, dy) :: dirs' =>
      let nx := cx + dx in
      let ny := cy + dy in
      if (0 <? ny) && (ny <? size - 1) && (0 <? nx) && (nx <? size - 1)
         && isWall (cellAt maze nx ny)
      then
        let maze := setCell maze (nx - dx / 2) (ny - dy / 2) Path in
        match rec maze nx ny r with
        | Some (maze, r) => carveLoop rec size cx cy dirs' maze r
        | None => None
        end
      else carveLoop rec size cx cy dirs' maze r
  end.

(** [carve(cx, cy)].  The recursion of the source is bounded by the number
    of wall cells, not by a syntactic argument; [fuel] bounds the depth of
    the recursion, and [None] means the bound was too small
    ([carve_total] shows that the bound [generateMaze] passes never is). *)
Fixpoint carve (fuel : nat) (size : Z) (maze : Maze) (cx cy : Z) (r : Rng)
    : option (Maze * Rng) :=
  match fuel with
  | O => None
  | S fuel' =>
      let maze := setCell maze cx cy Path in
      let '(dirs, r) := shuffle carveDirections r in
      carveLoop (carve fuel' size) size cx cy dirs maze r
  end.

(** The body of the wall-removal loop once [rx] and [ry] are drawn. *)
Definition removeWallAt (size : Z) (maze : Maze) (rx ry : Z) : Maze :=
  if isWall (cellAt maze rx ry) then
    let isHorizontalWall :=
      (0 <? rx) && (rx <? size - 1)
      && negb (isWall (cellAt maze (rx - 1) ry))
      && negb (isWall (cellAt maze (rx + 1) ry)) in
    let isVerticalWall :=
      (0 <? ry) && (ry <? size - 1)
      && negb (isWall (cellAt maze rx (ry - 1)))
      && negb (isWall (cellAt maze rx (ry + 1))) in
    if isHorizontalWall || isVerticalWall then setCell maze rx ry Path else maze
  else maze.

(** [for (let i = 0; i < removalIterations; i++)] *)
Fixpoint removeWalls (iterations : nat) (size : Z) (maze : Maze) (r : Rng)
    : Maze * Rng :=
  match iterations with
  | O => (maze, r)
  | S n =>
      let '(a, r) := randInt (Z.to_nat (size - 2)) r in
      let rx := Z.of_nat a + 1 in
      let '(b, r) := randInt (Z.to_nat (size - 2)) r in
      let ry := Z.of_nat b + 1 in
      removeWalls n size (removeWallAt size maze rx ry) r
  end.

Definition mazeSize (level : Z) : Z := 7 + (Z.min level 30 - 1) * 2.

(** [Array(size).fill(null).map(() => Array(size).fill('W'))] *)
Definition blankMaze (size : Z) : Maze :=
  replicate (Z.to_nat size) (replicate (Z.to_nat size) Wall).

(** [Math.floor(size * level * 0.2)].  [size * level] is an exact integer
    [n]; the double nearest to 0.2 lies above 1/5 by less than 2^-56, so
    for the integers that occur [n * 0.2] rounds to a double that has the
    same integer part as [n / 5]. *)
Definition removalIterations (size level : Z) : nat :=
  Z.to_nat (size * level / 5).

Definition carveFuel (size : Z) : nat := S (Z.to_nat (size * size)).

Definition generateMaze (level : Z) (r : Rng) : option (Maze * Rng) :=
  let sizeLevel := Z.min level 30 in
  let size := 7 + (sizeLevel - 1) * 2 in
  let maze := blankMaze size in
  match carve (carveFuel size) size maze 1 1 r with
  | None => None
  | Some (maze, r) =>
      let '(maze, r) := removeWalls (removalIterations size level) size maze r in
      let maze := setCell maze 1 1 Start in
      let maze := setCell maze (size - 2) (size - 2) Exit in
      Some (maze, r)
  end.

(** ** Session state

    The signals and private fields of [AppComponent] that the game logic
    reads or writes.  The three interval handles and the two [setTimeout]
    handles are kept as flags: an interval is running or not, a one-shot
    callback is scheduled or not. *)
Record Game : Type := mkGame {
  level : Z;
  score : Z;
  timer : Z;
  gameStatus : GameStatus;
  canTeleport : bool;
  maze : Maze;
  playerPosition : Pos;
  enemies : list Pos;
  stalkers : list Pos;
  playerHit : bool;
  regenerateIconPositions : list Pos;
  teleporterPositions : list Pos;
  startPosition : Pos;
  timerInterval : bool;
  enemyInterval : bool;
  stalkersInterval : bool;
  nextLevelTimeout : bool;
  hitTimeout : bool
}.

Definition setLevel (v : Z) (g : Game) : Game :=
  mkGame v (score g) (timer g) (gameStatus g) (canTeleport g) (maze g)
    (playerPosition g) (enemies g) (stalkers g) (playerHit g)
    (regenerateIconPositions g) (teleporterPositions g) (startPosition g)
    (timerInterval g) (enemyInterval g) (stalkersInterval g)
    (nextLevelTimeout g) (hitTimeout g).

Definition setScore (v : Z) (g : Game) : Game :=
  mkGame (level g) v (timer g) (gameStatus g) (canTeleport g) (maze g)
    (playerPosition g) (enemies g) (stalkers g) (playerHit g)
    (regenerateIconPositions g) (teleporterPositions g) (startPosition g)
    (timerInterval g) (enemyInterval g) (stalkersInterval g)
    (nextLevelTimeout g) (hitTimeout g).

Definition setTimer (v : Z) (g : Game) : Game :=
  mkGame (level g) (score g) v (gameStatus g) (canTeleport g) (maze g)
    (playerPosition g) (enemies g) (stalkers g) (playerHit g)
    (regenerateIconPositions g) (teleporterPositions g) (startPosition g)
    (timerInterval g) (enemyInterval g) (stalkersInterval g)
    (nextLevelTimeout g) (hitTimeout g).

Definition setGameStatus (v : GameStatus) (g : Game) : Game :=
  mkGame (level g) (score g) (timer g) v (canTeleport g) (maze g)
    (playerPosition g) (enemies g) (stalkers g) (playerHit g)
    (regenerateIconPositions g) (teleporterPositions g) (startPosition g)
    (timerInterval g) (enemyInterval g) (stalkersInterval g)
    (nextLevelTimeout g) (hitTimeout g).

Definition setCanTeleport (v : bool) (g : Game) : Game :=
  mkGame (level g) (score g) (timer g) (gameStatus g) v (maze g)
    (playerPosition g) (enemies g) (stalkers g) (playerHit g)
    (regenerateIconPositions g) (teleporterPositions g) (startPosition g)
    (timerInterval g) (enemyInterval g) (stalkersInterval g)
    (nextLevelTimeout g) (hitTimeout g).

Definition setMaze (v : Maze) (g : Game) : Game :=
  mkGame (level g) (score g) (timer g) (gameStatus g) (canTeleport g) v
    (playerPosition g) (enemies g) (stalkers g) (playerHit g)
    (regenerateIconPositions g) (teleporterPositions g) (startPosition g)
    (timerInterval g) (enemyInterval g) (stalkersInterval g)
    (nextLevelTimeout g) (hitTimeout g).

Definition setPlayerPosition (v : Pos) (g : Game) : Game :=
  mkGame (level g) (score g) (timer g) (gameStatus g) (canTeleport g) (maze g)
    v (enemies g) (stalkers g) (playerHit g)
    (regenerateIconPositions g) (teleporterPositions g) (startPosition g)
    (timerInterval g) (enemyInterval g) (stalkersInterval g)
    (nextLevelTimeout g) (hitTimeout g).

Definition setEnemies (v : list Pos) (g : Game) : Game :=
  mkGame (level g) (score g) (timer g) (gameStatus g) (canTeleport g) (maze g)
    (playerPosition g) v (stalkers g) (playerHit g)
    (regenerateIconPositions g) (teleporterPositions g) (startPosition g)
    (timerInterval g) (enemyInterval g) (stalkersInterval g)
    (nextLevelTimeout g) (hitTimeout g).

Definition setStalkers (v : list Pos) (g : Game) : Game :=
  mkGame (level g) (score g) (timer g) (gameStatus g) (canTeleport g) (maze g)
    (playerPosition g) (enemies g) v (playerHit g)
    (regenerateIconPositions g) (teleporterPositions g) (startPosition g)
    (timerInterval g) (enemyInterval g) (stalkersInterval g)
    (nextLevelTimeout g) (hitTimeout g).

Definition setPlayerHit (v : bool) (g : Game) : Game :=
  mkGame (level g) (score g) (timer g) (gameStatus g) (canTeleport g) (maze g)
    (playerPosition g) (enemies g) (stalkers g) v
    (regenerateIconPositions g) (teleporterPositions g) (startPosition g)
    (timerInterval g) (enemyInterval g) (stalkersInterval g)
    (nextLevelTimeout g) (hitTimeout g).

Definition setRegenerateIconPositions (v : list Pos) (g : Game) : Game :=
  mkGame (level g) (score g) (timer g) (gameStatus g) (canTeleport g) (maze g)
    (playerPosition g) (enemies g) (stalkers g) (playerHit g)
    v (teleporterPositions g) (startPosition g)
    (timerInterval g) (enemyInterval g) (stalkersInterval g)
    (nextLevelTimeout g) (hitTimeout g).

Definition setTeleporterPositions (v : list Pos) (g : Game) : Game :=
  mkGame (level g) (score g) (timer g) (gameStatus g) (canTeleport g) (maze g)
    (playerPosition g) (enemies g) (stalkers g) (playerHit g)
    (regenerateIconPositions g) v (startPosition g)
    (timerInterval g) (enemyInterval g) (stalkersInterval g)
    (nextLevelTimeout g) (hitTimeout g).

Definition setStartPosition (v : Pos) (g : Game) : Game :=
  mkGame (level g) (score g) (timer g) (gameStatus g) (canTeleport g) (maze g)
    (playerPosition g) (enemies g) (stalkers g) (playerHit g)
    (regenerateIconPositions g) (teleporterPositions g) v
    (timerInterval g) (enemyInterval g) (stalkersInterval g)
    (nextLevelTimeout g) (hitTimeout g).

Definition setTimerInterval (v : bool) (g : Game) : Game :=
  mkGame (level g) (score g) (timer g) (gameStatus g) (canTeleport g) (maze g)
    (playerPosition g) (enemies g) (stalkers g) (playerHit g)
    (regenerateIconPositions g) (teleporterPositions g) (startPosition g)
    v (enemyInterval g) (stalkersInterval g)
    (nextLevelTimeout g) (hitTimeout g).

Definition setEnemyInterval (v : bool) (g : Game) : Game :=
  mkGame (level g) (score g) (timer g) (gameStatus g) (canTeleport g) (maze g)
    (playerPosition g) (enemies g) (stalkers g) (playerHit g)
    (regenerateIconPositions g) (teleporterPositions g) (startPosition g)
    (timerInterval g) v (stalkersInterval g)
    (nextLevelTimeout g) (hitTimeout g).

Definition setStalkersInterval (v : bool) (g : Game) : Game :=
  mkGame (level g) (score g) (timer g) (gameStatus g) (canTeleport g) (maze g)
    (playerPosition g) (enemies g) (stalkers g) (playerHit g)
    (regenerateIconPositions g) (teleporterPositions g) (startPosition g)
    (timerInterval g) (enemyInterval g) v
    (nextLevelTimeout g) (hitTimeout g).

Definition setNextLevelTimeout (v : bool) (g : Game) : Game :=
  mkGame (level g) (score g) (timer g) (gameStatus g) (canTeleport g) (maze g)
    (playerPosition g) (enemies g) (stalkers g) (playerHit g)
    (regenerateIconPositions g) (teleporterPositions g) (startPosition g)
    (timerInterval g) (enemyInterval g) (stalkersInterval g)
    v (hitTimeout g).

Definition setHitTimeout (v : bool) (g : Game) : Game :=
  mkGame (level g) (score g) (timer g) (gameStatus g) (canTeleport g) (maze g)
    (playerPosition g) (enemies g) (stalkers g) (playerHit g)
    (regenerateIconPositions g) (teleporterPositions g) (startPosition g)
    (timerInterval g) (enemyInterval g) (stalkersInterval g)
    (nextLevelTimeout g) v.

(** The state of a freshly constructed component. *)
Definition initialGame : Game :=
  mkGame 1 0 0 StatusStart true [] (0, 0) [] [] false [] [] (1, 1)
    false false false false false.

(** ** Entity placement *)

Definition posEqb (p q : Pos) : bool := (p.1 =? q.1) && (p.2 =? q.2).

(** The nested loops [for (y...) for (x...) if (keep) pathCells.push({x, y})]:
    rows in increasing [y], and in a row the columns in increasing [x];
    [width y] is the bound of the inner loop in row [y]. *)
Definition rowCells (keep : Z → Z → bool) (y width : Z) : list Pos :=
  filter (λ p, keep p.1 p.2 = true) ((λ x, (x, y)) <$> seqZ 0 width).

Definition scanCells (height : Z) (width : Z → Z) (keep : Z → Z → bool)
    : list Pos :=
  mjoin ((λ y, rowCells keep y (width y)) <$> seqZ 0 height).

(** [maze.length] and [maze[y].length] *)
Definition mazeHeight (maze : Maze) : Z := Z.of_nat (length maze).

Definition rowWidth (maze : Maze) (y : Z) : Z :=
  match maze !! Z.to_nat y with
  | Some row => Z.of_nat (length row)
  | None => 0
  end.

(** [for (i = 0; i < count && pathCells.length > 0; i++)
       picked.push(pathCells.splice(randIndex, 1)[0])] *)
Fixpoint pickCells (count : nat) (pathCells : list Pos) (r : Rng)
    : list Pos * Rng :=
  match count with
  | O => ([], r)
  | S count' =>
      if (0 <? length pathCells)%nat then
        let '(randIndex, r) := randInt (length pathCells) r in
        match pathCells !! randIndex with
        | Some p =>
            let '(rest, r) := pickCells count' (delete randIndex pathCells) r in
            (p :: rest, r)
        | None => ([], r)
        end
      else ([], r)
  end.

Definition manhattan (x y : Z) (p : Pos) : Z := Z.abs (x - p.1) + Z.abs (y - p.2).

Definition enemyCount (level : Z) : Z := Z.min 4 ((level - 15) / 2 + 1).

Definition spawnEnemies (level : Z) (maze : Maze) (g : Game) (r : Rng)
    : Game * Rng :=
  if level <? 15 then (setEnemies [] g, r)
  else
    let pathCells :=
      scanCells (mazeHeight maze) (rowWidth maze)
        (λ x y, isPath (cellAt maze x y) && (5 <? manhattan x y (startPosition g))) in
    let '(newEnemies, r) := pickCells (Z.to_nat (enemyCount level)) pathCells r in
    (setEnemies newEnemies g, r).

Definition spawnRegenerateIcons (level : Z) (maze : Maze) (g : Game) (r : Rng)
    : Game * Rng :=
  if level <? 10 then (setRegenerateIconPositions [] g, r)
  else
    let '(coin, r) := randInt 2 r in
    let count := ((if (coin =? 0)%nat then 2 else 3) + 2)%nat in
    let size := mazeHeight maze in
    let exitPos := (size - 2, size - 2) in
    let pathCells :=
      scanCells size (λ _, size)
        (λ x y, isPath (cellAt maze x y)
                && (8 <? manhattan x y (startPosition g))
                && (8 <? manhattan x y exitPos)) in
    let '(newIcons, r) := pickCells count pathCells r in
    (setRegenerateIconPositions newIcons g, r).

Definition teleporterCount (level : Z) : Z := Z.min 14 (2 + (level - 20) / 4 * 2).

Definition spawnTeleporters (level : Z) (maze : Maze) (g : Game) (r : Rng)
    : Game * Rng :=
  if level <? 20 then (setTeleporterPositions [] g, r)
  else
    let size := mazeHeight maze in
    let exitPos := (size - 2, size - 2) in
    let regenPositions := regenerateIconPositions g in
    let pathCells :=
      scanCells size (λ _, size)
        (λ x y, isPath (cellAt maze x y)
                && negb (posEqb (x, y) (startPosition g))
                && negb (posEqb (x, y) exitPos)
                && negb (existsb (λ p, posEqb p (x, y)) regenPositions)) in
    let '(newTeleporters, r) :=
      pickCells (Z.to_nat (teleporterCount level)) pathCells r in
    (setTeleporterPositions newTeleporters g, r).

Definition stalkerCount : Z := 1.

Definition spawnStalkers (level : Z) (maze : Maze) (g : Game) (r : Rng)
    : Game * Rng :=
  if level <? 25 then (setStalkers [] g, r)
  else
    let size := mazeHeight maze in
    let pathCells :=
      scanCells size (λ _, size)
        (λ x y, isPath (cellAt maze x y) && (10 <? manhattan x y (startPosition g))) in
    let '(newStalkers, r) := pickCells (Z.to_nat stalkerCount) pathCells r in
    (setStalkers newStalkers g, r).

(** ** Level loading *)

(** The first ['S'] met by the scan of [loadLevel]. *)
Definition findStart (levelData : Maze) : option Pos :=
  head (scanCells (mazeHeight levelData) (rowWidth levelData)
          (λ x y, isStart (cellAt levelData x y))).

(** [loadLevel(level)].  [randomizeColors] draws once from the random
    source; the colours themselves are not part of the model. *)
Definition loadLevel (lvl : Z) (g : Game) (r : Rng) : option (Game * Rng) :=
  let '(_, r) := randInt 12 r in
  match generateMaze lvl r with
  | None => None
  | Some (levelData, r) =>
      let g := setMaze levelData g in
      let g := setCanTeleport true g in
      match findStart levelData with
      | Some start =>
          let g := setStartPosition start g in
          let g := setPlayerPosition (startPosition g) g in
          let '(g, r) := spawnEnemies lvl levelData g r in
          let '(g, r) := spawnRegenerateIcons lvl levelData g r in
          let '(g, r) := spawnTeleporters lvl levelData g r in
          let '(g, r) := spawnStalkers lvl levelData g r in
          Some (g, r)
      | None => Some (g, r)
      end
  end.

Definition startTimer (g : Game) : Game := setTimerInterval true (setTimer 0 g).
Definition stopTimer (g : Game) : Game := setTimerInterval false g.
Definition startEnemyMovement (g : Game) : Game := setEnemyInterval true g.
Definition stopEnemyMovement (g : Game) : Game := setEnemyInterval false g.

Definition stopStalkerMovement (g : Game) : Game := setStalkersInterval false g.

Definition startStalkerMovement (g : Game) : Game :=
  let g := stopStalkerMovement g in
  if level g <? 25 then g else setStalkersInterval true g.

(** The callback of the one-second interval. *)
Definition timerTick (g : Game) : Game := setTimer (timer g + 1) g.

Definition startGame (g : Game) (r : Rng) : option (Game * Rng) :=
  let g := setScore 0 g in
  let g := setLevel 1 g in
  match loadLevel (level g) g r with
  | None => None
  | Some (g, r) =>
      let g := setGameStatus Playing g in
      Some (startStalkerMovement (startEnemyMovement (startTimer g)), r)
  end.

(** [loadNextLevel()]: the transition is immediate, the level itself is
    loaded by [nextLevelCallback] two seconds later. *)
Definition loadNextLevel (g : Game) : Game :=
  let g := setGameStatus LevelComplete g in
  let g := stopStalkerMovement (stopEnemyMovement (stopTimer g)) in
  setNextLevelTimeout true g.

Definition nextLevelCallback (g : Game) (r : Rng) : option (Game * Rng) :=
  let g := setNextLevelTimeout false g in
  let g := setLevel (level g + 1) g in
  match loadLevel (level g) g r with
  | None => None
  | Some (g, r) =>
      let g := setGameStatus Playing g in
      Some (startStalkerMovement (startEnemyMovement (startTimer g)), r)
  end.

Definition skipLevels (g : Game) (r : Rng) : option (Game * Rng) :=
  if negb (bool_decide (gameStatus g = Playing)) then Some (g, r)
  else if level g =? 29 then Some (g, r)
  else
    let g := setNextLevelTimeout false g in
    let g := stopStalkerMovement (stopEnemyMovement (stopTimer g)) in
    let g := setLevel (level g + 1) g in
    match loadLevel (level g) g r with
    | None => None
    | Some (g, r) =>
        Some (startStalkerMovement (startEnemyMovement (startTimer g)), r)
    end.

Definition continueToInfinite (g : Game) (r : Rng) : option (Game * Rng) :=
  let g := setLevel (level g + 1) g in
  match loadLevel (level g) g r with
  | None => None
  | Some (g, r) =>
      let g := setGameStatus Playing g in
      Some (startStalkerMovement (startEnemyMovement (startTimer g)), r)
  end.

Definition restartGame (g : Game) : Game := setGameStatus StatusStart g.

(** ** Stalker AI *)

Definition stalkerDirections : list (Z * Z) := [(0, 1); (0, -1); (1, 0); (-1, 0)].

(** The test that admits a neighbour to the search, without the visited
    check: inside [maze.length] rows and [maze[0].length] columns, and not
    ['W']. *)
Definition walkable (maze : Maze) (x y : Z) : bool :=
  (0 <=? y) && (y <? mazeHeight maze) && (0 <=? x) && (x <? rowWidth maze 0)
  && negb (isWall (cellAt maze x y)).

(** A queue entry [{x, y, path}]. *)
Abbreviation QueueEntry := (Z * Z * list Pos)%type.

(** One round of the [for (const [dx, dy] of directions)] loop of the
    search.  [visited] is the [Set] of keys [`${y},${x}`], kept as the list
    of the positions the keys stand for. *)
Definition bfsVisit (maze : Maze) (x y : Z) (path : list Pos)
    (acc : list QueueEntry * list Pos) (d : Z * Z) : list QueueEntry * list Pos :=
  let '(queue, visited) := acc in
  let newX := x + d.1 in
  let newY := y + d.2 in
  if walkable maze newX newY && negb (bool_decide ((newX, newY) ∈ visited))
  then (queue ++ [(newX, newY, path ++ [(newX, newY)])], (newX, newY) :: visited)
  else (queue, visited).

(** [while (queue.length > 0)].  [Some foundPath] is the value of
    [foundPath] when the loop ends ([None] inside for [null]); the outer
    [None] means that [fuel] rounds were not enough ([bfs_total]). *)
Fixpoint bfs (fuel : nat) (maze : Maze) (target : Pos)
    (queue : list QueueEntry) (visited : list Pos) : option (option (list Pos)) :=
  match fuel with
  | O => None
  | S fuel' =>
      match queue with
      | [] => Some None
      | (x, y, path) :: queue =>
          if (x =? target.1) && (y =? target.2) then Some (Some path)
          else
            let '(queue, visited) :=
              foldl (bfsVisit maze x y path) (queue, visited) stalkerDirections in
            bfs fuel' maze target queue visited
      end
  end.

Definition bfsFuel (maze : Maze) : nat :=
  S (S (Z.to_nat (mazeHeight maze * rowWidth maze 0))).

(** The callback of [currentStalkers.map] in [moveStalkers]. *)
Definition stalkerStep (maze : Maze) (player : Pos) (stalker : Pos) : option Pos :=
  match bfs (bfsFuel maze) maze player
          [(stalker.1, stalker.2, [stalker])] [stalker] with
  | None => None
  | Some foundPath =>
      Some (match foundPath with
            | Some path =>
                if (1 <? length path)%nat then default stalker (path !! 1%nat)
                else stalker
            | None => stalker
            end)
  end.

(** [newStalkerPositions] *)
Definition newStalkerPositions (maze : Maze) (player : Pos) (currentStalkers : list Pos)
    : option (list Pos) :=
  mapM (stalkerStep maze player) currentStalkers.

(** ** Enemy AI *)

Definition enemyDirections : list (Z * Z) := [(0, -1); (0, 1); (-1, 0); (1, 0)].

(** A candidate [{x, y, priority}]. *)
Abbreviation EnemyMove := (Z * Z * Z)%type.

Definition movePriority (dx dy mdx mdy : Z) : Z :=
  if Z.abs dy <? Z.abs dx then
    if negb (mdx =? 0) && (Z.sgn mdx =? Z.sgn dx) then 2
    else if negb (mdy =? 0) && (Z.sgn mdy =? Z.sgn dy) then 1
    else 0
  else
    if negb (mdy =? 0) && (Z.sgn mdy =? Z.sgn dy) then 2
    else if negb (mdx =? 0) && (Z.sgn mdx =? Z.sgn dx) then 1
    else 0.

(** [possibleMoves] after the loop over the four directions. *)
Definition possibleMoves (currentMaze : Maze) (playerPos enemy : Pos) : list EnemyMove :=
  let dx := playerPos.1 - enemy.1 in
  let dy := playerPos.2 - enemy.2 in
  omap (λ d : Z * Z,
          let newX := enemy.1 + d.1 in
          let newY := enemy.2 + d.2 in
          if (0 <=? newY) && (newY <? mazeHeight currentMaze)
             && (0 <=? newX) && (newX <? rowWidth currentMaze newY)
             && negb (isWall (cellAt currentMaze newX newY))
          then Some (newX, newY, movePriority dx dy d.1 d.2)
          else None)
       enemyDirections.

(** [possibleMoves.sort((a, b) => b.priority - a.priority)]: a stable sort,
    highest priority first. *)
Fixpoint insertByPriority (a : EnemyMove) (l : list EnemyMove) : list EnemyMove :=
  match l with
  | [] => [a]
  | b :: l' => if b.2 <=? a.2 then a :: b :: l' else b :: insertByPriority a l'
  end.

Definition sortByPriority (l : list EnemyMove) : list EnemyMove :=
  foldr insertByPriority [] l.

(** The callback of [this.enemies().map] in [moveEnemies]. *)
Definition enemyStep (currentMaze : Maze) (playerPos enemy : Pos) (r : Rng)
    : Pos * Rng :=
  match sortByPriority (possibleMoves currentMaze playerPos enemy) with
  | [] => (enemy, r)
  | (best :: _) as sorted =>
      let bestPriority := best.2 in
      let bestMoves := filter (λ m : EnemyMove, m.2 = bestPriority) sorted in
      let '(k, r) := randInt (length bestMoves) r in
      match bestMoves !! k with
      | Some chosenMove => ((chosenMove.1.1, chosenMove.1.2), r)
      | None => (enemy, r)
      end
  end.

Fixpoint newEnemyPositions (currentMaze : Maze) (playerPos : Pos)
    (currentEnemies : list Pos) (r : Rng) : list Pos * Rng :=
  match currentEnemies with
  | [] => ([], r)
  | enemy :: rest =>
      let '(p, r) := enemyStep currentMaze playerPos enemy r in
      let '(ps, r) := newEnemyPositions currentMaze playerPos rest r in
      (p :: ps, r)
  end.

(** ** Move resolution *)

(** [arr.findIndex(pred)], with [None] for -1. *)
Fixpoint findIndex {A} (pred : A → bool) (l : list A) : option nat :=
  match l with
  | [] => None
  | a :: l' => if pred a then Some 0%nat else S <$> findIndex pred l'
  end.

(** [regenerateMazeFromPlayerPosition()] *)
Definition regenerateMazeFromPlayerPosition (g : Game) (r : Rng)
    : option (Game * Rng) :=
  let currentPos := playerPosition g in
  match generateMaze (level g) r with
  | None => None
  | Some (newMazeLayout, r) =>
      let newMazeLayout :=
        if isStart (cellAt newMazeLayout 1 1) then setCell newMazeLayout 1 1 Path
        else newMazeLayout in
      let newMazeLayout :=
        if isWall (cellAt newMazeLayout currentPos.1 currentPos.2)
        then setCell newMazeLayout currentPos.1 currentPos.2 Path
        else newMazeLayout in
      let newMazeLayout := setCell newMazeLayout currentPos.1 currentPos.2 Start in
      let g := setMaze newMazeLayout g in
      let g := setStartPosition currentPos g in
      let '(g, r) := spawnEnemies (level g) newMazeLayout g r in
      let '(g, r) := spawnRegenerateIcons (level g) newMazeLayout g r in
      let '(g, r) := spawnTeleporters (level g) newMazeLayout g r in
      let '(g, r) := spawnStalkers (level g) newMazeLayout g r in
      Some (g, r)
  end.

(** The exit branch of [checkGameState]. *)
Definition reachExit (g : Game) : Game :=
  let timeBonus := Z.max 0 (1000 - timer g * 10) in
  let g := setScore (score g + timeBonus + 500 * level g) g in
  if level g =? 30 then
    let g := setNextLevelTimeout false g in
    let g := setGameStatus GameComplete g in
    stopStalkerMovement (stopEnemyMovement (stopTimer g))
  else loadNextLevel g.

(** The stalker branch of [checkGameState]. *)
Definition stalkerCatch (g : Game) : Game :=
  let g := setGameStatus GameOver g in
  stopStalkerMovement (stopEnemyMovement (stopTimer g)).

(** The enemy branch of [checkGameState]: the reset itself is
    [hitCallback], scheduled 400 ms later. *)
Definition enemyHit (g : Game) : Game :=
  setHitTimeout true (setPlayerHit true g).

Definition hitCallback (g : Game) : Game :=
  let g := setHitTimeout false g in
  let g := setPlayerPosition (startPosition g) g in
  setPlayerHit false g.

(** [checkGameState()].  Each [return] of the source ends the chain of
    [if]s here; the teleporter branch falls through, with [canTeleport]
    already cleared, when the destination index is out of range.  The exit
    test reads [this.maze()[pos.y][pos.x]]: when the grid has no row
    [pos.y] the source raises a [TypeError] there, and the result is
    [None]; in a row that exists, a column outside it reads [undefined],
    which is not ['E']. *)
Definition checkGameState (g : Game) (r : Rng) : option (Game * Rng) :=
  let pos := playerPosition g in
  if negb (bool_decide (gameStatus g = Playing)) || playerHit g then Some (g, r)
  else if existsb (λ stalker, posEqb pos stalker) (stalkers g)
  then Some (stalkerCatch g, r)
  else
    let teleporterPositions_ := teleporterPositions g in
    let teleporterIndex := findIndex (λ tp, posEqb tp pos) teleporterPositions_ in
    let teleported : Game + Game :=
      match teleporterIndex with
      | Some index =>
          if canTeleport g then
            let g := setCanTeleport false g in
            let destinationIndex :=
              if (Z.of_nat index mod 2 =? 0) then Z.of_nat index + 1
              else Z.of_nat index - 1 in
            if (0 <=? destinationIndex)
               && (destinationIndex <? Z.of_nat (length teleporterPositions_))
            then
              match teleporterPositions_ !! Z.to_nat destinationIndex with
              | Some destination => inl (setPlayerPosition destination g)
              | None => inr g
              end
            else inr g
          else inr g
      | None => inr g
      end in
    match teleported with
    | inl g => Some (g, r)
    | inr g =>
        if existsb (λ icon, posEqb icon pos) (regenerateIconPositions g)
        then regenerateMazeFromPlayerPosition g r
        else if negb ((0 <=? pos.2) && (pos.2 <? mazeHeight (maze g))) then None
        else if isExit (cellAt (maze g) pos.1 pos.2) then Some (reachExit g, r)
        else if existsb (λ enemy, posEqb pos enemy) (enemies g)
        then Some (enemyHit g, r)
        else Some (g, r)
    end.

(** [moveStalkers()] *)
Definition moveStalkers (g : Game) (r : Rng) : option (Game * Rng) :=
  let currentStalkers := stalkers g in
  if (length currentStalkers =? 0)%nat then Some (g, r)
  else
    match newStalkerPositions (maze g) (playerPosition g) currentStalkers with
    | None => None
    | Some positions => checkGameState (setStalkers positions g) r
    end.

(** [moveEnemies()] *)
Definition moveEnemies (g : Game) (r : Rng) : option (Game * Rng) :=
  let '(positions, r) :=
    newEnemyPositions (maze g) (playerPosition g) (enemies g) r in
  checkGameState (setEnemies positions g) r.

(** [movePlayer(dx, dy)] *)
Definition movePlayer (dx dy : Z) (g : Game) (r : Rng) : option (Game * Rng) :=
  if negb (bool_decide (gameStatus g = Playing)) || playerHit g then Some (g, r)
  else
    let currentPos := playerPosition g in
    let newPos := (currentPos.1 + dx, currentPos.2 + dy) in
    if (0 <=? newPos.2) && (newPos.2 <? mazeHeight (maze g))
       && (0 <=? newPos.1) && (newPos.1 <? rowWidth (maze g) newPos.2)
       && negb (isWall (cellAt (maze g) newPos.1 newPos.2))
    then
      let g := setPlayerPosition newPos g in
      let isNowOnTeleporter :=
        existsb (λ tp, posEqb tp newPos) (teleporterPositions g) in
      let g := if negb isNowOnTeleporter then setCanTeleport true g else g in
      checkGameState g r
    else Some (g, r).

(** ** The session as a transition system

    The states the component can be in once a game was started: the result
    of [startGame], and from there any handler or timer callback.  A timer
    callback is allowed in every state, which covers every schedule of the
    real timers. *)
Inductive reachable : Game → Prop :=
  | reach_startGame g r g' r' :
      startGame g r = Some (g', r') → reachable g'
  | reach_movePlayer g dx dy r g' r' :
      reachable g → movePlayer dx dy g r = Some (g', r') → reachable g'
  | reach_moveEnemies g r g' r' :
      reachable g → moveEnemies g r = Some (g', r') → reachable g'
  | reach_moveStalkers g r g' r' :
      reachable g → moveStalkers g r = Some (g', r') → reachable g'
  | reach_timerTick g : reachable g → reachable (timerTick g)
  | reach_hitCallback g : reachable g → reachable (hitCallback g)
  | reach_nextLevelCallback g r g' r' :
      reachable g → nextLevelCallback g r = Some (g', r') → reachable g'
  | reach_skipLevels g r g' r' :
      reachable g → skipLevels g r = Some (g', r') → reachable g'
  | reach_continueToInfinite g r g' r' :
      reachable g → continueToInfinite g r = Some (g', r') → reachable g'
  | reach_restartGame g : reachable g → reachable (restartGame g).

(** What makes the session move: the handlers the template and the host
    listener call, and the callbacks of the timers, each with the random
    outcomes it consumes. *)
Inductive Event : Type :=
  | StartGame (r : Rng)
  | MovePlayer (dx dy : Z) (r : Rng)
  | EnemyTick (r : Rng)
  | StalkerTick (r : Rng)
  | TimerTick
  | HitTimeout
  | NextLevelTimeout (r : Rng)
  | SkipLevels (r : Rng)
  | ContinueToInfinite (r : Rng)
  | RestartGame.

Definition handle (e : Event) (g : Game) : option Game :=
  match e with
  | StartGame r => fst <$> startGame g r
  | MovePlayer dx dy r => fst <$> movePlayer dx dy g r
  | EnemyTick r => fst <$> moveEnemies g r
  | StalkerTick r => fst <$> moveStalkers g r
  | TimerTick => Some (timerTick g)
  | HitTimeout => Some (hitCallback g)
  | NextLevelTimeout r => fst <$> nextLevelCallback g r
  | SkipLevels r => fst <$> skipLevels g r
  | ContinueToInfinite r => fst <$> continueToInfinite g r
  | RestartGame => Some (restartGame g)
  end.

Fixpoint runEvents (es : list Event) (g : Game) : option Game :=
  match es with
  | [] => Some g
  | e :: es' =>
      match handle e g with
      | Some g' => runEvents es' g'
      | None => None
      end
  end.

(** ** Vocabulary of the specification *)

(** A [size] by [size] grid. *)
Definition squareOf (size : Z) (m : Maze) : Prop :=
  length m = Z.to_nat size ∧ Forall (λ row, length row = Z.to_nat size) m.

Definition inside (size : Z) (p : Pos) : Prop :=
  0 ≤ p.1 < size ∧ 0 ≤ p.2 < size.

(** A cell of the grid that is not a wall. *)
Definition nonWall (m : Maze) (p : Pos) : bool :=
  match cellAt m p.1 p.2 with
  | Some Wall | None => false
  | Some _ => true
  end.

(** Cardinal neighbours. *)
Definition adjacent (p q : Pos) : Prop :=
  Z.abs (p.1 - q.1) + Z.abs (p.2 - q.2) = 1.

(** [connected m a b]: a path of non-wall cells leads from [a] to [b]. *)
Inductive connected (m : Maze) (a : Pos) : Pos → Prop :=
  | connected_here : nonWall m a = true → connected m a a
  | connected_step b c :
      connected m a b → adjacent b c → nonWall m c = true → connected m a c.

(** The cells of the step-2 lattice that [carve] visits. *)
Definition lattice (size : Z) (p : Pos) : Prop :=
  0 < p.1 < size - 1 ∧ 0 < p.2 < size - 1 ∧ Z.odd p.1 = true ∧ Z.odd p.2 = true.

(** The number of wall cells, the measure that bounds [carve]. *)
Definition countWalls (m : Maze) : nat :=
  sum_list ((λ row, length (filter (λ c, c = Wall) row)) <$> m).

Definition wallWeight (c : Cell) : nat := if decide (c = Wall) then 1 else 0.

(** The neighbour of [p] in direction [d]. *)
Definition move (p d : Pos) : Pos := (p.1 + d.1, p.2 + d.2).

(** Every lattice neighbour of [p] is open. *)
Definition closedAt (size : Z) (m : Maze) (p : Pos) : Prop :=
  ∀ d, d ∈ carveDirections → lattice size (move p d) → nonWall m (move p d) = true.

(** What a run of [carve] from the lattice cell [c] establishes: the grid
    keeps its shape, cells are only opened, and only to [Path]; [c] is
    open; every cell opened by the run is connected to [c]; and every
    lattice cell opened by the run has all its lattice neighbours open. *)
Definition carvePost (size : Z) (m : Maze) (c : Pos) (m' : Maze) : Prop :=
  squareOf size m'
  ∧ (∀ p, nonWall m p = true → nonWall m' p = true)
  ∧ nonWall m' c = true
  ∧ (∀ p, nonWall m' p = true → nonWall m p = true ∨ connected m' c p)
  ∧ (∀ p, lattice size p → nonWall m' p = true →
          p = c ∨ nonWall m p = false → closedAt size m' p)
  ∧ (∀ x y cell, cellAt m' x y = Some cell → cell = Path ∨ cellAt m x y = Some cell)
  ∧ (countWalls m' ≤ countWalls m)%nat.

(** The grid once carving is over, and during the wall-removal pass. *)
Definition carved (size : Z) (m : Maze) : Prop :=
  squareOf size m
  ∧ (∀ p, lattice size p → nonWall m p = true)
  ∧ (∀ p, nonWall m p = true → connected m (1, 1) p)
  ∧ (∀ x y c, cellAt m x y = Some c → c = Wall ∨ c = Path).

(** The grid that [generateMaze] returns. *)
Definition generated (size : Z) (g : Maze) : Prop :=
  squareOf size g
  ∧ cellAt g 1 1 = Some Start
  ∧ cellAt g (size - 2) (size - 2) = Some Exit
  ∧ (∀ x y c, cellAt g x y = Some c → (x, y) ≠ (1, 1) →
              (x, y) ≠ (size - 2, size - 2) → c = Wall ∨ c = Path)
  ∧ (∀ p, lattice size p → nonWall g p = true)
  ∧ (∀ p, nonWall g p = true → connected g (1, 1) p).

(** A wall cell between two open cells of its row or of its column. *)
Definition flanked (m : Maze) (x y : Z) : Prop :=
  cellAt m x y = Some Wall
  ∧ ((nonWall m (x - 1, y) = true ∧ nonWall m (x + 1, y) = true)
     ∨ (nonWall m (x, y - 1) = true ∧ nonWall m (x, y + 1) = true)).

Definition exitPosition (size : Z) : Pos := (size - 2, size - 2).

(** The grid of a running level: what [generateMaze] returns, possibly
    re-anchored by a regeneration, which moves the start cell. *)
Definition levelGrid (size : Z) (start : Pos) (g : Maze) : Prop :=
  squareOf size g
  ∧ cellAt g start.1 start.2 = Some Start
  ∧ (∀ p, lattice size p → nonWall g p = true)
  ∧ (∀ x y c, cellAt g x y = Some c → (x, y) ≠ start →
              (x, y) ≠ exitPosition size → c = Wall ∨ c = Path).

Definition onPath (m : Maze) (p : Pos) : Prop := cellAt m p.1 p.2 = Some Path.

(** The invariant of the session: the grid is the grid of the level, the
    player stands on an open cell, the icons lie on path cells, and the
    teleporters are distinct path cells that come in pairs. *)
Definition wellFormedAt (lvl : Z) (g : Game) : Prop :=
  1 ≤ lvl
  ∧ levelGrid (mazeSize lvl) (startPosition g) (maze g)
  ∧ nonWall (maze g) (playerPosition g) = true
  ∧ Forall (onPath (maze g)) (regenerateIconPositions g)
  ∧ Forall (onPath (maze g)) (teleporterPositions g)
  ∧ NoDup (teleporterPositions g)
  ∧ Nat.Even (length (teleporterPositions g)).

Definition wellFormed (g : Game) : Prop := wellFormedAt (level g) g.

(** The player stands on a cell of the grid that is not a wall. *)
Definition playerValid (g : Game) : Prop :=
  let p := playerPosition g in
  0 ≤ p.2 < mazeHeight (maze g)
  ∧ 0 ≤ p.1 < rowWidth (maze g) p.2
  ∧ ∃ c, cellAt (maze g) p.1 p.2 = Some c ∧ c ≠ Wall.

(** Twenty-one lattice cells of the first corridor row, enough to host
    the largest teleporter set next to the start and five icons. *)
Definition rowOne : list Pos := (λ i, (2 * i + 3, 1)) <$> seqZ 0 21.

(** ** The states the resolver runs on

    [checkGameState] is called at three places: by [movePlayer] once the
    move is accepted and applied, and at the end of [moveEnemies] and of
    [moveStalkers]. *)

(** The cell a move intent aims at, and the test that accepts the move. *)
Definition moveTarget (dx dy : Z) (g : Game) : Pos :=
  ((playerPosition g).1 + dx, (playerPosition g).2 + dy).

Definition moveAccepted (dx dy : Z) (g : Game) : bool :=
  let newPos := moveTarget dx dy g in
  (0 <=? newPos.2) && (newPos.2 <? mazeHeight (maze g))
  && (0 <=? newPos.1) && (newPos.1 <? rowWidth (maze g) newPos.2)
  && negb (isWall (cellAt (maze g) newPos.1 newPos.2)).

(** The session [movePlayer] hands to [checkGameState]. *)
Definition afterStep (dx dy : Z) (g : Game) : Game :=
  let newPos := moveTarget dx dy g in
  let g := setPlayerPosition newPos g in
  if negb (existsb (λ tp, posEqb tp newPos) (teleporterPositions g))
  then setCanTeleport true g else g.

Inductive resolverInput : Game → Prop :=
  | input_movePlayer g dx dy :
      reachable g → gameStatus g = Playing → playerHit g = false →
      moveAccepted dx dy g = true →
      resolverInput (afterStep dx dy g)
  | input_moveEnemies g r :
      reachable g →
      resolverInput
        (setEnemies (newEnemyPositions (maze g) (playerPosition g) (enemies g) r).1 g)
  | input_moveStalkers g positions :
      reachable g → stalkers g ≠ [] →
      newStalkerPositions (maze g) (playerPosition g) (stalkers g) = Some positions →
      resolverInput (setStalkers positions g).

(** ** Vocabulary of the stalker search *)

(** One move of a stalker: to a cardinal neighbour that the search admits. *)
Definition stepTo (m : Maze) (p q : Pos) : Prop :=
  (∃ d, d ∈ stalkerDirections ∧ q = move p d) ∧ walkable m q.1 q.2 = true.

(** [walk m a path b]: [path] lists the cells of a route of the stalker
    from [a] to [b], both included, in the order they are entered. *)
Inductive walk (m : Maze) (a : Pos) : list Pos → Pos → Prop :=
  | walk_here : walk m a [a] a
  | walk_step path b c :
      walk m a path b → stepTo m b c → walk m a (path ++ [c]) c.

Definition shortestWalk (m : Maze) (a : Pos) (path : list Pos) (b : Pos) : Prop :=
  walk m a path b ∧ ∀ q, walk m a q b → (length path ≤ length q)%nat.

Definition queueNode (e : QueueEntry) : Pos := (e.1.1, e.1.2).

(** The cells the search can ever mark. *)
Definition gridCells (m : Maze) : list Pos :=
  scanCells (mazeHeight m) (λ _, rowWidth m 0) (λ _ _, true).

(** The invariant of the search loop.  The queue holds shortest routes,
    first those of [d] cells and then those of [d + 1] cells; every cell
    with a shorter route has been expanded, and every cell with a route of
    [d] cells is marked. *)
Definition bfsInv (m : Maze) (start target : Pos)
    (queue : list QueueEntry) (visited : list Pos) : Prop :=
  start ∈ visited
  ∧ (∀ e, e ∈ queue →
       shortestWalk m start e.2 (queueNode e) ∧ queueNode e ∈ visited)
  ∧ (∀ u, u ∈ visited →
       (∃ e, e ∈ queue ∧ queueNode e = u)
       ∨ (u ≠ target
          ∧ ∀ d, d ∈ stalkerDirections →
                 walkable m (move u d).1 (move u d).2 = true →
                 move u d ∈ visited))
  ∧ match queue with
    | [] => True
    | e :: rest =>
        let d := length e.2 in
        (∃ r1 r2, rest = r1 ++ r2
                  ∧ Forall (λ e', length e'.2 = d) r1
                  ∧ Forall (λ e', length e'.2 = S d) r2)
        ∧ (∀ w q, walk m start q w → (length q < d)%nat →
                  w ∈ visited ∧ ∀ e', e' ∈ queue → queueNode e' ≠ w)
        ∧ (∀ w q, walk m start q w → length q = d → w ∈ visited)
    end.

(** The wall-removal pass seen from outside: a chain of openings of
    flanked wall cells. *)
Inductive flankedOpenings : Maze → Maze → Prop :=
  | flankedOpenings_done m : flankedOpenings m m
  | flankedOpenings_open m x y m' :
      flanked m x y → flankedOpenings (setCell m x y Path) m' →
      flankedOpenings m m'.

(** A session in which a move is refused: a lone start cell, walls around. *)
Definition walledIn : Game :=
  mkGame 1 0 0 Playing true
    [[Wall; Wall; Wall]; [Wall; Start; Wall]; [Wall; Wall; Wall]]
    (1, 1) [] [] false [] [] (1, 1) true true false false false.

(** ** Concrete sessions used as examples *)

(** The grid of a level when every random draw is 0. *)
Definition plainGrid (lvl : Z) : Maze :=
  match generateMaze lvl [] with
  | Some (grid, _) => grid
  | None => []
  end.

(** Level 25: the player has stepped on the first teleporter, where a
    stalker stands. *)
Definition ambush : Game :=
  mkGame 25 4000 12 Playing true (plainGrid 25) (1, 5)
    [(3, 51); (27, 3); (41, 21); (9, 33)] [(1, 5)] false
    [(21, 1); (33, 9); (15, 27); (45, 13)]
    [(1, 5); (1, 9); (1, 13); (1, 17)]
    (1, 1) true true true false false.

(** The three draws of one shuffle that put a given direction first. *)
Definition firstUp : Rng := [3; 2; 1]%nat.
Definition firstDown : Rng := [3; 2; 0]%nat.
Definition firstLeft : Rng := [3; 0; 1]%nat.
Definition firstRight : Rng := [0; 2; 1]%nat.

(** Draws under which carving runs from (1,1) down to (1,11), right to
    (11,11), and then once around the cell (12,12) without ever crossing
    one of the four walls next to it. *)
Definition sealingOutcome : Rng :=
  mjoin [firstDown; firstDown; firstDown; firstDown; firstDown;
         firstRight; firstRight; firstRight; firstRight; firstRight;
         firstUp; firstRight; firstDown; firstRight; firstDown;
         firstLeft; firstDown; firstLeft; firstUp].

(** Draws for loading level 10: plain carving, a wall-removal pass that
    opens (12,12) and (2,13), and an icon placed on (12,12). *)
Definition iconOutcome : Rng :=
  ([0] ++ replicate 432 0 ++ [11; 11; 1; 12] ++ replicate 96 0
   ++ [0; 118; 0; 0; 0])%nat.

(** A game played up to the cell below that icon. *)
Definition toTheIcon : list Event :=
  [StartGame []] ++ replicate 8 (SkipLevels []) ++ [SkipLevels iconOutcome]
  ++ replicate 12 (MovePlayer 0 1 []) ++ replicate 11 (MovePlayer 1 0 []).

(** A game played up to the cell left of the exit of level 1. *)
Definition toTheExit : list Event :=
  [StartGame []] ++ replicate 4 (MovePlayer 0 1 []) ++ replicate 3 (MovePlayer 1 0 []).

(** Draws for loading level 20 that place the two teleporters on (1,2)
    and (1,3), and a game played up to that load. *)
Definition teleporterOutcome : Rng := (replicate 1821 0 ++ [37; 38])%nat.

Definition toLevel20 : list Event :=
  [StartGame []] ++ replicate 18 (SkipLevels []) ++ [SkipLevels teleporterOutcome].

(** The states those games end in. *)
Definition belowIcon : Game := default initialGame (runEvents toTheIcon initialGame).
Definition nearExit : Game := default initialGame (runEvents toTheExit initialGame).
Definition atLevel20 : Game := default initialGame (runEvents toLevel20 initialGame).

(** The session after the move from [belowIcon] onto the icon, when the
    regeneration draws [sealingOutcome]. *)
Definition sealed : Game :=
  default initialGame (fst <$> movePlayer 0 (-1) belowIcon sealingOutcome).


(** ** Further vocabulary *)

(** The cells that are not on the outer frame of the grid. *)
Definition interior (size : Z) (p : Pos) : Prop :=
  0 < p.1 < size - 1 ∧ 0 < p.2 < size - 1.

(** The cells of the outer frame. *)
Definition onBorder (size : Z) (p : Pos) : Prop :=
  inside size p ∧ (p.1 = 0 ∨ p.2 = 0 ∨ p.1 = size - 1 ∨ p.2 = size - 1).

(** The test that lets the player or an enemy enter a cell: inside the
    grid, and not a Wall. *)
Definition enterable (m : Maze) (p : Pos) : bool :=
  (0 <=? p.2) && (p.2 <? mazeHeight m) && (0 <=? p.1) && (p.1 <? rowWidth m p.2)
  && negb (isWall (cellAt m p.1 p.2)).

(** The priority [moveEnemies] gives to the direction [d] of an enemy. *)
Definition directionPriority (player enemy : Pos) (d : Z * Z) : Z :=
  movePriority (player.1 - enemy.1) (player.2 - enemy.2) d.1 d.2.

(** The neighbour of an enemy that lies straight towards the player: along
    the axis on which the two are further apart, the vertical one on a tie. *)
Definition towardPlayer (player enemy : Pos) : Pos :=
  let dx := player.1 - enemy.1 in
  let dy := player.2 - enemy.2 in
  if Z.abs dy <? Z.abs dx then (enemy.1 + Z.sgn dx, enemy.2)
  else (enemy.1, enemy.2 + Z.sgn dy).

(** The grid a regeneration builds from the fresh layout: the old start
    mark is wiped, and the player's cell [cur] is opened and becomes the
    start cell. *)
Definition reanchor (layout : Maze) (cur : Pos) : Maze :=
  let m1 := if isStart (cellAt layout 1 1) then setCell layout 1 1 Path else layout in
  let m2 := if isWall (cellAt m1 cur.1 cur.2) then setCell m1 cur.1 cur.2 Path else m1 in
  setCell m2 cur.1 cur.2 Start.

(** ** Keyboard input *)

(** [handleKeydown(event)], as a function of [event.key]. *)
Definition handleKeydown (key : string) (g : Game) (r : Rng) : option (Game * Rng) :=
  if negb (bool_decide (gameStatus g = Playing)) then Some (g, r)
  else if bool_decide (key = "ArrowUp") || bool_decide (key = "w")
  then movePlayer 0 (-1) g r
  else if bool_decide (key = "ArrowDown") || bool_decide (key = "s")
  then movePlayer 0 1 g r
  else if bool_decide (key = "ArrowLeft") || bool_decide (key = "a")
  then movePlayer (-1) 0 g r
  else if bool_decide (key = "ArrowRight") || bool_decide (key = "d")
  then movePlayer 1 0 g r
  else Some (g, r).

(** ** Further concrete sessions *)

(** Level 20 after the step from the start onto the teleporter at (1,2),
    which sends the player to (1,3). *)
Definition afterJump : Game :=
  default initialGame (fst <$> movePlayer 0 1 atLevel20 []).

(** A corridor of three cells with an enemy on the player's cell. *)
Definition cornered : Game :=
  mkGame 16 2500 7 Playing true
    [[Wall; Wall; Wall; Wall; Wall];
     [Wall; Start; Path; Path; Wall];
     [Wall; Wall; Wall; Wall; Wall]]
    (3, 1) [(3, 1)] [] false [] [] (1, 1) true true false false false.

(** The keys [handleKeydown] reacts to. *)
Definition moveKeys : list string :=
  ["ArrowUp"; "w"; "ArrowDown"; "s"; "ArrowLeft"; "a"; "ArrowRight"; "d"].

(** ** What holds throughout a session *)

(** Score and timer are not negative and the level is at least 1; the
    game-complete status belongs to level 30; a completed level has its
    successor scheduled; the stalker ticker runs from level 25 on only;
    and each kind of entity is absent below its unlock level and within
    its maximum above. *)
Definition sessionInv (g : Game) : Prop :=
  0 ≤ score g ∧ 0 ≤ timer g ∧ 1 ≤ level g
  ∧ (gameStatus g = GameComplete → level g = 30)
  ∧ (gameStatus g = LevelComplete → nextLevelTimeout g = true ∧ level g ≠ 30)
  ∧ (stalkersInterval g = true → 25 ≤ level g)
  ∧ Z.of_nat (length (enemies g)) ≤ (if level g <? 15 then 0 else 4)
  ∧ Z.of_nat (length (regenerateIconPositions g)) ≤ (if level g <? 10 then 0 else 5)
  ∧ Z.of_nat (length (teleporterPositions g)) ≤ (if level g <? 20 then 0 else 14)
  ∧ Z.of_nat (length (stalkers g)) ≤ (if level g <? 25 then 0 else 1).

(** Level 1 once the player has stepped from [nearExit] onto the exit. *)
Definition atExit : Game :=
  default initialGame (handle (MovePlayer 1 0 []) nearExit).

(** A game taken to level 30 and played down the first column and along
    the last corridor row, up to the cell left of the exit. *)
Definition toTheLastExit : list Event :=
  [StartGame []] ++ replicate 28 (SkipLevels []) ++ [NextLevelTimeout []]
  ++ replicate 62 (MovePlayer 0 1 []) ++ replicate 61 (MovePlayer 1 0 []).

Definition nearLastExit : Game :=
  default initialGame (runEvents toTheLastExit initialGame).

(** ** Counting cells *)

(** The cells of a [size] by [size] grid, and those with two odd
    coordinates inside the frame, which [carve] visits. *)
Definition allCells (size : Z) : list Pos := scanCells size (λ _, size) (λ _ _, true).

Definition latticeCells (size : Z) : list Pos :=
  scanCells size (λ _, size)
    (λ x y, (0 <? x) && (x <? size - 1) && (0 <? y) && (y <? size - 1)
            && Z.odd x && Z.odd y).

(** The number of open cells among [cells]. *)
Definition countOpen (m : Maze) (cells : list Pos) : nat :=
  length (filter (λ p, nonWall m p = true) cells).

(** The cell [carve] opens between the cell [c] and its neighbour in
    direction [d]. *)
Definition midpoint (c d : Pos) : Pos :=
  ((move c d).1 - d.1 / 2, (move c d).2 - d.2 / 2).

(** Every open cell between two lattice cells joins two open cells. *)
Definition passagesJoin (size : Z) (m : Maze) : Prop :=
  ∀ c d, lattice size c → d ∈ carveDirections → lattice size (move c d) →
    nonWall m (midpoint c d) = true →
    nonWall m c = true ∧ nonWall m (move c d) = true.

(** One open cell more would make twice the open lattice cells: the open
    cells are the visited lattice cells and one passage for each of them
    but the first. *)
Definition treeCount (size : Z) (m : Maze) : Prop :=
  (countOpen m (allCells size) + 1 = 2 * countOpen m (latticeCells size))%nat.

(** Enemies and stalkers stand on cells of the grid that are not walls. *)
Definition onOpenCells (g : Game) : Prop :=
  Forall (λ p, nonWall (maze g) p = true) (enemies g)
  ∧ Forall (λ p, nonWall (maze g) p = true) (stalkers g).

(** * Proofs *)

(** ** Reading and writing cells *)

Lemma squareOf_row size m i row :
  squareOf size m → m !! i = Some row → length row = Z.to_nat size.
Proof.
  intros [_ Hrows] Hrow. rewrite Forall_forall in Hrows.
  apply Hrows. eapply list_elem_of_lookup_2; eauto.
Qed.

Lemma cellAt_inside size m x y :
  squareOf size m → inside size (x, y) → is_Some (cellAt m x y).
Proof.
  intros Hsq [[Hx0 Hx1] [Hy0 Hy1]]; simpl in *.
  unfold cellAt.
  replace ((0 <=? x) && (0 <=? y)) with true by lia.
  destruct (lookup_lt_is_Some_2 m (Z.to_nat y)) as [row Hrow].
  { destruct Hsq as [-> _]. lia. }
  rewrite Hrow; simpl.
  apply lookup_lt_is_Some_2.
  rewrite (squareOf_row _ _ _ _ Hsq Hrow). lia.
Qed.

Lemma cellAt_Some_inside size m x y c :
  squareOf size m → cellAt m x y = Some c → inside size (x, y).
Proof.
  intros Hsq H. unfold cellAt in H.
  destruct ((0 <=? x) && (0 <=? y)) eqn:Hg; [|done].
  destruct (m !! Z.to_nat y) as [row|] eqn:Hrow; [|done]. simpl in H.
  pose proof (squareOf_row _ _ _ _ Hsq Hrow) as Hlen.
  apply lookup_lt_Some in H. apply lookup_lt_Some in Hrow.
  destruct Hsq as [Hm _]. unfold inside; simpl. lia.
Qed.

Lemma cellAt_setCell_eq m x y c c0 :
  cellAt m x y = Some c0 → cellAt (setCell m x y c) x y = Some c.
Proof.
  unfold cellAt, setCell.
  destruct ((0 <=? x) && (0 <=? y)); [|done].
  rewrite list_lookup_alter_eq.
  destruct (m !! Z.to_nat y) as [row|]; [|done]. simpl.
  intros H. apply list_lookup_insert_eq. by eapply lookup_lt_Some.
Qed.

Lemma cellAt_setCell_ne m x y c x' y' :
  (x, y) ≠ (x', y') → cellAt (setCell m x y c) x' y' = cellAt m x' y'.
Proof.
  intros Hne. unfold cellAt, setCell.
  destruct ((0 <=? x') && (0 <=? y')) eqn:Hg'; [|done].
  destruct ((0 <=? x) && (0 <=? y)) eqn:Hg; [|done].
  destruct (decide (y = y')) as [->|Hy].
  - rewrite list_lookup_alter_eq.
    destruct (m !! Z.to_nat y') as [row|]; [|done]. simpl.
    apply list_lookup_insert_ne.
    intros Heq. apply Hne. f_equal. lia.
  - rewrite list_lookup_alter_ne; [done|]. lia.
Qed.

Lemma cellAt_setCell m x y c x' y' :
  cellAt (setCell m x y c) x' y' =
    if decide ((x, y) = (x', y') ∧ is_Some (cellAt m x y)) then Some c
    else cellAt m x' y'.
Proof.
  case_decide as H.
  - destruct H as [[= <- <-] [c0 H]]. by eapply cellAt_setCell_eq.
  - destruct (decide ((x, y) = (x', y'))) as [[= <- <-]|Hne].
    + destruct (cellAt m x y) as [c0|] eqn:Hc; [exfalso; eauto|].
      unfold cellAt, setCell in *.
      destruct ((0 <=? x) && (0 <=? y)); [|done].
      rewrite list_lookup_alter_eq.
      destruct (m !! Z.to_nat y) as [row|]; [|done]. simpl in *.
      apply lookup_ge_None in Hc. apply lookup_ge_None.
      by rewrite length_insert.
    + by apply cellAt_setCell_ne.
Qed.

Lemma squareOf_setCell size m x y c :
  squareOf size m → squareOf size (setCell m x y c).
Proof.
  intros [Hlen Hrows]. unfold setCell.
  destruct ((0 <=? x) && (0 <=? y)); [|done].
  split; [by rewrite length_alter|].
  apply Forall_alter; [done|].
  intros row _ Hrow. by rewrite length_insert.
Qed.

Lemma squareOf_blankMaze size : squareOf size (blankMaze size).
Proof.
  split; [apply length_replicate|].
  apply Forall_replicate, length_replicate.
Qed.

Lemma cellAt_blankMaze size x y c :
  cellAt (blankMaze size) x y = Some c → c = Wall.
Proof.
  unfold cellAt, blankMaze.
  destruct ((0 <=? x) && (0 <=? y)); [|done].
  destruct (replicate _ _ !! Z.to_nat y) as [row|] eqn:Hrow; [|done]; simpl.
  apply lookup_replicate_1 in Hrow as [-> _].
  intros H. by apply lookup_replicate_1 in H as [-> _].
Qed.

Lemma nonWall_setCell m x y c p :
  c ≠ Wall → nonWall m p = true → nonWall (setCell m x y c) p = true.
Proof.
  intros Hc. unfold nonWall. rewrite cellAt_setCell.
  case_decide; [by destruct c|done].
Qed.

Lemma nonWall_setCell_here m x y c :
  c ≠ Wall → is_Some (cellAt m x y) → nonWall (setCell m x y c) (x, y) = true.
Proof.
  intros Hc [c0 H]. unfold nonWall; simpl.
  rewrite (cellAt_setCell_eq _ _ _ _ _ H). by destruct c.
Qed.

Lemma nonWall_inside size m p :
  squareOf size m → nonWall m p = true → inside size p.
Proof.
  intros Hsq H. unfold nonWall in H. destruct p as [x y]; simpl in *.
  destruct (cellAt m x y) as [c|] eqn:Hc; [|done].
  by eapply cellAt_Some_inside.
Qed.

(** ** Connectivity *)

Lemma connected_mono m m' a b :
  (∀ p, nonWall m p = true → nonWall m' p = true) →
  connected m a b → connected m' a b.
Proof.
  intros Hmono. induction 1.
  - by apply connected_here, Hmono.
  - eapply connected_step; eauto.
Qed.

Lemma connected_trans m a b c :
  connected m a b → connected m b c → connected m a c.
Proof.
  intros Hab. induction 1; [done|].
  eapply connected_step; eauto.
Qed.

Lemma connected_start_nonWall m a b : connected m a b → nonWall m a = true.
Proof. by induction 1. Qed.

Lemma connected_end_nonWall m a b : connected m a b → nonWall m b = true.
Proof. by destruct 1. Qed.

Lemma connected_last_step m a b :
  connected m a b → a ≠ b →
  ∃ n, adjacent n b ∧ nonWall m n = true.
Proof.
  destruct 1 as [|n b Hn Hadj Hb]; [done|].
  intros _. exists n. split; [done|]. by eapply connected_end_nonWall.
Qed.

(** ** The shuffle keeps the four directions *)

Lemma swap_lookup {A} (l : list A) i j k vi vj :
  l !! i = Some vi → l !! j = Some vj →
  swap l i j !! k = l !! (if decide (k = j) then i else if decide (k = i) then j else k).
Proof.
  intros Hi Hj. unfold swap. rewrite Hi, Hj.
  apply lookup_lt_Some in Hi as Hi'. apply lookup_lt_Some in Hj as Hj'.
  repeat case_decide; subst.
  - rewrite list_lookup_insert_eq; [done|]. by rewrite length_insert.
  - rewrite list_lookup_insert_ne by done.
    by rewrite list_lookup_insert_eq.
  - by rewrite !list_lookup_insert_ne.
Qed.

Lemma elem_of_swap {A} (l : list A) i j x : x ∈ swap l i j ↔ x ∈ l.
Proof.
  destruct (l !! i) as [vi|] eqn:Hi; [|by unfold swap; rewrite Hi].
  destruct (l !! j) as [vj|] eqn:Hj; [|by unfold swap; rewrite Hi, Hj].
  rewrite !list_elem_of_lookup. split; intros [k Hk].
  - rewrite (swap_lookup _ _ _ _ _ _ Hi Hj) in Hk. eauto.
  - exists (if decide (k = j) then i else if decide (k = i) then j else k).
    rewrite (swap_lookup _ _ _ _ _ _ Hi Hj).
    repeat case_decide; subst; congruence.
Qed.

Lemma elem_of_shuffleFrom {A} i (l : list A) r x :
  x ∈ (shuffleFrom i l r).1 ↔ x ∈ l.
Proof.
  revert l r. induction i as [|i IH]; intros l r; [done|].
  simpl. destruct (randInt (S (S i)) r) as [j r'].
  by rewrite IH, elem_of_swap.
Qed.

Lemma elem_of_shuffle {A} (l : list A) r x : x ∈ (shuffle l r).1 ↔ x ∈ l.
Proof. apply elem_of_shuffleFrom. Qed.

(** ** Counting walls *)

Lemma rowWalls_insert (row : list Cell) i c c0 :
  row !! i = Some c0 →
  (length (filter (λ c, c = Wall) (<[i:=c]> row)) + wallWeight c0
   = length (filter (λ c, c = Wall) row) + wallWeight c)%nat.
Proof.
  intros Hi.
  rewrite insert_take_drop by (by eapply lookup_lt_Some).
  rewrite <- (take_drop_middle row i c0 Hi) at 3.
  rewrite !filter_app, !filter_cons, !length_app. unfold wallWeight.
  repeat case_decide; simpl; lia.
Qed.

Lemma sum_list_alter {A} (f : A → nat) (g : A → A) (l : list A) i a :
  l !! i = Some a →
  (sum_list (f <$> alter g i l) + f a = sum_list (f <$> l) + f (g a))%nat.
Proof.
  revert i. induction l as [|b l IH]; intros [|i] Hi; simplify_eq/=; [lia|].
  specialize (IH _ Hi). lia.
Qed.

Lemma countWalls_setCell m x y c c0 :
  cellAt m x y = Some c0 →
  (countWalls (setCell m x y c) + wallWeight c0 = countWalls m + wallWeight c)%nat.
Proof.
  unfold cellAt, setCell, countWalls.
  destruct ((0 <=? x) && (0 <=? y)); [|done].
  destruct (m !! Z.to_nat y) as [row|] eqn:Hrow; [|done]. simpl. intros Hc.
  pose proof (sum_list_alter (λ row, length (filter (λ c, c = Wall) row))
                (λ row, <[Z.to_nat x:=c]> row) m _ _ Hrow) as H.
  pose proof (rowWalls_insert row _ c c0 Hc) as H'.
  simpl in H. lia.
Qed.

Lemma countWalls_setCell_le m x y c :
  c ≠ Wall → is_Some (cellAt m x y) →
  (countWalls (setCell m x y c) ≤ countWalls m)%nat.
Proof.
  intros Hc [c0 H0].
  pose proof (countWalls_setCell m x y c c0 H0) as H.
  unfold wallWeight in H. repeat case_decide; try done; lia.
Qed.

(** ** Depth-first carving *)

Lemma carveDirections_cases d :
  d ∈ carveDirections → d = (0, -2) ∨ d = (0, 2) ∨ d = (-2, 0) ∨ d = (2, 0).
Proof. unfold carveDirections. rewrite !elem_of_cons, elem_of_nil. tauto. Qed.

Lemma lattice_inside size p : lattice size p → inside size p.
Proof. unfold lattice, inside. lia. Qed.

Lemma odd_shift2 z : Z.odd (z + 2) = Z.odd z.
Proof. rewrite Z.odd_add. simpl. by destruct (Z.odd z). Qed.

Lemma odd_shift2' z : Z.odd (z + -2) = Z.odd z.
Proof. rewrite Z.odd_add. simpl. by destruct (Z.odd z). Qed.

Lemma odd_shift1 z : Z.odd (z + 1) = negb (Z.odd z).
Proof. rewrite Z.odd_add. simpl. by destruct (Z.odd z). Qed.

Lemma odd_shift1' z : Z.odd (z - 1) = negb (Z.odd z).
Proof. rewrite Z.odd_sub. simpl. by destruct (Z.odd z). Qed.

(** The cell between a lattice cell and its lattice neighbour. *)
Lemma carve_between size c dx dy :
  lattice size c → (dx, dy) ∈ carveDirections → lattice size (move c (dx, dy)) →
  let n := move c (dx, dy) in
  let mid := (n.1 - dx / 2, n.2 - dy / 2) in
  inside size mid ∧ adjacent c mid ∧ adjacent mid n ∧ mid ≠ n ∧ mid ≠ c
  ∧ ¬ lattice size mid.
Proof.
  intros Hc Hd Hn. destruct c as [cx cy].
  unfold lattice, inside, adjacent, move in *; simpl in *.
  apply carveDirections_cases in Hd.
  destruct Hd as [Hd|[Hd|[Hd|Hd]]]; simplify_eq; simpl;
    change (-2 / 2) with (-1); change (2 / 2) with 1; change (0 / 2) with 0;
    (repeat split; try lia; try (intros [= ?]; lia)).
  all: intros (? & ? & Hx & Hy).
  all: destruct Hc as (_ & _ & Hcx & Hcy).
  - replace (cy + -2 - -1) with (cy - 1) in Hy by lia.
    rewrite odd_shift1' in Hy. by rewrite Hcy in Hy.
  - replace (cy + 2 - 1) with (cy + 1) in Hy by lia.
    rewrite odd_shift1 in Hy. by rewrite Hcy in Hy.
  - replace (cx + -2 - -1) with (cx - 1) in Hx by lia.
    rewrite odd_shift1' in Hx. by rewrite Hcx in Hx.
  - replace (cx + 2 - 1) with (cx + 1) in Hx by lia.
    rewrite odd_shift1 in Hx. by rewrite Hcx in Hx.
Qed.

Lemma lattice_move size c d :
  lattice size c → d ∈ carveDirections →
  (0 <? (move c d).2) && ((move c d).2 <? size - 1)
  && (0 <? (move c d).1) && ((move c d).1 <? size - 1) = true →
  lattice size (move c d).
Proof.
  intros (? & ? & Hx & Hy) Hd Hg. destruct c as [cx cy].
  unfold lattice, move in *; simpl in *.
  apply carveDirections_cases in Hd.
  destruct Hd as [Hd|[Hd|[Hd|Hd]]]; simplify_eq; simpl in *;
    rewrite ?Z.add_0_r, ?odd_shift2, ?odd_shift2'; repeat split; try done; lia.
Qed.

Lemma nonWall_false_isWall size m p :
  squareOf size m → inside size p →
  nonWall m p = negb (isWall (cellAt m p.1 p.2)).
Proof.
  intros Hsq Hin. destruct p as [x y].
  destruct (cellAt_inside _ _ _ _ Hsq Hin) as [c Hc].
  unfold nonWall; simpl. rewrite Hc. by destruct c.
Qed.

Section CarveSpec.
Variable size : Z.
Variable rec : Maze → Z → Z → Rng → option (Maze * Rng).
Hypothesis rec_post : ∀ m n r m' r',
  squareOf size m → lattice size n →
  rec m n.1 n.2 r = Some (m', r') → carvePost size m n m'.

Lemma carveLoop_spec c dirs :
  lattice size c →
  (∀ d, d ∈ dirs → d ∈ carveDirections) →
  ∀ m r m' r',
    squareOf size m → nonWall m c = true →
    carveLoop rec size c.1 c.2 dirs m r = Some (m', r') →
    squareOf size m'
    ∧ (∀ p, nonWall m p = true → nonWall m' p = true)
    ∧ (∀ p, nonWall m' p = true → nonWall m p = true ∨ connected m' c p)
    ∧ (∀ p, lattice size p → nonWall m' p = true → nonWall m p = false →
            closedAt size m' p)
    ∧ (∀ d, d ∈ dirs → lattice size (move c d) → nonWall m' (move c d) = true)
    ∧ (∀ x y cell, cellAt m' x y = Some cell →
                   cell = Path ∨ cellAt m x y = Some cell)
    ∧ (countWalls m' ≤ countWalls m)%nat.
Proof.
  intros Hc. induction dirs as [|[dx dy] dirs IH]; intros Hdirs m r m' r' Hsq Hopen Hrun.
  { simpl in Hrun. simplify_eq.
    split; [done|]. split; [done|]. split; [by auto|].
    split; [intros; congruence|].
    split; [intros d Hd; by apply elem_of_nil in Hd|].
    split; [by auto|lia]. }
  assert (Hd : (dx, dy) ∈ carveDirections) by (apply Hdirs; left).
  assert (Hdirs' : ∀ d, d ∈ dirs → d ∈ carveDirections)
    by (intros; apply Hdirs; by right).
  specialize (IH Hdirs').
  simpl in Hrun.
  change (c.1 + dx, c.2 + dy) with (move c (dx, dy)) in *.
  set (n := move c (dx, dy)) in *.
  change (c.1 + dx) with n.1 in Hrun. change (c.2 + dy) with n.2 in Hrun.
  destruct ((0 <? n.2) && (n.2 <? size - 1) && (0 <? n.1) && (n.1 <? size - 1))
    eqn:Hbounds; cbn [andb] in Hrun.
  - pose proof (lattice_move _ _ _ Hc Hd Hbounds) as Hn. fold n in Hn.
    destruct (isWall (cellAt m n.1 n.2)) eqn:Hwall.
    + (* the neighbour is a wall: open the cell between and recurse *)
      destruct (carve_between _ _ _ _ Hc Hd Hn)
        as (Hmid_in & Hadj1 & Hadj2 & Hmid_n & Hmid_c & Hmid_lat).
      fold n in Hmid_in, Hadj1, Hadj2, Hmid_n, Hmid_c, Hmid_lat.
      set (mid := (n.1 - dx / 2, n.2 - dy / 2)) in *.
      change (n.1 - dx / 2) with mid.1 in Hrun.
      change (n.2 - dy / 2) with mid.2 in Hrun.
      set (m2 := setCell m mid.1 mid.2 Path) in *.
      assert (Hsq2 : squareOf size m2) by by apply squareOf_setCell.
      assert (Hmono2 : ∀ p, nonWall m p = true → nonWall m2 p = true)
        by (intros; by apply nonWall_setCell).
      assert (Hmid2 : nonWall m2 mid = true).
      { apply (nonWall_setCell_here m mid.1 mid.2 Path); [done|].
        by eapply cellAt_inside. }
      destruct (rec m2 n.1 n.2 r) as [[m3 r3]|] eqn:Hrec; [|done].
      destruct (rec_post _ n _ _ _ Hsq2 Hn Hrec)
        as (Hsq3 & Hmono3 & Hn3 & Hconn3 & Hclosed3 & Hpath3 & Hcount3).
      destruct (IH m3 r3 m' r' Hsq3 (Hmono3 _ (Hmono2 _ Hopen)) Hrun)
        as (Hsq' & Hmono' & Hconn' & Hclosed' & Hdirs'' & Hpath' & Hcount').
      assert (Hc_n : connected m3 c n).
      { eapply connected_step; [|exact Hadj2|exact Hn3].
        eapply connected_step; [|exact Hadj1|by apply Hmono3].
        apply connected_here. by apply Hmono3, Hmono2. }
      split; [done|]. split; [by auto|]. split; [|split; [|split; [|split]]].
      * intros p Hp. destruct (Hconn' p Hp) as [Hp3|?]; [|by right].
        destruct (Hconn3 p Hp3) as [Hp2|Hnp].
        -- destruct (decide (p = mid)) as [->|Hpm].
           ++ right. eapply connected_step; [|exact Hadj1|by auto].
              apply connected_here. by auto.
           ++ left. unfold nonWall in Hp2 |- *. unfold m2 in Hp2.
              rewrite cellAt_setCell_ne in Hp2; [done|].
              destruct p, mid; simpl in *. congruence.
        -- right. eapply connected_mono; [exact Hmono'|].
           by eapply connected_trans.
      * intros p Hlat Hp Hnot.
        destruct (nonWall m3 p) eqn:Hp3; [|by apply Hclosed'].
        assert (Hnot2 : nonWall m2 p = false).
        { unfold nonWall in Hnot |- *. unfold m2.
          rewrite cellAt_setCell_ne; [done|].
          intros Heq. apply Hmid_lat. destruct p, mid; simpl in *. by simplify_eq. }
        intros d Hdd Hld. apply Hmono', (Hclosed3 p Hlat Hp3); auto.
      * intros d [->|Hdd]%elem_of_cons Hld; [by apply Hmono'|by apply Hdirs''].
      * intros x y cell Hcell.
        destruct (Hpath' _ _ _ Hcell) as [?|Hcell3]; [by left|].
        destruct (Hpath3 _ _ _ Hcell3) as [?|Hcell2]; [by left|].
        unfold m2 in Hcell2. rewrite cellAt_setCell in Hcell2.
        case_decide; simplify_eq; auto.
      * assert (countWalls m2 ≤ countWalls m)%nat; [|lia].
        apply countWalls_setCell_le; [done|]. by eapply cellAt_inside.
    + (* the neighbour is already open *)
      destruct (IH m r m' r' Hsq Hopen Hrun)
        as (Hsq' & Hmono' & Hconn' & Hclosed' & Hdirs'' & Hpath' & Hcount').
      refine (conj Hsq' (conj Hmono' (conj Hconn' (conj Hclosed'
                (conj _ (conj Hpath' Hcount')))))).
      intros d [->|Hdd]%elem_of_cons Hld; [|by apply Hdirs''].
      apply Hmono'. rewrite (nonWall_false_isWall size); [|done|by apply lattice_inside].
      fold n. by rewrite Hwall.
  - destruct (IH m r m' r' Hsq Hopen Hrun)
      as (Hsq' & Hmono' & Hconn' & Hclosed' & Hdirs'' & Hpath' & Hcount').
    refine (conj Hsq' (conj Hmono' (conj Hconn' (conj Hclosed'
              (conj _ (conj Hpath' Hcount')))))).
    intros d [->|Hdd]%elem_of_cons Hld; [|by apply Hdirs''].
    fold n in Hld. destruct Hld as (? & ? & _). lia.
Qed.
End CarveSpec.

Lemma carve_spec size fuel : ∀ m c r m' r',
  squareOf size m → lattice size c →
  carve fuel size m c.1 c.2 r = Some (m', r') → carvePost size m c m'.
Proof.
  induction fuel as [|fuel IH]; intros m c r m' r' Hsq Hc Hrun; [done|].
  simpl in Hrun.
  destruct (shuffle carveDirections r) as [dirs r1] eqn:Hsh.
  set (m1 := setCell m c.1 c.2 Path) in *.
  assert (Hin : is_Some (cellAt m c.1 c.2)).
  { eapply cellAt_inside; [done|]. destruct c. by apply lattice_inside. }
  assert (Hsq1 : squareOf size m1) by by apply squareOf_setCell.
  assert (Hc1 : nonWall m1 c = true).
  { destruct c as [cx cy]. by apply (nonWall_setCell_here m cx cy Path). }
  assert (Hmono1 : ∀ p, nonWall m p = true → nonWall m1 p = true)
    by (intros; by apply nonWall_setCell).
  assert (Hdirs : ∀ d, d ∈ dirs ↔ d ∈ carveDirections).
  { intros d. rewrite <- (elem_of_shuffle carveDirections r d). by rewrite Hsh. }
  destruct (carveLoop_spec size (carve fuel size) IH c dirs Hc
              (λ d, proj1 (Hdirs d)) m1 r1 m' r' Hsq1 Hc1 Hrun)
    as (Hsq' & Hmono' & Hconn' & Hclosed' & Hdirs' & Hpath' & Hcount').
  assert (Hother : ∀ p, p ≠ c → nonWall m1 p = nonWall m p).
  { intros p Hp. unfold nonWall, m1. rewrite cellAt_setCell_ne; [done|].
    destruct p, c; simpl in *; congruence. }
  split; [done|]. split; [by auto|]. split; [by auto|].
  split; [|split; [|split]].
  - intros p Hp. destruct (Hconn' p Hp) as [Hp1|?]; [|by right].
    destruct (decide (p = c)) as [->|Hpc].
    + right. apply connected_here. by auto.
    + left. by rewrite <- Hother.
  - intros p Hlat Hp [->|Hnew].
    + intros d Hd Hld. apply Hdirs'; [by apply Hdirs|done].
    + destruct (decide (p = c)) as [->|Hpc].
      * intros d Hd Hld. apply Hdirs'; [by apply Hdirs|done].
      * apply Hclosed'; [done..|]. by rewrite Hother.
  - intros x y cell Hcell.
    destruct (Hpath' _ _ _ Hcell) as [?|Hcell1]; [by left|].
    unfold m1 in Hcell1. rewrite cellAt_setCell in Hcell1.
    case_decide; simplify_eq; auto.
  - assert (countWalls m1 ≤ countWalls m)%nat; [|lia].
    by apply countWalls_setCell_le.
Qed.

(** The recursion ends: every call opens a wall cell first. *)
Lemma carveLoop_total size rec bound c dirs :
  (∀ m n r m' r', squareOf size m → lattice size n →
     rec m n.1 n.2 r = Some (m', r') → carvePost size m n m') →
  (∀ m n r, squareOf size m → lattice size n →
     (countWalls (setCell m n.1 n.2 Path) < bound)%nat →
     is_Some (rec m n.1 n.2 r)) →
  lattice size c →
  (∀ d, d ∈ dirs → d ∈ carveDirections) →
  ∀ m r, squareOf size m → (countWalls m ≤ bound)%nat →
    is_Some (carveLoop rec size c.1 c.2 dirs m r).
Proof.
  intros Hpost Htotal Hc.
  induction dirs as [|[dx dy] dirs IH]; intros Hdirs m r Hsq Hcount; [by eexists|].
  assert (Hd : (dx, dy) ∈ carveDirections) by (apply Hdirs; left).
  assert (Hdirs' : ∀ d, d ∈ dirs → d ∈ carveDirections)
    by (intros; apply Hdirs; by right).
  specialize (IH Hdirs').
  simpl.
  change (c.1 + dx, c.2 + dy) with (move c (dx, dy)) in *.
  set (n := move c (dx, dy)) in *.
  change (c.1 + dx) with n.1. change (c.2 + dy) with n.2.
  destruct ((0 <? n.2) && (n.2 <? size - 1) && (0 <? n.1) && (n.1 <? size - 1))
    eqn:Hbounds; cbn [andb]; [|by apply IH].
  pose proof (lattice_move _ _ _ Hc Hd Hbounds) as Hn. fold n in Hn.
  destruct (isWall (cellAt m n.1 n.2)) eqn:Hwall; [|by apply IH].
  destruct (carve_between _ _ _ _ Hc Hd Hn)
    as (Hmid_in & Hadj1 & Hadj2 & Hmid_n & Hmid_c & Hmid_lat).
  fold n in Hmid_in, Hadj1, Hadj2, Hmid_n, Hmid_c, Hmid_lat.
  set (mid := (n.1 - dx / 2, n.2 - dy / 2)) in *.
  change (n.1 - dx / 2) with mid.1. change (n.2 - dy / 2) with mid.2.
  set (m2 := setCell m mid.1 mid.2 Path) in *.
  assert (Hsq2 : squareOf size m2) by by apply squareOf_setCell.
  assert (Hcount2 : (countWalls m2 ≤ countWalls m)%nat).
  { apply countWalls_setCell_le; [done|]. by eapply cellAt_inside. }
  assert (Hwall2 : cellAt m2 n.1 n.2 = Some Wall).
  { unfold m2. rewrite cellAt_setCell_ne.
    - destruct (cellAt m n.1 n.2) as [[]|]; done.
    - intros Heq. apply Hmid_n. destruct mid, n; simpl in *. by simplify_eq. }
  pose proof (countWalls_setCell m2 n.1 n.2 Path Wall Hwall2) as Hdec.
  unfold wallWeight in Hdec. repeat case_decide; try done.
  destruct (Htotal m2 n r Hsq2 Hn) as [[m3 r3] Hrec]; [lia|].
  rewrite Hrec.
  destruct (Hpost _ _ _ _ _ Hsq2 Hn Hrec) as (Hsq3 & _ & _ & _ & _ & _ & Hcount3).
  apply IH; [done|lia].
Qed.

Lemma carve_total size fuel : ∀ m c r,
  squareOf size m → lattice size c →
  (countWalls (setCell m c.1 c.2 Path) < fuel)%nat →
  is_Some (carve fuel size m c.1 c.2 r).
Proof.
  induction fuel as [|fuel IH]; intros m c r Hsq Hc Hcount; [lia|].
  simpl. destruct (shuffle carveDirections r) as [dirs r1] eqn:Hsh.
  apply (carveLoop_total size (carve fuel size) fuel); auto.
  - apply carve_spec.
  - intros d Hd. rewrite <- (elem_of_shuffle carveDirections r d). by rewrite Hsh.
  - by apply squareOf_setCell.
  - lia.
Qed.

(** ** The generated grid *)

Lemma countWalls_square size m :
  0 ≤ size → squareOf size m → (countWalls m ≤ Z.to_nat (size * size))%nat.
Proof.
  intros Hsize [Hlen Hrows]. unfold countWalls.
  assert (H : (sum_list ((λ row, length (filter (λ c, c = Wall) row)) <$> m)
               ≤ length m * Z.to_nat size)%nat).
  { clear Hlen. induction Hrows as [|row m Hrow _ IH]; csimpl; [lia|].
    pose proof (length_filter (λ c, c = Wall) row). lia. }
  rewrite Hlen in H. rewrite Z2Nat.inj_mul by lia. lia.
Qed.

Lemma nonWall_blankMaze size p : nonWall (blankMaze size) p = false.
Proof.
  unfold nonWall. destruct (cellAt _ _ _) as [c|] eqn:Hc; [|done].
  by apply cellAt_blankMaze in Hc as ->.
Qed.

(** A set of open lattice cells that holds (1,1) and is closed under
    lattice steps is the whole lattice. *)
Lemma lattice_all_open size m :
  nonWall m (1, 1) = true →
  (∀ p, lattice size p → nonWall m p = true → closedAt size m p) →
  ∀ p, lattice size p → nonWall m p = true.
Proof.
  intros H11 Hclosed.
  assert (Hrow : ∀ i : nat, lattice size (2 * Z.of_nat i + 1, 1) →
                           nonWall m (2 * Z.of_nat i + 1, 1) = true).
  { induction i as [|i IH]; intros Hlat; [done|].
    assert (Hprev : lattice size (2 * Z.of_nat i + 1, 1)).
    { destruct Hlat as (? & ? & Hx & ?); simpl in *.
      repeat split; simpl; try lia.
      rewrite Z.add_comm, Z.odd_add_mul_2. done. }
    specialize (Hclosed _ Hprev (IH Hprev) (2, 0)).
    unfold move in Hclosed; simpl in Hclosed.
    replace (2 * Z.of_nat (S i) + 1) with (2 * Z.of_nat i + 1 + 2) by lia.
    replace (1 + 0) with 1 in Hclosed by lia.
    apply Hclosed.
    - unfold carveDirections. rewrite !elem_of_cons. tauto.
    - replace (2 * Z.of_nat i + 1 + 2) with (2 * Z.of_nat (S i) + 1) by lia. done. }
  assert (Hcol : ∀ (i j : nat), lattice size (2 * Z.of_nat i + 1, 2 * Z.of_nat j + 1) →
                           nonWall m (2 * Z.of_nat i + 1, 2 * Z.of_nat j + 1) = true).
  { intros i. induction j as [|j IH]; intros Hlat.
    - apply Hrow. destruct Hlat as (? & ? & ? & ?); simpl in *.
      repeat split; simpl; try done; lia.
    - assert (Hprev : lattice size (2 * Z.of_nat i + 1, 2 * Z.of_nat j + 1)).
      { destruct Hlat as (? & ? & Hx & ?); simpl in *.
        repeat split; simpl; try lia; try done.
        rewrite Z.add_comm, Z.odd_add_mul_2. done. }
      specialize (Hclosed _ Hprev (IH Hprev) (0, 2)).
      unfold move in Hclosed; simpl in Hclosed.
      replace (2 * Z.of_nat (S j) + 1) with (2 * Z.of_nat j + 1 + 2) by lia.
      replace (2 * Z.of_nat i + 1 + 0) with (2 * Z.of_nat i + 1) in Hclosed by lia.
      apply Hclosed.
      + unfold carveDirections. rewrite !elem_of_cons. tauto.
      + replace (2 * Z.of_nat j + 1 + 2) with (2 * Z.of_nat (S j) + 1) by lia. done. }
  intros [x y] Hlat.
  pose proof Hlat as (? & ? & Hx & Hy); simpl in *.
  rewrite (Zdiv2_odd_eqn x), (Zdiv2_odd_eqn y), Hx, Hy in Hlat |- *.
  rewrite <- (Z2Nat.id (Z.div2 x)), <- (Z2Nat.id (Z.div2 y)) in Hlat |- *.
  - by apply Hcol.
  - rewrite Z.div2_div. apply Z.div_pos; lia.
  - rewrite Z.div2_div. apply Z.div_pos; lia.
  - rewrite Z.div2_div. apply Z.div_pos; lia.
  - rewrite Z.div2_div. apply Z.div_pos; lia.
Qed.

(** The wall-removal pass opens nothing but flanked wall cells. *)
Lemma removeWallAt_cases size m rx ry :
  squareOf size m →
  removeWallAt size m rx ry = m
  ∨ (flanked m rx ry ∧ removeWallAt size m rx ry = setCell m rx ry Path).
Proof.
  intros Hsq. unfold removeWallAt.
  destruct (isWall (cellAt m rx ry)) eqn:Hwall; [|by left].
  assert (Hcell : cellAt m rx ry = Some Wall)
    by (destruct (cellAt m rx ry) as [[]|]; done).
  destruct (cellAt_Some_inside _ _ _ _ _ Hsq Hcell) as [Hx Hy]; simpl in *.
  match goal with |- context [if ?b then _ else _] => destruct b eqn:Hflank end;
    [right|by left].
  split; [|done]. split; [done|].
  apply orb_true_iff in Hflank as [H|H]; [left|right];
    repeat (apply andb_true_iff in H as [H ?]);
    rewrite !(nonWall_false_isWall size) by (done || (unfold inside; simpl; lia));
    done.
Qed.

Lemma carved_setCell_flanked size m x y :
  carved size m → flanked m x y → carved size (setCell m x y Path).
Proof.
  intros (Hsq & Hlat & Hconn & Hcells) [Hwall Hflank].
  assert (Hmono : ∀ p, nonWall m p = true → nonWall (setCell m x y Path) p = true)
    by (intros; by apply nonWall_setCell).
  assert (Hhere : nonWall (setCell m x y Path) (x, y) = true)
    by (apply nonWall_setCell_here; [done|by eexists]).
  split; [by apply squareOf_setCell|]. split; [by auto|]. split.
  - intros p Hp. destruct (decide (p = (x, y))) as [->|Hne].
    + assert (∃ q, nonWall m q = true ∧ adjacent q (x, y)) as (q & Hq & Hadj).
      { destruct Hflank as [[H _]|[H _]]; eexists; (split; [exact H|]);
          unfold adjacent; simpl; lia. }
      eapply connected_step; [|exact Hadj|exact Hhere].
      eapply connected_mono; [exact Hmono|]. by apply Hconn.
    + eapply connected_mono; [exact Hmono|]. apply Hconn.
      unfold nonWall in Hp |- *. rewrite cellAt_setCell_ne in Hp; [done|].
      destruct p; simpl in *; congruence.
  - intros x' y' c. rewrite cellAt_setCell. case_decide; [|by apply Hcells].
    intros [= <-]. by right.
Qed.

Lemma carved_removeWalls size n : ∀ m r,
  carved size m → carved size (removeWalls n size m r).1.
Proof.
  induction n as [|n IH]; intros m r Hm; [done|].
  simpl. destruct (randInt _ r) as [a r1]. destruct (randInt _ r1) as [b r2].
  apply IH.
  destruct (removeWallAt_cases size m (Z.of_nat a + 1) (Z.of_nat b + 1))
    as [->|[Hflank ->]]; [by destruct Hm|done|].
  by apply carved_setCell_flanked.
Qed.

Lemma mazeSize_bounds level :
  1 ≤ level → 7 ≤ mazeSize level ≤ 65 ∧ Z.odd (mazeSize level) = true.
Proof.
  intros Hl. unfold mazeSize. split; [lia|].
  rewrite Z.mul_comm, Z.odd_add_mul_2. done.
Qed.

Lemma carved_of_carve size r m r' :
  5 ≤ size → Z.odd size = true →
  carve (carveFuel size) size (blankMaze size) 1 1 r = Some (m, r') →
  carved size m.
Proof.
  intros Hsize Hodd Hrun.
  assert (H11 : lattice size (1, 1)) by (repeat split; simpl; try done; lia).
  destruct (carve_spec size _ _ (1, 1) _ _ _ (squareOf_blankMaze size) H11 Hrun)
    as (Hsq & _ & Hopen & Hconn & Hclosed & Hpath & _).
  split; [done|]. split; [|split].
  - apply (lattice_all_open size); [done|].
    intros p Hp Hnw. apply Hclosed; [done..|].
    right. apply nonWall_blankMaze.
  - intros p Hp. destruct (Hconn p Hp) as [Hb|?]; [|done].
    by rewrite nonWall_blankMaze in Hb.
  - intros x y c Hc. destruct (Hpath _ _ _ Hc) as [->|Hb]; [by right|].
    left. by eapply cellAt_blankMaze.
Qed.

Lemma carve_blank_total size r :
  5 ≤ size → is_Some (carve (carveFuel size) size (blankMaze size) 1 1 r).
Proof.
  intros Hsize.
  apply (carve_total size _ _ (1, 1)).
  - apply squareOf_blankMaze.
  - repeat split; simpl; try done; lia.
  - unfold carveFuel.
    pose proof (countWalls_square size _ ltac:(lia)
                  (squareOf_setCell size _ 1 1 Path (squareOf_blankMaze size))).
    simpl. lia.
Qed.

Lemma generated_of_carved size m :
  5 ≤ size → Z.odd size = true → carved size m →
  generated size (setCell (setCell m 1 1 Start) (size - 2) (size - 2) Exit).
Proof.
  intros Hsize Hodd (Hsq & Hlat & Hconn & Hcells).
  assert (H11 : lattice size (1, 1)) by (repeat split; simpl; try done; lia).
  assert (Hex : lattice size (size - 2, size - 2)).
  { repeat split; simpl; try lia; by rewrite Z.odd_sub, Hodd. }
  assert (Hne : (1, 1) ≠ (size - 2, size - 2)) by (intros [= ?]; lia).
  set (m1 := setCell m 1 1 Start).
  set (g := setCell m1 (size - 2) (size - 2) Exit).
  assert (Hsq1 : squareOf size m1) by by apply squareOf_setCell.
  assert (Hsame : ∀ p, nonWall g p = nonWall m p).
  { intros [x y]. unfold nonWall, g, m1; simpl. rewrite !cellAt_setCell.
    repeat case_decide; destruct_and?; simplify_eq; simpl.
    - symmetry. apply (Hlat (size - 2, size - 2) Hex).
    - symmetry. apply (Hlat (1, 1) H11).
    - done. }
  split; [by apply squareOf_setCell|]. split; [|split; [|split; [|split]]].
  - unfold g. rewrite cellAt_setCell_ne by done.
    destruct (cellAt_inside size m 1 1 Hsq) as [c Hc]; [by apply lattice_inside|].
    unfold m1. by eapply cellAt_setCell_eq.
  - destruct (cellAt_inside size m1 (size - 2) (size - 2) Hsq1) as [c Hc];
      [by apply lattice_inside|].
    unfold g. by eapply cellAt_setCell_eq.
  - intros x y c Hc H1 H2. unfold g, m1 in Hc.
    rewrite !cellAt_setCell_ne in Hc by done. by eapply Hcells.
  - intros p Hp. rewrite Hsame. by apply Hlat.
  - intros p Hp. rewrite Hsame in Hp.
    eapply connected_mono; [|by apply Hconn].
    intros q. by rewrite Hsame.
Qed.

Lemma generateMaze_generated level r :
  1 ≤ level →
  ∃ g r', generateMaze level r = Some (g, r') ∧ generated (mazeSize level) g.
Proof.
  intros Hl. destruct (mazeSize_bounds level Hl) as [Hsize Hodd].
  unfold generateMaze. fold (mazeSize level).
  destruct (carve_blank_total (mazeSize level) r) as [[m r1] Hrun]; [lia|].
  rewrite Hrun.
  assert (Hcarved : carved (mazeSize level) m)
    by (eapply carved_of_carve; [|done|exact Hrun]; lia).
  pose proof (carved_removeWalls (mazeSize level)
                (removalIterations (mazeSize level) level) m r1 Hcarved) as Hrem.
  destruct (removeWalls _ _ m r1) as [m2 r2]. simpl in Hrem.
  eexists _, _. split; [done|].
  apply generated_of_carved; [lia|done..].
Qed.

(** ** Entity placement *)

Lemma randInt_lt n r : (0 < n)%nat → ((randInt n r).1 < n)%nat.
Proof.
  intros Hn. destruct r as [|k r]; simpl; [done|].
  apply Nat.mod_upper_bound. lia.
Qed.

Lemma pickCells_submseteq count : ∀ cells r, (pickCells count cells r).1 ⊆+ cells.
Proof.
  induction count as [|count IH]; intros cells r; simpl.
  { apply submseteq_nil_l. }
  destruct (0 <? length cells)%nat; [|apply submseteq_nil_l].
  destruct (randInt (length cells) r) as [i r1].
  destruct (cells !! i) as [p|] eqn:Hp; [|apply submseteq_nil_l].
  specialize (IH (delete i cells) r1).
  destruct (pickCells count (delete i cells) r1) as [rest r2]. simpl in *.
  rewrite (delete_Permutation cells i p Hp).
  by apply submseteq_skip.
Qed.

Lemma pickCells_length count : ∀ cells r,
  length (pickCells count cells r).1 = (count `min` length cells)%nat.
Proof.
  induction count as [|count IH]; intros cells r; [done|].
  cbn [pickCells].
  destruct (0 <? length cells)%nat eqn:Hlen;
    [|apply Nat.ltb_ge in Hlen; cbn [fst length]; lia].
  apply Nat.ltb_lt in Hlen.
  pose proof (randInt_lt (length cells) r Hlen) as Hlt.
  destruct (randInt (length cells) r) as [i r1]. simpl in Hlt.
  destruct (lookup_lt_is_Some_2 cells i Hlt) as [p Hp]. rewrite Hp.
  specialize (IH (delete i cells) r1).
  destruct (pickCells count (delete i cells) r1) as [rest r2].
  cbn [fst length] in *.
  rewrite IH, length_delete by eauto. lia.
Qed.

Lemma elem_of_pickCells count cells r p :
  p ∈ (pickCells count cells r).1 → p ∈ cells.
Proof.
  intros Hp. eapply elem_of_submseteq; [exact Hp|apply pickCells_submseteq].
Qed.

Lemma NoDup_pickCells count cells r :
  NoDup cells → NoDup (pickCells count cells r).1.
Proof.
  intros Hnd.
  destruct (submseteq_Permutation _ _ (pickCells_submseteq count cells r)) as [k Hk].
  rewrite Hk in Hnd. by apply NoDup_app in Hnd as [? _].
Qed.

Lemma elem_of_rowCells keep y width p :
  p ∈ rowCells keep y width ↔ p.2 = y ∧ 0 ≤ p.1 < width ∧ keep p.1 p.2 = true.
Proof.
  unfold rowCells. rewrite list_elem_of_filter, list_elem_of_fmap.
  split.
  - intros [Hk (x & -> & Hx)]. apply elem_of_seqZ in Hx. simpl in *.
    repeat split; try done; lia.
  - intros (<- & Hx & Hk). split; [done|].
    exists p.1. split; [by destruct p|]. apply elem_of_seqZ. lia.
Qed.

Lemma NoDup_rowCells keep y width : NoDup (rowCells keep y width).
Proof.
  unfold rowCells. apply NoDup_filter, NoDup_fmap_2; [|apply NoDup_seqZ].
  intros x1 x2 [= ?]. done.
Qed.

Lemma elem_of_scanCells height width keep p :
  p ∈ scanCells height width keep
  ↔ 0 ≤ p.2 < height ∧ 0 ≤ p.1 < width p.2 ∧ keep p.1 p.2 = true.
Proof.
  unfold scanCells. rewrite list_elem_of_join. split.
  - intros (row & Hp & Hrow). apply list_elem_of_fmap in Hrow as (y & -> & Hy).
    apply elem_of_seqZ in Hy. apply elem_of_rowCells in Hp as (<- & ? & ?).
    repeat split; try done; lia.
  - intros (Hy & Hx & Hk). exists (rowCells keep p.2 (width p.2)). split.
    + by apply elem_of_rowCells.
    + apply list_elem_of_fmap. exists p.2. split; [done|].
      apply elem_of_seqZ. lia.
Qed.

Lemma NoDup_scanRows keep width (ys : list Z) :
  NoDup ys → NoDup (mjoin ((λ y, rowCells keep y (width y)) <$> ys)).
Proof.
  induction 1 as [|y ys Hy Hys IH]; csimpl; [apply NoDup_nil_2|].
  apply NoDup_app. split; [apply NoDup_rowCells|]. split; [|done].
  intros p Hp Hin. apply elem_of_rowCells in Hp as [Hpy _].
  apply list_elem_of_join in Hin as (row & Hprow & Hrow).
  apply list_elem_of_fmap in Hrow as (y' & -> & Hy').
  apply elem_of_rowCells in Hprow as [Hpy' _]. congruence.
Qed.

Lemma NoDup_scanCells height width keep : NoDup (scanCells height width keep).
Proof. apply NoDup_scanRows, NoDup_seqZ. Qed.

Lemma posEqb_eq p q : posEqb p q = true ↔ p = q.
Proof.
  unfold posEqb. destruct p, q; simpl.
  rewrite andb_true_iff, !Z.eqb_eq. split; [intros [-> ->]|intros [= -> ->]]; done.
Qed.

Lemma posEqb_refl p : posEqb p p = true.
Proof. by apply posEqb_eq. Qed.

Lemma posEqb_neq p q : posEqb p q = false ↔ p ≠ q.
Proof.
  rewrite <- posEqb_eq. destruct (posEqb p q); split; congruence.
Qed.

Lemma existsb_posEqb_l p (l : list Pos) :
  existsb (λ q, posEqb q p) l = true ↔ p ∈ l.
Proof.
  rewrite existsb_exists. split.
  - intros (q & Hq & ->%posEqb_eq). by apply list_elem_of_In.
  - intros Hp. exists p. split; [by apply list_elem_of_In|apply posEqb_refl].
Qed.

Lemma existsb_posEqb_r p (l : list Pos) :
  existsb (λ q, posEqb p q) l = true ↔ p ∈ l.
Proof.
  rewrite existsb_exists. split.
  - intros (q & Hq & <-%posEqb_eq). by apply list_elem_of_In.
  - intros Hp. exists p. split; [by apply list_elem_of_In|apply posEqb_refl].
Qed.

Lemma isPath_Some v : isPath v = true ↔ v = Some Path.
Proof. destruct v as [[]|]; simpl; split; congruence. Qed.

(** Whatever is picked from a scan whose filter asks for [' '] lies on a
    path cell, and no more than [count] cells are picked. *)
Lemma pickCells_scan mz count height width keep r :
  (∀ x y, keep x y = true → isPath (cellAt mz x y) = true) →
  let picked := (pickCells count (scanCells height width keep) r).1 in
  Forall (λ p, cellAt mz p.1 p.2 = Some Path) picked
  ∧ (length picked ≤ count)%nat
  ∧ NoDup picked.
Proof.
  intros Hkeep picked. split; [|split].
  - apply Forall_forall. intros p Hp.
    apply elem_of_pickCells, elem_of_scanCells in Hp as (_ & _ & Hk).
    by apply isPath_Some, Hkeep.
  - unfold picked. rewrite pickCells_length. lia.
  - apply NoDup_pickCells, NoDup_scanCells.
Qed.

Lemma spawnEnemies_spec lvl mz g r :
  let picked := enemies (spawnEnemies lvl mz g r).1 in
  Forall (λ p, cellAt mz p.1 p.2 = Some Path) picked
  ∧ Z.of_nat (length picked) ≤ (if lvl <? 15 then 0 else Z.min 4 ((lvl - 15) / 2 + 1)).
Proof.
  unfold spawnEnemies. destruct (lvl <? 15) eqn:Hl; [by split|].
  match goal with |- context [pickCells ?c (scanCells ?h ?w ?k) r] =>
    pose proof (pickCells_scan mz c h w k r) as H;
    destruct (pickCells c (scanCells h w k) r) as [picked r'] end.
  simpl in *. destruct H as (Hpath & Hlen & _).
  { intros x y Hk. by apply andb_true_iff in Hk as [? _]. }
  split; [done|]. unfold enemyCount in Hlen.
  assert (0 ≤ (lvl - 15) / 2) by (apply Z.div_pos; lia). lia.
Qed.

Lemma spawnRegenerateIcons_spec lvl mz g r :
  let picked := regenerateIconPositions (spawnRegenerateIcons lvl mz g r).1 in
  Forall (λ p, cellAt mz p.1 p.2 = Some Path) picked
  ∧ Z.of_nat (length picked) ≤ (if lvl <? 10 then 0 else 5).
Proof.
  unfold spawnRegenerateIcons. destruct (lvl <? 10) eqn:Hl; [by split|].
  destruct (randInt 2 r) as [coin r1].
  match goal with |- context [pickCells ?c (scanCells ?h ?w ?k) r1] =>
    pose proof (pickCells_scan mz c h w k r1) as H;
    destruct (pickCells c (scanCells h w k) r1) as [picked r'] end.
  simpl in *. destruct H as (Hpath & Hlen & _).
  { intros x y Hk. by repeat (apply andb_true_iff in Hk as [Hk _]). }
  split; [done|]. destruct (coin =? 0)%nat; lia.
Qed.

Lemma spawnTeleporters_spec lvl mz g r :
  let picked := teleporterPositions (spawnTeleporters lvl mz g r).1 in
  Forall (λ p, cellAt mz p.1 p.2 = Some Path) picked
  ∧ Z.of_nat (length picked) ≤ (if lvl <? 20 then 0 else Z.min 14 (2 + (lvl - 20) / 4 * 2))
  ∧ NoDup picked.
Proof.
  unfold spawnTeleporters. destruct (lvl <? 20) eqn:Hl.
  { simpl. split; [done|]. split; [done|]. apply NoDup_nil_2. }
  match goal with |- context [pickCells ?c (scanCells ?h ?w ?k) r] =>
    pose proof (pickCells_scan mz c h w k r) as H;
    destruct (pickCells c (scanCells h w k) r) as [picked r'] end.
  simpl in *. destruct H as (Hpath & Hlen & Hnd).
  { intros x y Hk. by repeat (apply andb_true_iff in Hk as [Hk _]). }
  split; [done|]. split; [|done]. unfold teleporterCount in Hlen.
  assert (0 ≤ (lvl - 20) / 4) by (apply Z.div_pos; lia). lia.
Qed.

Lemma spawnStalkers_spec lvl mz g r :
  let picked := stalkers (spawnStalkers lvl mz g r).1 in
  Forall (λ p, cellAt mz p.1 p.2 = Some Path) picked
  ∧ Z.of_nat (length picked) ≤ (if lvl <? 25 then 0 else 1).
Proof.
  unfold spawnStalkers. destruct (lvl <? 25) eqn:Hl; [by split|].
  match goal with |- context [pickCells ?c (scanCells ?h ?w ?k) r] =>
    pose proof (pickCells_scan mz c h w k r) as H;
    destruct (pickCells c (scanCells h w k) r) as [picked r'] end.
  simpl in *. destruct H as (Hpath & Hlen & _).
  { intros x y Hk. by apply andb_true_iff in Hk as [? _]. }
  split; [done|]. unfold stalkerCount in Hlen. lia.
Qed.

(** ** Loading a level *)

Lemma mazeHeight_square size m : 0 ≤ size → squareOf size m → mazeHeight m = size.
Proof. intros ? [Hlen _]. unfold mazeHeight. lia. Qed.

Lemma rowWidth_square size m y :
  squareOf size m → 0 ≤ y < size → rowWidth m y = size.
Proof.
  intros Hsq Hy. unfold rowWidth.
  destruct (lookup_lt_is_Some_2 m (Z.to_nat y)) as [row Hrow].
  { destruct Hsq as [-> _]. lia. }
  rewrite Hrow, (squareOf_row _ _ _ _ Hsq Hrow). lia.
Qed.

Lemma levelGrid_of_generated size g :
  generated size g → levelGrid size (1, 1) g.
Proof.
  intros (Hsq & Hs & He & Hcells & Hlat & _).
  split; [done|]. split; [done|]. split; [done|].
  intros x y c Hc H1 H2. by eapply Hcells.
Qed.

Lemma findStart_generated size g :
  7 ≤ size → generated size g → findStart g = Some (1, 1).
Proof.
  intros Hsize (Hsq & Hs & He & Hcells & _). unfold findStart.
  set (l := scanCells _ _ _).
  assert (Hall : ∀ p, p ∈ l → p = (1, 1)).
  { intros [x y] (_ & _ & Hk)%elem_of_scanCells. simpl in Hk.
    destruct (cellAt g x y) as [c|] eqn:Hc; [|done].
    destruct (decide ((x, y) = (1, 1))) as [|H1]; [done|].
    destruct (decide ((x, y) = (size - 2, size - 2))) as [[= -> ->]|H2].
    - rewrite He in Hc. by simplify_eq.
    - destruct (Hcells _ _ _ Hc H1 H2) as [->| ->]; done. }
  assert (Hin : (1, 1) ∈ l).
  { apply elem_of_scanCells. simpl.
    rewrite (mazeHeight_square size), (rowWidth_square size) by (done || lia).
    rewrite Hs. repeat split; try done; lia. }
  destruct l as [|p l']; [by apply elem_of_nil in Hin|].
  simpl. f_equal. apply Hall. left.
Qed.

(** ** Counting the cells that can host a teleporter *)

Lemma length_filter_ne (a : Pos) (l : list Pos) :
  NoDup l → (length l ≤ S (length (filter (λ p, p ≠ a) l)))%nat.
Proof.
  induction 1 as [|x l Hx Hl IH]; [simpl; lia|].
  rewrite filter_cons. case_decide as Hd; simpl; [lia|].
  subst x.
  assert (filter (λ p, p ≠ a) l = l) as ->; [|lia].
  clear IH Hl. induction l as [|y l IH]; [done|].
  apply not_elem_of_cons in Hx as [Hne Hx].
  rewrite filter_cons_True by done. f_equal. by apply IH.
Qed.

Lemma length_filter_notin (R l : list Pos) :
  NoDup l → (length l ≤ length R + length (filter (λ p, p ∉ R) l))%nat.
Proof.
  revert l. induction R as [|a R IH]; intros l Hl.
  - assert (filter (λ p, p ∉ []) l = l) as ->; [|simpl; lia].
    induction l as [|y l IHl]; [done|].
    rewrite filter_cons_True by apply not_elem_of_nil.
    f_equal. apply IHl. by apply NoDup_cons_1_2 in Hl.
  - assert (Heq : filter (λ p, p ∉ a :: R) l
                  = filter (λ p, p ≠ a) (filter (λ p, p ∉ R) l)).
    { clear. induction l as [|y l IHl]; [done|].
      rewrite !filter_cons.
      destruct (decide (y ∉ a :: R)) as [Hy|Hy], (decide (y ∉ R)) as [Hy'|Hy'].
      - rewrite filter_cons_True; [by f_equal|].
        apply not_elem_of_cons in Hy. tauto.
      - apply not_elem_of_cons in Hy. tauto.
      - rewrite filter_cons_False; [done|].
        intros Hne. apply Hy, not_elem_of_cons. done.
      - done. }
    rewrite Heq.
    pose proof (IH l Hl).
    pose proof (length_filter_ne a (filter (λ p, p ∉ R) l) (NoDup_filter _ _ Hl)).
    simpl. lia.
Qed.

Lemma NoDup_rowOne : NoDup rowOne.
Proof.
  apply NoDup_fmap_2; [|apply NoDup_seqZ]. intros i j [= ?]. lia.
Qed.

Lemma rowOne_lattice size p : 45 ≤ size → p ∈ rowOne → lattice size p ∧ p.2 = 1.
Proof.
  intros Hsize (i & -> & Hi)%list_elem_of_fmap. apply elem_of_seqZ in Hi.
  repeat split; simpl; try lia.
  rewrite Z.add_comm, Z.odd_add_mul_2. done.
Qed.

Lemma teleporterCount_even lvl :
  20 ≤ lvl → Nat.Even (Z.to_nat (teleporterCount lvl))
             ∧ (Z.to_nat (teleporterCount lvl) ≤ 14)%nat.
Proof.
  intros Hl. unfold teleporterCount.
  assert (Hk : 0 ≤ (lvl - 20) / 4) by (apply Z.div_pos; lia).
  set (k := (lvl - 20) / 4) in *. split; [|lia].
  exists (Z.to_nat (Z.min 7 (1 + k))). lia.
Qed.

Lemma teleporter_cells lvl mz start regen :
  20 ≤ lvl → levelGrid (mazeSize lvl) start mz → (length regen ≤ 5)%nat →
  let size := mazeHeight mz in
  let cells :=
    scanCells size (λ _, size)
      (λ x y, isPath (cellAt mz x y)
              && negb (posEqb (x, y) start)
              && negb (posEqb (x, y) (size - 2, size - 2))
              && negb (existsb (λ p, posEqb p (x, y)) regen)) in
  (14 ≤ length cells)%nat.
Proof.
  intros Hl (Hsq & Hstart & Hlat & Hcells) Hregen.
  assert (Hsize : 45 ≤ mazeSize lvl) by (unfold mazeSize; lia).
  rewrite (mazeHeight_square (mazeSize lvl)) by (done || lia).
  set (size := mazeSize lvl) in *. simpl.
  set (cells := scanCells _ _ _).
  set (hosts := filter (λ p, p ∉ start :: regen) rowOne).
  assert (Hhosts : (15 ≤ length hosts)%nat).
  { pose proof (length_filter_notin (start :: regen) rowOne NoDup_rowOne) as H.
    unfold rowOne in H at 1. rewrite length_fmap, length_seqZ in H.
    simpl in H. unfold hosts. lia. }
  assert (Hsub : hosts ⊆+ cells).
  { apply NoDup_submseteq; [apply NoDup_filter, NoDup_rowOne|].
    intros [x y] [Hnot Hrow]%list_elem_of_filter.
    apply not_elem_of_cons in Hnot as [Hns Hnr].
    destruct (rowOne_lattice size _ Hsize Hrow) as [Hp Hy]. simpl in Hy. subst y.
    apply elem_of_scanCells. simpl.
    pose proof (lattice_inside _ _ Hp) as [? ?]. simpl in *.
    split; [lia|]. split; [lia|].
    pose proof (Hlat _ Hp) as Hopen. unfold nonWall in Hopen. simpl in Hopen.
    destruct (cellAt mz x 1) as [c|] eqn:Hc; [|done].
    destruct (Hcells _ _ _ Hc) as [->| ->]; try done.
    { unfold exitPosition. intros [= ? ?]. lia. }
    simpl. rewrite !andb_true_iff, !negb_true_iff. repeat split.
    - by apply posEqb_neq.
    - apply posEqb_neq. intros [= ? ?]. lia.
    - apply not_true_is_false. by rewrite existsb_posEqb_l. }
  apply submseteq_length in Hsub. lia.
Qed.

Lemma spawnTeleporters_even lvl mz g r :
  1 ≤ lvl → levelGrid (mazeSize lvl) (startPosition g) mz →
  (length (regenerateIconPositions g) ≤ 5)%nat →
  Nat.Even (length (teleporterPositions (spawnTeleporters lvl mz g r).1)).
Proof.
  intros Hl Hgrid Hregen. unfold spawnTeleporters.
  destruct (lvl <? 20) eqn:H20; [by exists 0%nat|].
  apply Z.ltb_ge in H20.
  pose proof (teleporter_cells lvl mz _ _ H20 Hgrid Hregen) as Hcells.
  simpl in Hcells.
  match goal with |- context [pickCells ?c ?cells r] =>
    pose proof (pickCells_length c cells r) as Hlen;
    destruct (pickCells c cells r) as [picked r'] end.
  simpl in *.
  destruct (teleporterCount_even lvl H20) as [Heven Hle].
  rewrite Hlen, Nat.min_l by lia. done.
Qed.

(** ** The placement functions write one field each *)

Lemma spawnEnemies_set lvl mz g r :
  ∃ picked r', spawnEnemies lvl mz g r = (setEnemies picked g, r').
Proof.
  unfold spawnEnemies. destruct (lvl <? 15); [by eexists _, _|].
  destruct (pickCells _ _ r). by eexists _, _.
Qed.

Lemma spawnRegenerateIcons_set lvl mz g r :
  ∃ picked r', spawnRegenerateIcons lvl mz g r = (setRegenerateIconPositions picked g, r')
               ∧ (length picked ≤ 5)%nat ∧ Forall (onPath mz) picked.
Proof.
  pose proof (spawnRegenerateIcons_spec lvl mz g r) as H. revert H.
  unfold spawnRegenerateIcons. destruct (lvl <? 10).
  { intros _. eexists _, _. split; [done|]. simpl. split; [lia|done]. }
  destruct (randInt 2 r) as [coin r1]. destruct (pickCells _ _ r1) as [picked r'].
  simpl. intros [Hpath Hlen]. eexists _, _. split; [done|]. split; [lia|done].
Qed.

Lemma spawnTeleporters_set lvl mz g r :
  ∃ picked r', spawnTeleporters lvl mz g r = (setTeleporterPositions picked g, r')
               ∧ picked = teleporterPositions (spawnTeleporters lvl mz g r).1.
Proof.
  unfold spawnTeleporters. destruct (lvl <? 20); [by eexists _, _|].
  destruct (pickCells _ _ r). by eexists _, _.
Qed.

Lemma spawnStalkers_set lvl mz g r :
  ∃ picked r', spawnStalkers lvl mz g r = (setStalkers picked g, r').
Proof.
  unfold spawnStalkers. destruct (lvl <? 25); [by eexists _, _|].
  destruct (pickCells _ _ r). by eexists _, _.
Qed.

Lemma nonWall_of_Path mz (p : Pos) :
  cellAt mz p.1 p.2 = Some Path → nonWall mz p = true.
Proof. unfold nonWall. by intros ->. Qed.

(** The four placements in the order of [loadLevel] and of
    [regenerateMazeFromPlayerPosition], on a grid that is already in
    place. *)
Lemma spawnAll_wellFormed lvl mz g r :
  maze g = mz →
  wellFormedAt lvl (setTeleporterPositions [] (setRegenerateIconPositions [] g)) →
  ∃ es r1 icons r2 ts r3 ss r4,
    let g1 := setEnemies es g in
    let g2 := setRegenerateIconPositions icons g1 in
    let g3 := setTeleporterPositions ts g2 in
    let g4 := setStalkers ss g3 in
    spawnEnemies lvl mz g r = (g1, r1)
    ∧ spawnRegenerateIcons lvl mz g1 r1 = (g2, r2)
    ∧ spawnTeleporters lvl mz g2 r2 = (g3, r3)
    ∧ spawnStalkers lvl mz g3 r3 = (g4, r4)
    ∧ wellFormedAt lvl g4.
Proof.
  intros Hmz (Hl & Hgrid & Hplayer & _). simpl in *.
  destruct (spawnEnemies_set lvl mz g r) as (es & r1 & He).
  destruct (spawnRegenerateIcons_set lvl mz (setEnemies es g) r1)
    as (icons & r2 & Hi & Hicons & Hipath).
  set (g2 := setRegenerateIconPositions icons (setEnemies es g)) in *.
  pose proof (spawnTeleporters_spec lvl mz g2 r2) as (Hpath & _ & Hnd).
  assert (Heven : Nat.Even (length (teleporterPositions (spawnTeleporters lvl mz g2 r2).1))).
  { apply spawnTeleporters_even; [lia| |done].
    subst mz. exact Hgrid. }
  destruct (spawnTeleporters_set lvl mz g2 r2) as (ts & r3 & Ht & Hts).
  rewrite <- Hts in Hpath, Hnd, Heven.
  destruct (spawnStalkers_set lvl mz (setTeleporterPositions ts g2) r3)
    as (ss & r4 & Hs).
  exists es, r1, icons, r2, ts, r3, ss, r4.
  split; [done|]. split; [done|]. split; [done|]. split; [done|].
  unfold wellFormedAt; simpl. subst mz.
  split; [done|]. split; [done|]. split; [done|]. split; [done|]. done.
Qed.

Lemma loadLevel_wellFormed lvl g r :
  1 ≤ lvl →
  ∃ g' r', loadLevel lvl g r = Some (g', r') ∧ wellFormedAt lvl g'
           ∧ level g' = level g ∧ playerPosition g' = (1, 1).
Proof.
  intros Hl. unfold loadLevel.
  destruct (randInt 12 r) as [colour r0].
  destruct (generateMaze_generated lvl r0 Hl) as (mz & r1 & -> & Hgen).
  destruct (mazeSize_bounds lvl Hl) as [Hsize Hodd].
  rewrite (findStart_generated (mazeSize lvl)) by (done || lia).
  set (g0 := setPlayerPosition _ _).
  destruct (spawnAll_wellFormed lvl mz g0 r1)
    as (es & r2 & icons & r3 & ts & r4 & ss & r5 & He & Hi & Ht & Hs & Hwf);
    [done..| |].
  { unfold wellFormedAt; simpl.
    split; [done|]. split; [by apply levelGrid_of_generated|].
    split; [|split; [done|split; [done|split; [apply NoDup_nil_2|by exists 0%nat]]]].
    destruct Hgen as (_ & Hs & _). unfold nonWall; simpl. by rewrite Hs. }
  cbv zeta in He, Hi, Ht, Hs, Hwf.
  rewrite He, Hi, Ht, Hs.
  eexists _, _. split; [done|]. split; [done|]. done.
Qed.

(** ** Regeneration *)

Lemma levelGrid_regenerated size g0 cur :
  7 ≤ size → generated size g0 → inside size cur →
  let m1 := if isStart (cellAt g0 1 1) then setCell g0 1 1 Path else g0 in
  let m2 := if isWall (cellAt m1 cur.1 cur.2)
            then setCell m1 cur.1 cur.2 Path else m1 in
  levelGrid size cur (setCell m2 cur.1 cur.2 Start).
Proof.
  intros Hsize (Hsq & Hs & He & Hcells & Hlat & _) Hcur. rewrite Hs. simpl.
  set (m1 := setCell g0 1 1 Path).
  set (m2 := if isWall _ then _ else _).
  assert (Hsq1 : squareOf size m1) by by apply squareOf_setCell.
  assert (Hsq2 : squareOf size m2).
  { unfold m2. destruct (isWall _); [by apply squareOf_setCell|done]. }
  assert (Hmono2 : ∀ p, nonWall g0 p = true → nonWall m2 p = true).
  { intros p Hp. unfold m2.
    destruct (isWall _); [apply nonWall_setCell; [done|]|]; by apply nonWall_setCell. }
  assert (Hcell2 : ∀ x y c, cellAt m2 x y = Some c → (x, y) ≠ cur →
                            (x, y) ≠ exitPosition size → c = Wall ∨ c = Path).
  { intros x y c Hc Hne1 Hne2.
    assert (Hc1 : cellAt m1 x y = Some c).
    { revert Hc. unfold m2. destruct (isWall _); [|done].
      rewrite cellAt_setCell_ne; [done|]. destruct cur; simpl in *; congruence. }
    unfold m1 in Hc1. rewrite cellAt_setCell in Hc1.
    case_decide as Hd; [simplify_eq; by right|].
    eapply Hcells; [done| |done].
    intros [= -> ->]. apply Hd. split; [done|]. by rewrite Hs. }
  split; [by apply squareOf_setCell|]. split; [|split].
  - simpl. destruct (cellAt_inside size m2 cur.1 cur.2 Hsq2) as [c Hc];
      [by destruct cur|].
    by eapply cellAt_setCell_eq.
  - intros p Hp. apply nonWall_setCell; [done|]. by apply Hmono2, Hlat.
  - intros x y c Hc Hne1 Hne2.
    rewrite cellAt_setCell_ne in Hc; [by eapply Hcell2|].
    destruct cur; simpl in *; congruence.
Qed.

Lemma wellFormed_inside g :
  wellFormed g → inside (mazeSize (level g)) (playerPosition g).
Proof.
  intros (_ & (Hsq & _) & Hp & _). by eapply nonWall_inside.
Qed.

(** The grid has a row at the player's [y]: the exit test of
    [checkGameState] does not fail. *)
Lemma wellFormed_row g :
  wellFormed g →
  (0 <=? (playerPosition g).2) && ((playerPosition g).2 <? mazeHeight (maze g)) = true.
Proof.
  intros Hwf. pose proof (wellFormed_inside g Hwf) as [_ Hy].
  destruct Hwf as (Hl & (Hsq & _) & _).
  destruct (mazeSize_bounds _ Hl) as [Hsize _].
  rewrite (mazeHeight_square (mazeSize (level g))) by (done || lia).
  apply andb_true_iff. split; [apply Z.leb_le|apply Z.ltb_lt]; lia.
Qed.

Lemma regenerate_wellFormed g r :
  wellFormed g →
  ∃ g' r', regenerateMazeFromPlayerPosition g r = Some (g', r')
           ∧ wellFormed g'
           ∧ level g' = level g
           ∧ playerPosition g' = playerPosition g
           ∧ startPosition g' = playerPosition g.
Proof.
  intros Hwf. pose proof (wellFormed_inside g Hwf) as Hin.
  destruct Hwf as (Hl & _).
  unfold regenerateMazeFromPlayerPosition.
  destruct (generateMaze_generated (level g) r Hl) as (g0 & r1 & -> & Hgen).
  destruct (mazeSize_bounds _ Hl) as [Hsize Hodd].
  assert (Hsize' : 7 ≤ mazeSize (level g)) by lia.
  pose proof (levelGrid_regenerated _ g0 (playerPosition g) Hsize' Hgen Hin)
    as Hgrid.
  simpl in Hgrid.
  set (mz := setCell _ _ _ Start) in *.
  set (g1 := setStartPosition _ _).
  destruct (spawnAll_wellFormed (level g) mz g1 r1)
    as (es & r2 & icons & r3 & ts & r4 & ss & r5 & He & Hi & Ht & Hs & Hwf);
    [done..| |].
  { unfold wellFormedAt; simpl.
    split; [done|]. split; [done|].
    split; [|split; [done|split; [done|split; [apply NoDup_nil_2|by exists 0%nat]]]].
    destruct Hgrid as (_ & Hstart & _). unfold nonWall. by rewrite Hstart. }
  cbv zeta in He, Hi, Ht, Hs, Hwf.
  change (level g1) with (level g). rewrite He. cbv beta iota.
  change (level (setEnemies es g1)) with (level g). rewrite Hi. cbv beta iota.
  change (level (setRegenerateIconPositions icons (setEnemies es g1)))
    with (level g).
  rewrite Ht. cbv beta iota.
  change (level (setTeleporterPositions ts
                   (setRegenerateIconPositions icons (setEnemies es g1))))
    with (level g).
  rewrite Hs.
  eexists _, _. split; [done|]. split; [done|]. done.
Qed.

(** ** The invariant is kept by every transition *)

Lemma wellFormed_teleport g i dest :
  wellFormed g → teleporterPositions g !! i = Some dest →
  wellFormed (setPlayerPosition dest (setCanTeleport false g)).
Proof.
  intros (Hl & Hgrid & Hp & Hicons & Htp & Hnd & Hev) Hdest.
  unfold wellFormed, wellFormedAt; simpl.
  split; [done|]. split; [done|]. split; [|done].
  rewrite Forall_forall in Htp. apply nonWall_of_Path, Htp.
  eapply list_elem_of_lookup_2; eauto.
Qed.

Lemma reachExit_fields g :
  level (reachExit g) = level g ∧ maze (reachExit g) = maze g
  ∧ playerPosition (reachExit g) = playerPosition g
  ∧ startPosition (reachExit g) = startPosition g
  ∧ regenerateIconPositions (reachExit g) = regenerateIconPositions g
  ∧ teleporterPositions (reachExit g) = teleporterPositions g.
Proof. unfold reachExit. simpl. by destruct (level g =? 30). Qed.

Lemma wellFormed_fields g g' :
  level g' = level g → maze g' = maze g →
  playerPosition g' = playerPosition g → startPosition g' = startPosition g →
  regenerateIconPositions g' = regenerateIconPositions g →
  teleporterPositions g' = teleporterPositions g →
  wellFormed g → wellFormed g'.
Proof. unfold wellFormed, wellFormedAt. by intros -> -> -> -> -> ->. Qed.

Lemma checkGameState_wellFormed g r :
  wellFormed g → ∃ g' r', checkGameState g r = Some (g', r') ∧ wellFormed g'.
Proof.
  intros Hwf. unfold checkGameState.
  destruct (negb _ || playerHit g); [by eexists _, _|].
  destruct (existsb _ (stalkers g)); [by eexists _, _|].
  set (tele := match findIndex _ _ with Some _ => _ | None => _ end).
  assert (Htele : match tele with
                  | inl g' => wellFormed g'
                  | inr g' => g' = g ∨ g' = setCanTeleport false g
                  end).
  { unfold tele. destruct (findIndex _ _) as [i|]; [|by left].
    destruct (canTeleport g); [|by left].
    destruct (_ && _); [|by right].
    destruct (teleporterPositions g !! _) as [dest|] eqn:Hd; [|by right].
    by eapply wellFormed_teleport. }
  destruct tele as [g'|g']; [by eexists _, _|].
  assert (Hwf' : wellFormed g') by (by destruct Htele as [->| ->]).
  destruct (existsb _ (regenerateIconPositions g')).
  { destruct (regenerate_wellFormed g' r Hwf') as (g'' & r' & -> & ? & _).
    by eexists _, _. }
  assert (Hrow : (0 <=? (playerPosition g).2)
                 && ((playerPosition g).2 <? mazeHeight (maze g')) = true)
    by (destruct Htele as [->| ->]; exact (wellFormed_row g Hwf)).
  rewrite Hrow. cbn [negb].
  destruct (isExit _).
  { eexists _, _. split; [done|].
    destruct (reachExit_fields g') as (? & ? & ? & ? & ? & ?).
    by eapply wellFormed_fields. }
  destruct (existsb _ (enemies g')); by eexists _, _.
Qed.

Lemma movePlayer_wellFormed dx dy g r :
  wellFormed g → ∃ g' r', movePlayer dx dy g r = Some (g', r') ∧ wellFormed g'.
Proof.
  intros Hwf. unfold movePlayer.
  destruct (negb _ || playerHit g); [by eexists _, _|].
  match goal with |- context [if ?b then _ else _] => destruct b eqn:Hguard end;
    [|by eexists _, _].
  apply checkGameState_wellFormed.
  repeat (apply andb_true_iff in Hguard as [Hguard ?]).
  set (newPos := (_, _)) in *.
  assert (Hnew : nonWall (maze g) newPos = true).
  { unfold nonWall.
    destruct (cellAt (maze g) newPos.1 newPos.2) as [[]|] eqn:Hc; try done.
    exfalso. destruct Hwf as (Hl & (Hsq & _) & _).
    destruct (mazeSize_bounds _ Hl) as [Hsize _].
    assert (Hh : mazeHeight (maze g) = mazeSize (level g))
      by (apply mazeHeight_square; [lia|done]).
    rewrite Hh in *.
    rewrite (rowWidth_square _ _ _ Hsq) in * by lia.
    destruct (cellAt_inside _ _ newPos.1 newPos.2 Hsq) as [c Hc'];
      [unfold inside; cbn [fst snd]; lia|congruence]. }
  destruct Hwf as (Hl & Hgrid & Hp & Hicons & Htp & Hnd & Hev).
  destruct (negb (existsb _ _)); unfold wellFormed, wellFormedAt; cbn -[newPos];
    (split; [done|]; split; [done|]; split; done).
Qed.

Lemma moveEnemies_wellFormed g r :
  wellFormed g → ∃ g' r', moveEnemies g r = Some (g', r') ∧ wellFormed g'.
Proof.
  intros Hwf. unfold moveEnemies. destruct (newEnemyPositions _ _ _ r) as [ps r1].
  by apply checkGameState_wellFormed.
Qed.

Lemma hitCallback_wellFormed g : wellFormed g → wellFormed (hitCallback g).
Proof.
  intros (Hl & Hgrid & Hp & Hicons & Htp & Hnd & Hev).
  unfold wellFormed, wellFormedAt; simpl.
  split; [done|]. split; [done|]. split; [|done].
  destruct Hgrid as (_ & Hs & _). unfold nonWall. by rewrite Hs.
Qed.

Lemma wellFormed_tickers g :
  wellFormed g → wellFormed (startStalkerMovement (startEnemyMovement (startTimer g))).
Proof.
  intros Hwf. eapply wellFormed_fields; [..|exact Hwf];
    unfold startStalkerMovement; simpl; by destruct (level g <? 25).
Qed.

Lemma startGame_wellFormed g r g' r' :
  startGame g r = Some (g', r') → wellFormed g'.
Proof.
  unfold startGame. simpl.
  destruct (loadLevel_wellFormed 1 (setLevel 1 (setScore 0 g)) r)
    as (g1 & r1 & -> & Hwf & Hlv & _); [done|].
  intros [= <- <-]. apply (wellFormed_tickers (setGameStatus Playing g1)).
  unfold wellFormed. simpl. by rewrite Hlv.
Qed.

Lemma nextLevelCallback_wellFormed g r g' r' :
  wellFormed g → nextLevelCallback g r = Some (g', r') → wellFormed g'.
Proof.
  intros (Hl & _). unfold nextLevelCallback. simpl.
  destruct (loadLevel_wellFormed (level g + 1)
              (setLevel (level g + 1) (setNextLevelTimeout false g)) r)
    as (g1 & r1 & -> & Hwf & Hlv & _); [lia|].
  intros [= <- <-]. apply (wellFormed_tickers (setGameStatus Playing g1)).
  unfold wellFormed. simpl. by rewrite Hlv.
Qed.

Lemma continueToInfinite_wellFormed g r g' r' :
  wellFormed g → continueToInfinite g r = Some (g', r') → wellFormed g'.
Proof.
  intros (Hl & _). unfold continueToInfinite. simpl.
  destruct (loadLevel_wellFormed (level g + 1) (setLevel (level g + 1) g) r)
    as (g1 & r1 & -> & Hwf & Hlv & _); [lia|].
  intros [= <- <-]. apply (wellFormed_tickers (setGameStatus Playing g1)).
  unfold wellFormed. simpl. by rewrite Hlv.
Qed.

Lemma skipLevels_wellFormed g r g' r' :
  wellFormed g → skipLevels g r = Some (g', r') → wellFormed g'.
Proof.
  intros Hwf. pose proof Hwf as (Hl & _). unfold skipLevels.
  destruct (negb _); [by intros [= <- <-]|].
  destruct (level g =? 29); [by intros [= <- <-]|].
  simpl.
  match goal with |- context [loadLevel ?l ?s r] =>
    destruct (loadLevel_wellFormed l s r) as (g1 & r1 & -> & Hwf1 & Hlv & _);
      [lia|] end.
  intros [= <- <-]. apply wellFormed_tickers.
  unfold wellFormed. by rewrite Hlv.
Qed.

Lemma moveStalkers_wellFormed g r g' r' :
  wellFormed g → moveStalkers g r = Some (g', r') → wellFormed g'.
Proof.
  intros Hwf. unfold moveStalkers.
  destruct (length (stalkers g) =? 0)%nat; [by intros [= <- <-]|].
  destruct (newStalkerPositions _ _ _) as [ps|]; [|done].
  destruct (checkGameState_wellFormed (setStalkers ps g) r) as (g1 & r1 & -> & ?);
    [done|]. by intros [= <- <-].
Qed.

(** Every state of a started game satisfies the invariant. *)
Lemma reachable_wellFormed g : reachable g → wellFormed g.
Proof.
  induction 1 as [g r g' r' Hs|g dx dy r g' r' _ IH Hs|g r g' r' _ IH Hs
                 |g r g' r' _ IH Hs|g _ IH|g _ IH|g r g' r' _ IH Hs
                 |g r g' r' _ IH Hs|g r g' r' _ IH Hs|g _ IH].
  - by eapply startGame_wellFormed.
  - destruct (movePlayer_wellFormed dx dy g r IH) as (? & ? & ? & ?). congruence.
  - destruct (moveEnemies_wellFormed g r IH) as (? & ? & ? & ?). congruence.
  - by eapply moveStalkers_wellFormed.
  - done.
  - by apply hitCallback_wellFormed.
  - by eapply nextLevelCallback_wellFormed.
  - by eapply skipLevels_wellFormed.
  - by eapply continueToInfinite_wellFormed.
  - done.
Qed.

Lemma wellFormed_playerValid g : wellFormed g → playerValid g.
Proof.
  intros Hwf. pose proof (wellFormed_inside g Hwf) as [Hx Hy].
  destruct Hwf as (Hl & (Hsq & _) & Hp & _).
  destruct (mazeSize_bounds _ Hl) as [Hsize _].
  unfold playerValid.
  rewrite (mazeHeight_square (mazeSize (level g))) by (done || lia).
  rewrite (rowWidth_square (mazeSize (level g))) by done.
  split; [done|]. split; [done|].
  unfold nonWall in Hp. destruct (cellAt _ _ _) as [c|]; [|done].
  exists c. split; [done|]. by destruct c.
Qed.

(** ** The chain of checks in [checkGameState] *)

Lemma findIndex_NoDup (l : list Pos) i p :
  NoDup l → l !! i = Some p → findIndex (λ q, posEqb q p) l = Some i.
Proof.
  revert i. induction l as [|a l IH]; intros i Hnd Hi; [done|].
  apply NoDup_cons in Hnd as [Ha Hnd]. destruct i as [|i]; simpl in *.
  - simplify_eq. by rewrite posEqb_refl.
  - assert (Hne : posEqb a p = false).
    { apply posEqb_neq. intros ->. apply Ha. by eapply list_elem_of_lookup_2. }
    rewrite Hne, (IH i) by done. done.
Qed.

Lemma findIndex_None (l : list Pos) p :
  p ∉ l → findIndex (λ q, posEqb q p) l = None.
Proof.
  induction l as [|a l IH]; [done|]. intros [Hne Hl]%not_elem_of_cons. simpl.
  assert (posEqb a p = false) as -> by (apply posEqb_neq; congruence).
  by rewrite IH.
Qed.

Lemma existsb_posEqb_l_false p (l : list Pos) :
  p ∉ l → existsb (λ q, posEqb q p) l = false.
Proof. intros H. apply not_true_is_false. by rewrite existsb_posEqb_l. Qed.

Lemma existsb_posEqb_r_false p (l : list Pos) :
  p ∉ l → existsb (λ q, posEqb p q) l = false.
Proof. intros H. apply not_true_is_false. by rewrite existsb_posEqb_r. Qed.

(** A stalker on the player's cell ends the game before any other check. *)
Lemma checkGameState_stalker g r :
  gameStatus g = Playing → playerHit g = false →
  playerPosition g ∈ stalkers g →
  checkGameState g r = Some (stalkerCatch g, r).
Proof.
  intros Hs Hh Hin. unfold checkGameState.
  rewrite Hh, bool_decide_eq_true_2 by done. cbn [negb orb].
  by rewrite (proj2 (existsb_posEqb_r _ _) Hin).
Qed.

Lemma paired_index_in_range (l : list Pos) i :
  Nat.Even (length l) → (i < length l)%nat →
  ((if Nat.even i then S i else pred i) < length l)%nat.
Proof.
  intros [k Hk] Hi. destruct (Nat.even i) eqn:He; [|lia].
  apply Nat.even_spec in He as [j Hj]. lia.
Qed.

Lemma checkGameState_teleport g r i :
  wellFormed g → gameStatus g = Playing → playerHit g = false →
  playerPosition g ∉ stalkers g →
  teleporterPositions g !! i = Some (playerPosition g) →
  canTeleport g = true →
  ∃ dest,
    teleporterPositions g !! (if Nat.even i then S i else pred i) = Some dest
    ∧ checkGameState g r
      = Some (setPlayerPosition dest (setCanTeleport false g), r).
Proof.
  intros (_ & _ & _ & _ & _ & Hnd & Hev) Hs Hh Hst Hi Hc.
  pose proof (paired_index_in_range _ i Hev (lookup_lt_Some _ _ _ Hi)) as Hrange.
  destruct (lookup_lt_is_Some_2 _ _ Hrange) as [dest Hdest].
  exists dest. split; [done|].
  unfold checkGameState.
  rewrite Hh, bool_decide_eq_true_2 by done. cbn [negb orb].
  rewrite existsb_posEqb_r_false by done.
  rewrite (findIndex_NoDup _ i _ Hnd Hi), Hc.
  assert (Hmod : (Z.of_nat i mod 2 =? 0) = Nat.even i).
  { destruct (Nat.even i) eqn:He.
    - apply Nat.even_spec in He as [j ->]. apply Z.eqb_eq.
      rewrite Nat2Z.inj_mul, Z.mul_comm. apply Z_mod_mult.
    - apply Z.eqb_neq. intros Hm.
      assert (Nat.even i = true); [|congruence].
      apply Nat.even_spec. exists (Z.to_nat (Z.of_nat i / 2)).
      pose proof (Z_div_mod_eq_full (Z.of_nat i) 2).
      assert (0 ≤ Z.of_nat i / 2) by (apply Z.div_pos; lia). lia. }
  rewrite Hmod.
  set (d := if Nat.even i then Z.of_nat i + 1 else Z.of_nat i - 1).
  assert (Hd : d = Z.of_nat (if Nat.even i then S i else pred i)).
  { unfold d. destruct (Nat.even i) eqn:He; [lia|].
    destruct i; [done|lia]. }
  assert (Hguard : (0 <=? d) && (d <? Z.of_nat (length (teleporterPositions g))) = true)
    by lia.
  rewrite Hguard, Hd, Nat2Z.id, Hdest. done.
Qed.

Lemma checkGameState_exit g r :
  wellFormed g → gameStatus g = Playing → playerHit g = false →
  playerPosition g ∉ stalkers g →
  cellAt (maze g) (playerPosition g).1 (playerPosition g).2 = Some Exit →
  checkGameState g r = Some (reachExit g, r).
Proof.
  intros Hwf Hs Hh Hst Hexit. pose proof (wellFormed_row g Hwf) as Hrow.
  destruct Hwf as (_ & _ & _ & Hicons & Htps & _).
  assert (Hnot : ∀ l, Forall (onPath (maze g)) l → playerPosition g ∉ l).
  { intros l Hl Hin. rewrite Forall_forall in Hl. specialize (Hl _ Hin).
    unfold onPath in Hl. congruence. }
  unfold checkGameState.
  rewrite Hh, bool_decide_eq_true_2 by done. cbn [negb orb].
  rewrite existsb_posEqb_r_false by done.
  rewrite findIndex_None by auto.
  rewrite existsb_posEqb_l_false by auto.
  rewrite Hrow. cbn [negb]. by rewrite Hexit.
Qed.

(** ** Where the resolver is called *)

Lemma movePlayer_checks dx dy g r :
  movePlayer dx dy g r
  = if negb (bool_decide (gameStatus g = Playing)) || playerHit g then Some (g, r)
    else if moveAccepted dx dy g then checkGameState (afterStep dx dy g) r
    else Some (g, r).
Proof. reflexivity. Qed.

Lemma moveEnemies_checks g r :
  moveEnemies g r
  = checkGameState
      (setEnemies (newEnemyPositions (maze g) (playerPosition g) (enemies g) r).1 g)
      (newEnemyPositions (maze g) (playerPosition g) (enemies g) r).2.
Proof. unfold moveEnemies. by destruct (newEnemyPositions _ _ _ r). Qed.

Lemma moveAccepted_nonWall dx dy g :
  wellFormed g → moveAccepted dx dy g = true →
  nonWall (maze g) (moveTarget dx dy g) = true.
Proof.
  intros (Hl & (Hsq & _) & _) Hguard. unfold moveAccepted in Hguard.
  set (newPos := moveTarget dx dy g) in *. cbv zeta in Hguard.
  repeat (apply andb_true_iff in Hguard as [Hguard ?]).
  unfold nonWall.
  destruct (cellAt (maze g) newPos.1 newPos.2) as [[]|] eqn:Hc; try done.
  exfalso. destruct (mazeSize_bounds _ Hl) as [Hsize _].
  assert (Hh : mazeHeight (maze g) = mazeSize (level g))
    by (apply mazeHeight_square; [lia|done]).
  rewrite Hh in *.
  rewrite (rowWidth_square _ _ _ Hsq) in * by lia.
  destruct (cellAt_inside _ _ newPos.1 newPos.2 Hsq) as [c Hc'];
    [unfold inside; cbn [fst snd]; lia|congruence].
Qed.

Lemma afterStep_wellFormed dx dy g :
  wellFormed g → moveAccepted dx dy g = true → wellFormed (afterStep dx dy g).
Proof.
  intros Hwf Hguard. pose proof (moveAccepted_nonWall dx dy g Hwf Hguard) as Hnew.
  destruct Hwf as (Hl & Hgrid & Hp & Hicons & Htp & Hnd & Hev).
  unfold afterStep. cbv zeta.
  destruct (negb (existsb _ _)); unfold wellFormed, wellFormedAt;
    cbn -[moveTarget];
    (split; [done|]; split; [done|]; split; done).
Qed.

(** Whenever the program calls [checkGameState] in a started game, the
    session satisfies the invariant. *)
Lemma resolverInput_wellFormed g : resolverInput g → wellFormed g.
Proof.
  destruct 1 as [g dx dy Hg Hs Hh Hguard|g r Hg|g positions Hg _ _].
  - by apply afterStep_wellFormed; [apply reachable_wellFormed|].
  - by apply (wellFormed_fields g), reachable_wellFormed.
  - by apply (wellFormed_fields g), reachable_wellFormed.
Qed.

(** ** The stalker search *)

Lemma walk_nonempty m a path b : walk m a path b → (1 ≤ length path)%nat.
Proof. destruct 1; [simpl; lia|]. rewrite length_app. simpl. lia. Qed.

Lemma walk_single m a w : walk m a [w] w → w = a.
Proof.
  inversion 1 as [|path b c Hw Hs Heq]; [done|].
  apply walk_nonempty in Hw.
  apply (f_equal length) in Heq. rewrite length_app in Heq. simpl in Heq. lia.
Qed.

Lemma walk_length_1 m a q w : walk m a q w → length q = 1%nat → w = a.
Proof.
  destruct 1 as [|path b c Hw Hs]; [done|].
  apply walk_nonempty in Hw. rewrite length_app. simpl. lia.
Qed.

Lemma walk_first m a path b : walk m a path b → path !! 0%nat = Some a.
Proof.
  induction 1 as [|path b c Hw IH Hs]; [done|].
  by apply lookup_app_l_Some.
Qed.

Lemma walk_last m a path b : walk m a path b → last path = Some b.
Proof. destruct 1; [done|]. apply last_snoc. Qed.

(** The second cell of a route is one move away from the first. *)
Lemma walk_second m a path b s :
  walk m a path b → path !! 1%nat = Some s → stepTo m a s.
Proof.
  induction 1 as [|path b c Hw IH Hs]; [done|].
  intros H1. destruct (decide (length path = 1)%nat) as [Hlen|Hlen].
  - rewrite lookup_app_r in H1 by lia. rewrite Hlen in H1. simpl in H1.
    simplify_eq. by rewrite <- (walk_length_1 _ _ _ _ Hw Hlen).
  - apply walk_nonempty in Hw as Hne. apply IH.
    rewrite lookup_app_l in H1 by lia. done.
Qed.

(** What one expansion adds to the queue and to the marked cells. *)
Lemma bfsVisit_fold m x y path ds : ∀ q v q' v',
  foldl (bfsVisit m x y path) (q, v) ds = (q', v') →
  NoDup v →
  ∃ N, q' = q ++ N
    ∧ NoDup v'
    ∧ length v' = (length v + length N)%nat
    ∧ (∀ w, w ∈ v' ↔ w ∈ v ∨ ∃ e, e ∈ N ∧ queueNode e = w)
    ∧ (∀ e, e ∈ N →
         ∃ d, d ∈ ds ∧ queueNode e = move (x, y) d
              ∧ e.2 = path ++ [move (x, y) d]
              ∧ walkable m (queueNode e).1 (queueNode e).2 = true
              ∧ queueNode e ∉ v)
    ∧ (∀ d, d ∈ ds → walkable m (move (x, y) d).1 (move (x, y) d).2 = true →
            move (x, y) d ∈ v').
Proof.
  induction ds as [|d ds IH]; intros q v q' v' Hfold Hnd.
  { simpl in Hfold. simplify_eq. exists []. rewrite app_nil_r.
    split; [done|]. split; [done|]. split; [simpl; lia|].
    split; [|split].
    - intros w. split; [by left|]. intros [?|(e & He & _)]; [done|].
      by apply elem_of_nil in He.
    - intros e He. by apply elem_of_nil in He.
    - intros d Hd. by apply elem_of_nil in Hd. }
  simpl in Hfold.
  change (x + d.1, y + d.2) with (move (x, y) d) in Hfold.
  set (w := move (x, y) d) in *.
  change (x + d.1) with w.1 in Hfold. change (y + d.2) with w.2 in Hfold.
  destruct (walkable m w.1 w.2) eqn:Hwalk; cbn [andb] in Hfold.
  - destruct (bool_decide (w ∈ v)) eqn:Hvis; cbn [negb] in Hfold.
    + apply bool_decide_eq_true in Hvis.
      destruct (IH _ _ _ _ Hfold Hnd) as (N & -> & Hnd' & Hlen & Hv' & HN & Hds).
      exists N. split; [done|]. split; [done|]. split; [done|].
      split; [done|]. split.
      * intros e He. destruct (HN e He) as (d' & Hd' & ?).
        exists d'. split; [by right|done].
      * intros d' [->|Hd']%elem_of_cons Hw'; [|by apply Hds].
        apply Hv'. by left.
    + apply bool_decide_eq_false in Hvis.
      assert (Hnd1 : NoDup (w :: v)) by by apply NoDup_cons.
      destruct (IH _ _ _ _ Hfold Hnd1) as (N & -> & Hnd' & Hlen & Hv' & HN & Hds).
      exists ((w.1, w.2, path ++ [w]) :: N).
      split; [by rewrite <- app_assoc|]. split; [done|].
      split; [simpl in *; lia|]. split; [|split].
      * intros u. rewrite Hv', elem_of_cons. split.
        -- intros [[->|?]|(e & He & Hu)].
           ++ right. eexists. split; [left|]. by destruct w.
           ++ by left.
           ++ right. exists e. split; [by right|done].
        -- intros [?|(e & [->|He]%elem_of_cons & Hu)].
           ++ left. by right.
           ++ left. left. rewrite <- Hu. by destruct w.
           ++ right. by exists e.
      * intros e [->|He]%elem_of_cons.
        -- exists d. split; [left|].
           split; [done|]. split; [done|]. split; [exact Hwalk|exact Hvis].
        -- destruct (HN e He) as (d' & Hd' & Hq & Hp & Hw' & Hnot).
           exists d'. split; [by right|]. split; [done|]. split; [done|].
           split; [done|]. intros Hin. apply Hnot. by right.
      * intros d' [->|Hd']%elem_of_cons Hw'; [|by apply Hds].
        apply Hv'. left. left.
  - destruct (IH _ _ _ _ Hfold Hnd) as (N & -> & Hnd' & Hlen & Hv' & HN & Hds).
    exists N. split; [done|]. split; [done|]. split; [done|].
    split; [done|]. split.
    + intros e He. destruct (HN e He) as (d' & Hd' & ?).
      exists d'. split; [by right|done].
    + intros d' [->|Hd']%elem_of_cons Hw'; [|by apply Hds].
      fold w in Hw'. congruence.
Qed.

Lemma queueNode_eta (e : QueueEntry) : (e.1.1, e.1.2) = queueNode e.
Proof. done. Qed.

(** One round of the loop keeps the invariant. *)
Lemma bfsInv_step m start target e rest visited queue' visited' :
  bfsInv m start target (e :: rest) visited → NoDup visited →
  queueNode e ≠ target →
  foldl (bfsVisit m e.1.1 e.1.2 e.2) (rest, visited) stalkerDirections
    = (queue', visited') →
  bfsInv m start target queue' visited' ∧ NoDup visited'
  ∧ (length visited' + length rest = length visited + length queue')%nat.
Proof.
  intros (Hstart & HA & HC & Hlev & HD & HE) Hnd Hne Hfold.
  destruct (bfsVisit_fold _ _ _ _ _ _ _ _ _ Hfold Hnd)
    as (N & -> & Hnd' & Hlen & Hv' & HN & Hds).
  rewrite queueNode_eta in HN, Hds.
  set (u := queueNode e) in *. set (d := length e.2) in *.
  destruct (HA e) as [[Hwalk Hshort] Hu]; [left|]. fold u in Hwalk, Hshort, Hu.
  assert (Hd : (1 ≤ d)%nat) by by eapply walk_nonempty.
  assert (Hmono : ∀ w, w ∈ visited → w ∈ visited') by (intros; apply Hv'; by left).
  assert (HNlen : ∀ e', e' ∈ N → length e'.2 = S d).
  { intros e' He'. destruct (HN e' He') as (dir & _ & _ & -> & _).
    rewrite length_app. simpl. unfold d. lia. }
  assert (HNwalk : ∀ e', e' ∈ N → walk m start e'.2 (queueNode e')).
  { intros e' He'. destruct (HN e' He') as (dir & Hdir & Hq & -> & Hw & _).
    rewrite Hq. apply walk_step with u; [done|].
    split; [by exists dir|]. by rewrite <- Hq. }
  assert (HA' : ∀ e', e' ∈ rest ++ N →
            shortestWalk m start e'.2 (queueNode e') ∧ queueNode e' ∈ visited').
  { intros e' [He'|He']%elem_of_app.
    - destruct (HA e') as [? ?]; [by right|]. split; [done|by apply Hmono].
    - split; [|apply Hv'; right; by exists e'].
      split; [by apply HNwalk|]. intros q Hq. rewrite (HNlen e' He').
      destruct (HN e' He') as (dir & _ & _ & _ & _ & Hnot).
      destruct (decide (length q < d)%nat) as [Hlt|Hge].
      { destruct (HD _ _ Hq Hlt) as [? _]. done. }
      destruct (decide (length q = d)) as [Heq|Hneq]; [|lia].
      by pose proof (HE _ _ Hq Heq). }
  assert (HC' : ∀ w, w ∈ visited' →
            (∃ e', e' ∈ rest ++ N ∧ queueNode e' = w)
            ∨ (w ≠ target
               ∧ ∀ dir, dir ∈ stalkerDirections →
                   walkable m (move w dir).1 (move w dir).2 = true →
                   move w dir ∈ visited')).
  { intros w [Hw|(e' & He' & Hw)]%Hv'.
    - destruct (HC w Hw) as [(e' & [->|He']%elem_of_cons & Heq)|[Hwt Hwn]].
      + right. fold u in Heq. subst w. split; [done|]. intros dir Hdir Hwk.
        by apply Hds.
      + left. exists e'. split; [apply elem_of_app; by left|done].
      + right. split; [done|]. intros dir Hdir Hwk. by apply Hmono, Hwn.
    - left. exists e'. split; [apply elem_of_app; by right|done]. }
  assert (HD0 : ∀ w q, walk m start q w → (length q < d)%nat →
            w ∈ visited' ∧ ∀ e', e' ∈ rest ++ N → queueNode e' ≠ w).
  { intros w q Hq Hlt. destruct (HD _ _ Hq Hlt) as [Hw Hnot].
    split; [by apply Hmono|].
    intros e' [He'|He']%elem_of_app; [apply Hnot; by right|].
    destruct (HN e' He') as (dir & _ & _ & _ & _ & Hnv). congruence. }
  assert (HE0 : ∀ w q, walk m start q w → length q = d → w ∈ visited')
    by (intros; eapply Hmono, HE; eauto).
  split; [|split; [done|rewrite length_app; simpl in *; lia]].
  split; [by apply Hmono|]. split; [done|]. split; [done|].
  destruct Hlev as (r1 & r2 & -> & Hr1 & Hr2).
  destruct r1 as [|e1 r1].
  - (* the routes of [d] cells are used up *)
    simpl in *.
    assert (Hall : Forall (λ e', length e'.2 = S d) (r2 ++ N)).
    { apply Forall_app. split; [done|]. by apply Forall_forall. }
    destruct (r2 ++ N) as [|f Q] eqn:HQ; [done|].
    apply Forall_cons in Hall as [Hf HQall]. cbv zeta. rewrite Hf.
    assert (HD1 : ∀ w q, walk m start q w → (length q < S d)%nat →
              w ∈ visited' ∧ ∀ e', e' ∈ f :: Q → queueNode e' ≠ w).
    { intros w q Hq Hlt.
      destruct (decide (length q < d)%nat) as [Hlt'|Hge]; [by apply (HD0 w q)|].
      assert (Heq : length q = d) by lia.
      split; [by eapply HE0|]. intros e' He' <-.
      destruct (HA' e' He') as [[_ Hsh] _].
      specialize (Hsh q Hq).
      assert (length e'.2 = S d); [|lia].
      apply elem_of_cons in He' as [->|He']; [done|].
      rewrite Forall_forall in HQall. by apply HQall. }
    split; [|split; [done|]].
    + exists Q, []. rewrite app_nil_r. split; [done|]. split; [done|]. done.
    + intros w q Hq Hlenq.
      destruct Hq as [|q0 b w Hq0 Hstep].
      { simpl in Hlenq. lia. }
      rewrite length_app in Hlenq. simpl in Hlenq.
      destruct (HD1 b q0 Hq0) as [Hb Hbq]; [lia|].
      destruct (HC' b Hb) as [(e' & He' & Heq)|[_ Hbn]].
      { exfalso. by eapply Hbq. }
      destruct Hstep as [(dir & Hdir & ->) Hwk]. by apply Hbn.
  - (* there are routes of [d] cells left *)
    apply Forall_cons in Hr1 as [He1 Hr1]. simpl. rewrite He1. fold d.
    split; [|split; [done|done]].
    exists r1, (r2 ++ N). rewrite <- app_assoc. split; [done|]. split; [done|].
    apply Forall_app. split; [done|]. by apply Forall_forall.
Qed.

Lemma bfsInv_initial m start target :
  bfsInv m start target [(start.1, start.2, [start])] [start].
Proof.
  split; [left|]. split; [|split; [|split; [|split]]].
  - intros e ->%list_elem_of_singleton. unfold queueNode; simpl.
    replace (start.1, start.2) with start by by destruct start.
    split; [|left]. split; [constructor|].
    intros q Hq. apply walk_nonempty in Hq. simpl. lia.
  - intros u ->%list_elem_of_singleton. left. eexists. split; [left|].
    by destruct start.
  - exists [], []. by repeat split.
  - simpl. intros w q Hq Hlen. apply walk_nonempty in Hq. lia.
  - simpl. intros w q Hq Hlen. rewrite (walk_length_1 _ _ _ _ Hq Hlen). left.
Qed.

(** When the loop ends, [foundPath] is a shortest route, or there is no
    route at all. *)
Lemma bfs_correct m start target fuel : ∀ queue visited res,
  bfsInv m start target queue visited → NoDup visited →
  bfs fuel m target queue visited = Some res →
  match res with
  | Some path => shortestWalk m start path target
  | None => ∀ q, ¬ walk m start q target
  end.
Proof.
  induction fuel as [|fuel IH]; intros queue visited res Hinv Hnd Hrun; [done|].
  cbn [bfs] in Hrun. destruct queue as [|[[x y] path] rest].
  - simplify_eq. destruct Hinv as (Hstart & _ & HC & _).
    assert (Hall : ∀ q w, walk m start q w → w ∈ visited).
    { induction 1 as [|q b w Hq IHq [(dir & Hdir & ->) Hwk]]; [done|].
      destruct (HC b IHq) as [(e & He & _)|[_ Hn]]; [by apply elem_of_nil in He|].
      by apply Hn. }
    intros q Hq. destruct (HC target (Hall _ _ Hq)) as [(e & He & _)|[Hne _]];
      [by apply elem_of_nil in He|done].
  - destruct ((x =? target.1) && (y =? target.2)) eqn:Hfound.
    + simplify_eq. apply andb_true_iff in Hfound as [->%Z.eqb_eq ->%Z.eqb_eq].
      destruct Hinv as (_ & HA & _). destruct (HA (target.1, target.2, path)) as [H _];
        [left|].
      unfold queueNode in H; simpl in H. by destruct target.
    + destruct (foldl _ _ _) as [queue' visited'] eqn:Hfold.
      destruct (bfsInv_step m start target (x, y, path) rest visited queue' visited')
        as (Hinv' & Hnd' & _); try done.
      * unfold queueNode; simpl. intros <-. simpl in Hfound.
        by rewrite !Z.eqb_refl in Hfound.
      * by eapply IH.
Qed.

Lemma length_scanRows (ys : list Z) width :
  0 ≤ width →
  length (mjoin ((λ y, rowCells (λ _ _, true) y width) <$> ys))
  = (length ys * Z.to_nat width)%nat.
Proof.
  intros Hw. induction ys as [|y ys IH]; [done|].
  csimpl. rewrite length_app, IH. f_equal.
  unfold rowCells.
  assert (Hall : ∀ l : list Pos, filter (λ p : Pos, true = true) l = l).
  { induction l as [|p l IHl]; [done|]. rewrite filter_cons_True by done.
    by f_equal. }
  by rewrite Hall, length_fmap, length_seqZ.
Qed.

Lemma length_gridCells m :
  length (gridCells m) = Z.to_nat (mazeHeight m * rowWidth m 0).
Proof.
  unfold gridCells, scanCells.
  assert (0 ≤ rowWidth m 0) by (unfold rowWidth; destruct (m !! _); lia).
  assert (0 ≤ mazeHeight m) by (unfold mazeHeight; lia).
  rewrite length_scanRows, length_seqZ by done.
  rewrite Z2Nat.inj_mul by done. done.
Qed.

Lemma walkable_gridCells m (p : Pos) :
  walkable m p.1 p.2 = true → p ∈ gridCells m.
Proof.
  unfold walkable. rewrite !andb_true_iff. intros ((((? & ?) & ?) & ?) & _).
  apply elem_of_scanCells. repeat split; try done; lia.
Qed.

(** The loop ends: every round takes an entry off the queue, and a cell
    enters the queue once. *)
Lemma bfs_total m start target fuel : ∀ queue visited,
  NoDup visited → (∀ w, w ∈ visited → w ∈ start :: gridCells m) →
  (S (length (gridCells m)) - length visited + length queue < fuel)%nat →
  is_Some (bfs fuel m target queue visited).
Proof.
  induction fuel as [|fuel IH]; intros queue visited Hnd Hsub Hfuel; [lia|].
  cbn [bfs]. destruct queue as [|[[x y] path] rest]; [by eexists|].
  destruct (_ && _); [by eexists|].
  destruct (foldl _ _ _) as [queue' visited'] eqn:Hfold.
  destruct (bfsVisit_fold _ _ _ _ _ _ _ _ _ Hfold Hnd)
    as (N & -> & Hnd' & Hlen & Hv' & HN & _).
  assert (Hsub' : ∀ w, w ∈ visited' → w ∈ start :: gridCells m).
  { intros w [Hw|(e & He & <-)]%Hv'; [by apply Hsub|].
    destruct (HN e He) as (_ & _ & _ & _ & Hwk & _).
    right. by apply walkable_gridCells. }
  assert (Hbound : (length visited' ≤ S (length (gridCells m)))%nat).
  { change (S (length (gridCells m))) with (length (start :: gridCells m)).
    by apply submseteq_length, NoDup_submseteq. }
  apply IH; [done..|].
  rewrite length_app. simpl in Hfuel. lia.
Qed.

Lemma stalkerStep_spec m player s :
  ∃ s', stalkerStep m player s = Some s'
        ∧ ((∃ path, shortestWalk m s path player ∧ s' = default s (path !! 1%nat))
           ∨ ((∀ q, ¬ walk m s q player) ∧ s' = s)).
Proof.
  unfold stalkerStep.
  destruct (bfs_total m s player (bfsFuel m) [(s.1, s.2, [s])] [s])
    as [res Hres].
  { apply NoDup_singleton. }
  { intros w ->%list_elem_of_singleton. left. }
  { unfold bfsFuel. rewrite length_gridCells. simpl. lia. }
  rewrite Hres.
  pose proof (bfs_correct m s player _ _ _ _ (bfsInv_initial m s player)
                (NoDup_singleton s) Hres) as Hcorrect.
  eexists. split; [done|]. destruct res as [path|]; [left|by right].
  exists path. split; [done|].
  destruct (1 <? length path)%nat eqn:Hlen; [done|].
  apply Nat.ltb_ge in Hlen. by rewrite lookup_ge_None_2.
Qed.

(** ** Runs of events *)

Lemma handle_reachable e g g' :
  reachable g → handle e g = Some g' → reachable g'.
Proof.
  intros Hg. destruct e as [r|dx dy r|r|r| | |r|r|r| ]; simpl.
  - destruct (startGame g r) as [[g1 r1]|] eqn:H; [|done].
    intros [= <-]. by eapply reach_startGame.
  - destruct (movePlayer dx dy g r) as [[g1 r1]|] eqn:H; [|done].
    intros [= <-]. by eapply reach_movePlayer.
  - destruct (moveEnemies g r) as [[g1 r1]|] eqn:H; [|done].
    intros [= <-]. by eapply reach_moveEnemies.
  - destruct (moveStalkers g r) as [[g1 r1]|] eqn:H; [|done].
    intros [= <-]. by eapply reach_moveStalkers.
  - intros [= <-]. by apply reach_timerTick.
  - intros [= <-]. by apply reach_hitCallback.
  - destruct (nextLevelCallback g r) as [[g1 r1]|] eqn:H; [|done].
    intros [= <-]. by eapply reach_nextLevelCallback.
  - destruct (skipLevels g r) as [[g1 r1]|] eqn:H; [|done].
    intros [= <-]. by eapply reach_skipLevels.
  - destruct (continueToInfinite g r) as [[g1 r1]|] eqn:H; [|done].
    intros [= <-]. by eapply reach_continueToInfinite.
  - intros [= <-]. by apply reach_restartGame.
Qed.

Lemma runEvents_from_reachable es : ∀ g g',
  reachable g → runEvents es g = Some g' → reachable g'.
Proof.
  induction es as [|e es IH]; intros g g' Hg Hrun; simpl in Hrun.
  - by simplify_eq.
  - destruct (handle e g) as [g1|] eqn:He; [|done].
    eapply IH; [|exact Hrun]. by eapply handle_reachable.
Qed.

(** A run that begins with [startGame] ends in a reachable state. *)
Lemma runEvents_reachable r es g0 g :
  runEvents (StartGame r :: es) g0 = Some g → reachable g.
Proof.
  simpl. destruct (startGame g0 r) as [[g1 r1]|] eqn:Hs; [|done]. simpl.
  apply runEvents_from_reachable. by eapply reach_startGame.
Qed.

(** * The claims of the specification *)

Lemma removeWalls_flankedOpenings size n : ∀ m r,
  squareOf size m → flankedOpenings m (removeWalls n size m r).1.
Proof.
  induction n as [|n IH]; intros m r Hsq; [constructor|].
  simpl. destruct (randInt _ r) as [a r1]. destruct (randInt _ r1) as [b r2].
  destruct (removeWallAt_cases size m (Z.of_nat a + 1) (Z.of_nat b + 1) Hsq)
    as [->|[Hflank ->]]; [by apply IH|].
  eapply flankedOpenings_open; [exact Hflank|].
  by apply IH, squareOf_setCell.
Qed.

(** C8.  For every level of at least 1, [generateMaze] returns a grid; the
    grid is square with side [7 + 2 * (min(level, 30) - 1)], which is odd
    and at least 7; its cell (1,1) is the Start cell and its cell
    (size-2, size-2) is the Exit cell. *)
Theorem generateMaze_size level r :
  1 ≤ level →
  let size := 7 + 2 * (Z.min level 30 - 1) in
  ∃ grid r',
    generateMaze level r = Some (grid, r')
    ∧ length grid = Z.to_nat size
    ∧ Forall (λ row, length row = Z.to_nat size) grid
    ∧ Z.odd size = true
    ∧ 7 ≤ size
    ∧ cellAt grid 1 1 = Some Start
    ∧ cellAt grid (size - 2) (size - 2) = Some Exit.
Proof.
  intros Hl size.
  assert (Hsize : size = mazeSize level) by (unfold size, mazeSize; lia).
  destruct (generateMaze_generated level r Hl) as (grid & r' & Hgen & Hprops).
  destruct (mazeSize_bounds level Hl) as [Hbounds Hodd].
  rewrite <- Hsize in Hprops, Hbounds, Hodd.
  destruct Hprops as ([Hlen Hrows] & Hs & He & _).
  exists grid, r'. repeat split; try done. lia.
Qed.

Lemma generateMaze_size_witness :
  ∃ grid r',
    generateMaze 3 [5; 1; 4; 2; 0; 3]%nat = Some (grid, r')
    ∧ length grid = 11%nat
    ∧ Forall (λ row, length row = 11%nat) grid
    ∧ Z.odd 11 = true
    ∧ 7 ≤ 11
    ∧ cellAt grid 1 1 = Some Start
    ∧ cellAt grid 9 9 = Some Exit.
Proof. apply (generateMaze_size 3 [5; 1; 4; 2; 0; 3]%nat). lia. Defined.

(** C2.  For every level of at least 1 and every random outcome, carving
    alone already connects (1,1) to (size-2, size-2) by non-wall cells; the
    wall-removal pass that follows opens nothing but wall cells flanked by
    two opposite open cells; and in the grid that [generateMaze] returns
    the Start cell (1,1) and the Exit cell (size-2, size-2) are connected
    by a path of non-wall cells. *)
Theorem generateMaze_connected level r :
  1 ≤ level →
  let size := mazeSize level in
  ∃ carvedGrid r1 noisy r2 grid,
    carve (carveFuel size) size (blankMaze size) 1 1 r = Some (carvedGrid, r1)
    ∧ connected carvedGrid (1, 1) (size - 2, size - 2)
    ∧ removeWalls (removalIterations size level) size carvedGrid r1 = (noisy, r2)
    ∧ flankedOpenings carvedGrid noisy
    ∧ grid = setCell (setCell noisy 1 1 Start) (size - 2) (size - 2) Exit
    ∧ generateMaze level r = Some (grid, r2)
    ∧ connected grid (1, 1) (size - 2, size - 2).
Proof.
  intros Hl size. destruct (mazeSize_bounds level Hl) as [Hsize Hodd].
  fold size in Hsize, Hodd.
  destruct (carve_blank_total size r) as [[m r1] Hrun]; [lia|].
  assert (Hcarved : carved size m)
    by (eapply carved_of_carve; [|done|exact Hrun]; lia).
  assert (Hex : lattice size (size - 2, size - 2)).
  { repeat split; simpl; try lia; by rewrite Z.odd_sub, Hodd. }
  pose proof (carved_removeWalls size (removalIterations size level) m r1 Hcarved)
    as Hrem.
  pose proof (removeWalls_flankedOpenings size (removalIterations size level) m r1
                (proj1 Hcarved)) as Hflank.
  destruct (removeWalls _ size m r1) as [noisy r2] eqn:Hnoise.
  simpl in Hrem, Hflank.
  pose proof (generated_of_carved size noisy ltac:(lia) Hodd Hrem) as Hgen.
  exists m, r1, noisy, r2. eexists.
  split; [done|]. split.
  { destruct Hcarved as (_ & Hlat & Hconn & _). by apply Hconn, Hlat. }
  split; [done|]. split; [done|]. split; [done|]. split.
  { unfold generateMaze. fold (mazeSize level). fold size.
    by rewrite Hrun, Hnoise. }
  destruct Hgen as (_ & _ & _ & _ & Hlat & Hconn). by apply Hconn, Hlat.
Qed.

Lemma generateMaze_connected_witness :
  ∃ carvedGrid r1 noisy r2 grid,
    carve (carveFuel 7) 7 (blankMaze 7) 1 1 [2; 0; 1]%nat = Some (carvedGrid, r1)
    ∧ connected carvedGrid (1, 1) (5, 5)
    ∧ removeWalls (removalIterations 7 1) 7 carvedGrid r1 = (noisy, r2)
    ∧ flankedOpenings carvedGrid noisy
    ∧ grid = setCell (setCell noisy 1 1 Start) 5 5 Exit
    ∧ generateMaze 1 [2; 0; 1]%nat = Some (grid, r2)
    ∧ connected grid (1, 1) (5, 5).
Proof. apply (generateMaze_connected 1 [2; 0; 1]%nat). lia. Defined.

(** C5.  For every level and grid, each placement returns only positions
    whose cell is a Path cell, returns no more positions than the count
    its level gives (enemies [min(4, floor((level-15)/2)+1)], icons 5,
    teleporters [min(14, 2 + floor((level-20)/4)*2)], stalkers 1), and
    returns none below its unlock level (15, 10, 20, 25). *)
Theorem placement_sound lvl grid g r :
  let placedEnemies := enemies (spawnEnemies lvl grid g r).1 in
  let placedIcons := regenerateIconPositions (spawnRegenerateIcons lvl grid g r).1 in
  let placedTeleporters := teleporterPositions (spawnTeleporters lvl grid g r).1 in
  let placedStalkers := stalkers (spawnStalkers lvl grid g r).1 in
  (Forall (λ p, cellAt grid p.1 p.2 = Some Path) placedEnemies
   ∧ Z.of_nat (length placedEnemies)
     ≤ (if lvl <? 15 then 0 else Z.min 4 ((lvl - 15) / 2 + 1)))
  ∧ (Forall (λ p, cellAt grid p.1 p.2 = Some Path) placedIcons
     ∧ Z.of_nat (length placedIcons) ≤ (if lvl <? 10 then 0 else 5))
  ∧ (Forall (λ p, cellAt grid p.1 p.2 = Some Path) placedTeleporters
     ∧ Z.of_nat (length placedTeleporters)
       ≤ (if lvl <? 20 then 0 else Z.min 14 (2 + (lvl - 20) / 4 * 2)))
  ∧ (Forall (λ p, cellAt grid p.1 p.2 = Some Path) placedStalkers
     ∧ Z.of_nat (length placedStalkers) ≤ (if lvl <? 25 then 0 else 1)).
Proof.
  cbv zeta.
  split; [apply spawnEnemies_spec|].
  split; [apply spawnRegenerateIcons_spec|].
  split; [|apply spawnStalkers_spec].
  destruct (spawnTeleporters_spec lvl grid g r) as (? & ? & _). done.
Qed.

(** C9.  A move intent leaves the whole session as it is, and returns
    normally, whenever the status is not [Playing], or the player-hit flag
    is set, or the target cell lies outside the grid, or the target cell
    is a Wall. *)
Theorem movePlayer_refused dx dy g r :
  let target := ((playerPosition g).1 + dx, (playerPosition g).2 + dy) in
  gameStatus g ≠ Playing
  ∨ playerHit g = true
  ∨ ¬ (0 ≤ target.2 < mazeHeight (maze g)
       ∧ 0 ≤ target.1 < rowWidth (maze g) target.2)
  ∨ cellAt (maze g) target.1 target.2 = Some Wall →
  movePlayer dx dy g r = Some (g, r).
Proof.
  intros target Hcase. unfold movePlayer. fold target.
  destruct (bool_decide (gameStatus g = Playing)) eqn:Hs; [|done].
  apply bool_decide_eq_true in Hs.
  destruct (playerHit g) eqn:Hh; [done|]. cbn [negb orb].
  destruct Hcase as [?|[?|[Hout|Hwall]]]; [done|done| |].
  - destruct ((0 <=? target.2) && (target.2 <? mazeHeight (maze g))
              && (0 <=? target.1) && (target.1 <? rowWidth (maze g) target.2))
      eqn:Hb; [|done].
    exfalso. apply Hout. lia.
  - rewrite Hwall. cbn [isWall negb]. by rewrite andb_false_r.
Qed.

Lemma movePlayer_refused_witness :
  movePlayer 0 (-1) walledIn [7]%nat = Some (walledIn, [7]%nat).
Proof.
  apply (movePlayer_refused 0 (-1) walledIn [7]%nat).
  right. right. right. reflexivity.
Defined.

(** C3.  Teleporter placement yields an even number of positions at both
    places where the program runs it: when a level is loaded, for every
    level of at least 1, and when the maze is regenerated in a running
    game; in both cases for every random outcome. *)
Theorem teleporters_even :
  (∀ lvl g r, 1 ≤ lvl →
     ∃ g' r', loadLevel lvl g r = Some (g', r')
              ∧ Nat.Even (length (teleporterPositions g')))
  ∧ (∀ g r, reachable g →
       ∃ g' r', regenerateMazeFromPlayerPosition g r = Some (g', r')
                ∧ Nat.Even (length (teleporterPositions g'))).
Proof.
  split.
  - intros lvl g r Hl.
    destruct (loadLevel_wellFormed lvl g r Hl) as (g' & r' & Hload & Hwf & _).
    exists g', r'. split; [done|]. by destruct Hwf as (_ & _ & _ & _ & _ & _ & ?).
  - intros g r Hg.
    destruct (regenerate_wellFormed g r (reachable_wellFormed g Hg))
      as (g' & r' & Hregen & Hwf & _).
    exists g', r'. split; [done|]. by destruct Hwf as (_ & _ & _ & _ & _ & _ & ?).
Qed.

Lemma teleporters_even_witness :
  ∃ g' r', loadLevel 24 initialGame [3; 1; 4; 1; 5]%nat = Some (g', r')
           ∧ Nat.Even (length (teleporterPositions g')).
Proof.
  apply (proj1 teleporters_even 24 initialGame [3; 1; 4; 1; 5]%nat). lia.
Defined.


(** C4.  The teleporter step of the resolver.  Whenever the program runs
    [checkGameState] in a started game and the call comes to the
    teleporter step (the session is playing with the player-hit flag
    clear, and the stalker check that comes first found no stalker on the
    player's cell): if the player's cell is the teleporter position at
    index [i] and can-teleport is set, the call clears can-teleport, moves
    the player to the teleporter at index [i + 1] when [i] is even and
    [i - 1] when [i] is odd, and returns with nothing else changed, so
    that no further check is made in that call. *)
Theorem teleporter_jump g r i :
  resolverInput g → gameStatus g = Playing → playerHit g = false →
  playerPosition g ∉ stalkers g →
  teleporterPositions g !! i = Some (playerPosition g) →
  canTeleport g = true →
  ∃ dest,
    teleporterPositions g !! (if Nat.even i then i + 1 else i - 1)%nat = Some dest
    ∧ checkGameState g r
      = Some (setPlayerPosition dest (setCanTeleport false g), r).
Proof.
  intros Hin Hs Hh Hst Hi Hc. pose proof (resolverInput_wellFormed g Hin) as Hwf.
  destruct (checkGameState_teleport g r i Hwf Hs Hh Hst Hi Hc) as (dest & Hd & Hrun).
  exists dest. split; [|done].
  destruct (Nat.even i); [by rewrite Nat.add_1_r|by rewrite Nat.sub_1_r].
Qed.

Lemma teleporter_jump_witness :
  ∃ dest,
    teleporterPositions (afterStep 0 1 atLevel20) !! 1%nat = Some dest
    ∧ checkGameState (afterStep 0 1 atLevel20) [2; 7]%nat
      = Some (setPlayerPosition dest
                (setCanTeleport false (afterStep 0 1 atLevel20)), [2; 7]%nat).
Proof.
  apply (teleporter_jump (afterStep 0 1 atLevel20) [2; 7]%nat 0).
  - apply input_movePlayer.
    + apply (runEvents_reachable [] (tail toLevel20) initialGame).
      vm_compute. reflexivity.
    + vm_compute. reflexivity.
    + vm_compute. reflexivity.
    + vm_compute. reflexivity.
  - vm_compute. reflexivity.
  - vm_compute. reflexivity.
  - assert (Hnone : stalkers (afterStep 0 1 atLevel20) = [])
      by (vm_compute; reflexivity).
    rewrite Hnone. apply not_elem_of_nil.
  - vm_compute. reflexivity.
  - vm_compute. reflexivity.
Defined.

(** C7.  The exit step of the resolver.  Whenever the program runs
    [checkGameState] in a started game and the call comes to the exit step
    (the session is playing with the player-hit flag clear, and the
    stalker check that comes first found no stalker on the player's cell;
    no teleporter and no regeneration icon of a started game lies on the
    Exit cell): if the player's cell is the Exit cell, the call adds exactly
    [max(0, 1000 - timer * 10) + 500 * level] to the score and, in the
    same result, makes the transition to level-complete with the next
    level scheduled (to game-complete at level 30, with nothing
    scheduled).  At timer 0 and level 1 the increment is 1500; at timer
    150 it is [500 * level]. *)
Theorem exit_scoring g r :
  resolverInput g → gameStatus g = Playing → playerHit g = false →
  playerPosition g ∉ stalkers g →
  cellAt (maze g) (playerPosition g).1 (playerPosition g).2 = Some Exit →
  ∃ g',
    checkGameState g r = Some (g', r)
    ∧ score g' = score g + Z.max 0 (1000 - timer g * 10) + 500 * level g
    ∧ gameStatus g' = (if level g =? 30 then GameComplete else LevelComplete)
    ∧ nextLevelTimeout g' = negb (level g =? 30)
    ∧ (timer g = 0 → level g = 1 → score g' = score g + 1500)
    ∧ (timer g = 150 → score g' = score g + 500 * level g).
Proof.
  intros Hin Hs Hh Hst Hexit. pose proof (resolverInput_wellFormed g Hin) as Hwf.
  exists (reachExit g).
  split; [by apply checkGameState_exit|].
  unfold reachExit. simpl.
  destruct (level g =? 30) eqn:Hl; simpl; repeat split; try done; lia.
Qed.

Lemma exit_scoring_witness :
  ∃ g',
    checkGameState (afterStep 1 0 nearExit) [9]%nat = Some (g', [9]%nat)
    ∧ score g' = 1500
    ∧ gameStatus g' = LevelComplete
    ∧ nextLevelTimeout g' = true.
Proof.
  destruct (exit_scoring (afterStep 1 0 nearExit) [9]%nat)
    as (g' & Hrun & Hscore & Hstatus & Hnext & Hfirst & _).
  - apply input_movePlayer.
    + apply (runEvents_reachable [] (tail toTheExit) initialGame).
      vm_compute. reflexivity.
    + vm_compute. reflexivity.
    + vm_compute. reflexivity.
    + vm_compute. reflexivity.
  - vm_compute. reflexivity.
  - vm_compute. reflexivity.
  - assert (Hnone : stalkers (afterStep 1 0 nearExit) = [])
      by (vm_compute; reflexivity).
    rewrite Hnone. apply not_elem_of_nil.
  - vm_compute. reflexivity.
  - exists g'. split; [exact Hrun|]. split; [|split].
    + apply Hfirst; vm_compute; reflexivity.
    + exact Hstatus.
    + exact Hnext.
Defined.

(** C10.  In every state of a started game the player stands inside the
    grid on a cell that is not a Wall; in particular after each operation
    that changes the player's position: a move, a teleporter jump, a maze
    regeneration, and the reset to the level's start cell that follows an
    enemy collision. *)
Theorem player_on_open_cell g :
  reachable g →
  playerValid g
  ∧ (∀ dx dy r, ∃ g' r', movePlayer dx dy g r = Some (g', r') ∧ playerValid g')
  ∧ (∀ i dest, teleporterPositions g !! i = Some dest →
               playerValid (setPlayerPosition dest (setCanTeleport false g)))
  ∧ (∀ r, ∃ g' r', regenerateMazeFromPlayerPosition g r = Some (g', r')
                   ∧ playerValid g')
  ∧ playerValid (hitCallback g).
Proof.
  intros Hg. pose proof (reachable_wellFormed g Hg) as Hwf.
  split; [by apply wellFormed_playerValid|]. split; [|split; [|split]].
  - intros dx dy r.
    destruct (movePlayer_wellFormed dx dy g r Hwf) as (g' & r' & Hm & Hwf').
    exists g', r'. split; [done|]. by apply wellFormed_playerValid.
  - intros i dest Hd. by eapply wellFormed_playerValid, wellFormed_teleport.
  - intros r.
    destruct (regenerate_wellFormed g r Hwf) as (g' & r' & Hm & Hwf' & _).
    exists g', r'. split; [done|]. by apply wellFormed_playerValid.
  - by apply wellFormed_playerValid, hitCallback_wellFormed.
Qed.

Lemma player_on_open_cell_witness :
  playerValid nearExit
  ∧ (∀ dx dy r, ∃ g' r', movePlayer dx dy nearExit r = Some (g', r') ∧ playerValid g')
  ∧ (∀ i dest, teleporterPositions nearExit !! i = Some dest →
               playerValid (setPlayerPosition dest (setCanTeleport false nearExit)))
  ∧ (∀ r, ∃ g' r', regenerateMazeFromPlayerPosition nearExit r = Some (g', r')
                   ∧ playerValid g')
  ∧ playerValid (hitCallback nearExit).
Proof.
  apply (player_on_open_cell nearExit).
  apply (runEvents_reachable [] (tail toTheExit) initialGame).
  vm_compute. reflexivity.
Defined.

Lemma adjacent_cases (p q : Pos) :
  adjacent q p →
  q = (p.1 - 1, p.2) ∨ q = (p.1 + 1, p.2) ∨ q = (p.1, p.2 - 1) ∨ q = (p.1, p.2 + 1).
Proof.
  destruct p as [px py], q as [qx qy]. unfold adjacent; simpl. intros H.
  assert (qx = px - 1 ∧ qy = py ∨ qx = px + 1 ∧ qy = py
          ∨ qx = px ∧ qy = py - 1 ∨ qx = px ∧ qy = py + 1)
    as [[-> ->]|[[-> ->]|[[-> ->]|[-> ->]]]] by lia; tauto.
Qed.

(** C1 fails on the code.  A game that the handlers can produce: level 10
    is loaded with an icon on the cell (12,12), which the wall-removal
    pass had opened, and the player walks to the cell below it.  The move
    onto the icon regenerates the maze; under [sealingOutcome] the new
    grid has walls on all four sides of (12,12).  The code opens the
    player's own cell and nothing around it, so no path of non-wall cells
    leads from the new Exit (23,23) to the player. *)
Theorem regeneration_seals_player :
  runEvents toTheIcon initialGame = Some belowIcon
  ∧ reachable belowIcon
  ∧ level belowIcon = 10
  ∧ playerPosition belowIcon = (12, 13)
  ∧ regenerateIconPositions belowIcon = [(12, 12); (10, 1); (11, 1); (12, 1)]
  ∧ movePlayer 0 (-1) belowIcon sealingOutcome = Some (sealed, [])
  ∧ playerPosition sealed = (12, 12)
  ∧ cellAt (maze sealed) 12 12 = Some Start
  ∧ cellAt (maze sealed) 23 23 = Some Exit
  ∧ (∀ q, adjacent q (12, 12) → nonWall (maze sealed) q = false)
  ∧ ¬ connected (maze sealed) (23, 23) (playerPosition sealed).
Proof.
  assert (Hrun : runEvents toTheIcon initialGame = Some belowIcon)
    by (vm_compute; reflexivity).
  assert (Hp : playerPosition sealed = (12, 12)) by (vm_compute; reflexivity).
  assert (H1 : nonWall (maze sealed) (11, 12) = false) by (vm_compute; reflexivity).
  assert (H2 : nonWall (maze sealed) (13, 12) = false) by (vm_compute; reflexivity).
  assert (H3 : nonWall (maze sealed) (12, 11) = false) by (vm_compute; reflexivity).
  assert (H4 : nonWall (maze sealed) (12, 13) = false) by (vm_compute; reflexivity).
  assert (Hwalls : ∀ q, adjacent q (12, 12) → nonWall (maze sealed) q = false).
  { intros q Hq. apply adjacent_cases in Hq. cbn [fst snd] in Hq.
    change (12 - 1) with 11 in Hq. change (12 + 1) with 13 in Hq.
    destruct Hq as [-> | [-> | [-> | ->]]]; assumption. }
  split; [exact Hrun|].
  split; [exact (runEvents_reachable [] (tail toTheIcon) initialGame _ Hrun)|].
  split; [vm_compute; reflexivity|]. split; [vm_compute; reflexivity|].
  split; [vm_compute; reflexivity|]. split; [vm_compute; reflexivity|].
  split; [exact Hp|].
  split; [vm_compute; reflexivity|]. split; [vm_compute; reflexivity|].
  split; [exact Hwalls|].
  rewrite Hp. intros Hconn.
  apply connected_last_step in Hconn as (n & Hadj & Hn); [|discriminate].
  rewrite (Hwalls n Hadj) in Hn. discriminate Hn.
Qed.


(** * Further properties of the code *)

(** ** Maze generation *)

Lemma adjacent_sym p q : adjacent p q → adjacent q p.
Proof. unfold adjacent. lia. Qed.

Lemma connected_sym m a b : connected m a b → connected m b a.
Proof.
  induction 1 as [Ha|b c Hab IH Hadj Hc]; [by constructor|].
  eapply connected_trans; [|exact IH].
  eapply connected_step; [by apply connected_here|by apply adjacent_sym|].
  by eapply connected_end_nonWall.
Qed.

(** X1.  For every level of at least 1 and every random outcome, the grid
    that [generateMaze] returns has no closed-off pocket: every cell with
    two odd coordinates inside the frame is open, and any two open cells
    are joined by a path of open cells. *)
Theorem generateMaze_no_pockets level r :
  1 ≤ level →
  ∃ grid r',
    generateMaze level r = Some (grid, r')
    ∧ (∀ p, lattice (mazeSize level) p → nonWall grid p = true)
    ∧ (∀ p q, nonWall grid p = true → nonWall grid q = true → connected grid p q).
Proof.
  intros Hl.
  destruct (generateMaze_generated level r Hl)
    as (grid & r' & Hrun & _ & _ & _ & _ & Hlat & Hconn).
  exists grid, r'. split; [done|]. split; [done|].
  intros p q Hp Hq. eapply connected_trans; [|by apply Hconn].
  by apply connected_sym, Hconn.
Qed.

Lemma generateMaze_no_pockets_witness :
  ∃ grid r',
    generateMaze 2 [4; 1; 3; 0; 2]%nat = Some (grid, r')
    ∧ (∀ p, lattice (mazeSize 2) p → nonWall grid p = true)
    ∧ (∀ p q, nonWall grid p = true → nonWall grid q = true → connected grid p q).
Proof. apply (generateMaze_no_pockets 2 [4; 1; 3; 0; 2]%nat). lia. Defined.

(** *** The frame stays closed *)

(** [frame size m m']: outside the interior the two grids agree. *)
Lemma interior_mid size cx cy dx dy :
  interior size (cx, cy) → (dx, dy) ∈ carveDirections →
  interior size (cx + dx, cy + dy) →
  interior size (cx + dx - dx / 2, cy + dy - dy / 2).
Proof.
  unfold interior; simpl. intros Hc Hd Hn.
  apply carveDirections_cases in Hd.
  destruct Hd as [Hd|[Hd|[Hd|Hd]]]; simplify_eq;
    change (-2 / 2) with (-1); change (2 / 2) with 1; change (0 / 2) with 0; lia.
Qed.

Lemma cellAt_setCell_frame size m x y c x' y' :
  interior size (x, y) → ¬ interior size (x', y') →
  cellAt (setCell m x y c) x' y' = cellAt m x' y'.
Proof. intros Hin Hout. apply cellAt_setCell_ne. intros [= -> ->]. done. Qed.

Section CarveFrame.
Variable size : Z.
Variable rec : Maze → Z → Z → Rng → option (Maze * Rng).
Hypothesis rec_frame : ∀ m nx ny r m' r',
  interior size (nx, ny) → rec m nx ny r = Some (m', r') →
  ∀ x y, ¬ interior size (x, y) → cellAt m' x y = cellAt m x y.

Lemma carveLoop_frame cx cy dirs :
  interior size (cx, cy) →
  (∀ d, d ∈ dirs → d ∈ carveDirections) →
  ∀ m r m' r',
    carveLoop rec size cx cy dirs m r = Some (m', r') →
    ∀ x y, ¬ interior size (x, y) → cellAt m' x y = cellAt m x y.
Proof.
  intros Hc. induction dirs as [|[dx dy] dirs IH]; intros Hdirs m r m' r' Hrun x y Hout.
  { simpl in Hrun. by simplify_eq. }
  assert (Hd : (dx, dy) ∈ carveDirections) by (apply Hdirs; left).
  assert (Hdirs' : ∀ d, d ∈ dirs → d ∈ carveDirections)
    by (intros; apply Hdirs; by right).
  specialize (IH Hdirs').
  simpl in Hrun.
  destruct ((0 <? cy + dy) && (cy + dy <? size - 1)
            && (0 <? cx + dx) && (cx + dx <? size - 1)) eqn:Hbounds;
    cbn [andb] in Hrun; [|by eapply IH].
  destruct (isWall (cellAt m (cx + dx) (cy + dy))); [|by eapply IH].
  assert (Hn : interior size (cx + dx, cy + dy)) by (unfold interior; simpl; lia).
  pose proof (interior_mid _ _ _ _ _ Hc Hd Hn) as Hmid.
  destruct (rec _ (cx + dx) (cy + dy) r) as [[m3 r3]|] eqn:Hrec; [|done].
  rewrite (IH _ _ _ _ Hrun x y Hout).
  rewrite (rec_frame _ _ _ _ _ _ Hn Hrec x y Hout).
  by apply (cellAt_setCell_frame size).
Qed.
End CarveFrame.

Lemma carve_frame size fuel : ∀ m cx cy r m' r',
  interior size (cx, cy) →
  carve fuel size m cx cy r = Some (m', r') →
  ∀ x y, ¬ interior size (x, y) → cellAt m' x y = cellAt m x y.
Proof.
  induction fuel as [|fuel IH]; intros m cx cy r m' r' Hc Hrun x y Hout; [done|].
  simpl in Hrun.
  destruct (shuffle carveDirections r) as [dirs r1] eqn:Hsh.
  rewrite (carveLoop_frame size (carve fuel size) IH cx cy dirs Hc) with (3 := Hout)
    (2 := Hrun).
  - by apply (cellAt_setCell_frame size).
  - intros d Hd. rewrite <- (elem_of_shuffle carveDirections r d). by rewrite Hsh.
Qed.

Lemma removeWalls_frame size n : ∀ m r,
  2 < size → squareOf size m →
  ∀ x y, ¬ interior size (x, y) →
    cellAt (removeWalls n size m r).1 x y = cellAt m x y.
Proof.
  induction n as [|n IH]; intros m r Hsize Hsq x y Hout; [done|].
  simpl.
  pose proof (randInt_lt (Z.to_nat (size - 2)) r ltac:(lia)) as Ha.
  destruct (randInt _ r) as [a r1]. simpl in Ha.
  pose proof (randInt_lt (Z.to_nat (size - 2)) r1 ltac:(lia)) as Hb.
  destruct (randInt _ r1) as [b r2]. simpl in Hb.
  destruct (removeWallAt_cases size m (Z.of_nat a + 1) (Z.of_nat b + 1) Hsq)
    as [->|[_ ->]]; [by apply IH|].
  rewrite IH; [|done|by apply squareOf_setCell|done].
  apply (cellAt_setCell_frame size); [|done]. unfold interior; simpl. lia.
Qed.

(** X2.  For every level of at least 1 and every random outcome, every
    cell on the outer frame of the generated grid is a Wall, and the grid
    holds exactly one Start cell and one Exit cell: every cell other than
    (1,1) and (size-2, size-2) is a Wall or a Path. *)
Theorem generateMaze_frame level r :
  1 ≤ level →
  ∃ grid r',
    generateMaze level r = Some (grid, r')
    ∧ (∀ p, onBorder (mazeSize level) p → cellAt grid p.1 p.2 = Some Wall)
    ∧ (∀ x y c, cellAt grid x y = Some c →
         (c = Start ↔ (x, y) = (1, 1))
         ∧ (c = Exit ↔ (x, y) = (mazeSize level - 2, mazeSize level - 2))).
Proof.
  intros Hl. destruct (mazeSize_bounds level Hl) as [Hsize Hodd].
  destruct (generateMaze_generated level r Hl)
    as (grid & r' & Hrun & Hsq & Hstart & Hexit & Hcells & _).
  exists grid, r'. split; [done|]. split.
  - intros [x y] [Hin Hedge]. simpl in *.
    assert (Hout : ¬ interior (mazeSize level) (x, y))
      by (unfold interior; simpl; lia).
    unfold generateMaze in Hrun. fold (mazeSize level) in Hrun.
    set (size := mazeSize level) in *.
    destruct (carve _ size _ 1 1 r) as [[m1 r1]|] eqn:Hcarve; [|done].
    assert (Hc : carved size m1)
      by (eapply carved_of_carve; [|done|exact Hcarve]; lia).
    pose proof (removeWalls_frame size (removalIterations size level) m1 r1
                  ltac:(lia) (proj1 Hc) x y Hout) as Hrem.
    destruct (removeWalls _ size m1 r1) as [m2 r2]. simpl in Hrem.
    simplify_eq.
    rewrite !(cellAt_setCell_frame size), Hrem by (done || unfold interior; simpl; lia).
    assert (Hone : interior size (1, 1)) by (unfold interior; simpl; lia).
    rewrite (carve_frame size _ _ _ _ _ _ _ Hone Hcarve) by done.
    destruct (cellAt_inside size (blankMaze size) x y (squareOf_blankMaze size) Hin)
      as [c Hcell].
    rewrite Hcell. f_equal. by eapply cellAt_blankMaze.
  - intros x y c Hc.
    destruct (decide ((x, y) = (1, 1))) as [Heq|Hne1].
    { injection Heq as -> ->. rewrite Hstart in Hc. injection Hc as <-.
      split; [done|]. split; [done|]. intros [= ?]. lia. }
    destruct (decide ((x, y) = (mazeSize level - 2, mazeSize level - 2))) as [Heq|Hne2].
    { injection Heq as -> ->. rewrite Hexit in Hc. injection Hc as <-.
      split; [|done]. split; [done|]. intros [= ?]. lia. }
    destruct (Hcells x y c Hc Hne1 Hne2) as [->| ->]; split; split; done.
Qed.

Lemma generateMaze_frame_witness :
  ∃ grid r',
    generateMaze 1 [1; 2; 0]%nat = Some (grid, r')
    ∧ (∀ p, onBorder (mazeSize 1) p → cellAt grid p.1 p.2 = Some Wall)
    ∧ (∀ x y c, cellAt grid x y = Some c →
         (c = Start ↔ (x, y) = (1, 1))
         ∧ (c = Exit ↔ (x, y) = (mazeSize 1 - 2, mazeSize 1 - 2))).
Proof. apply (generateMaze_frame 1 [1; 2; 0]%nat). lia. Defined.


(** *** The shuffle *)

Lemma swap_Permutation {A} (l : list A) i j : swap l i j ≡ₚ l.
Proof.
  destruct (l !! i) as [vi|] eqn:Hi; [|by unfold swap; rewrite Hi].
  destruct (l !! j) as [vj|] eqn:Hj; [|by unfold swap; rewrite Hi, Hj].
  apply Permutation_inj. split.
  { unfold swap. rewrite Hi, Hj. by rewrite !length_insert. }
  exists (λ k, if decide (k = j) then i else if decide (k = i) then j else k).
  split.
  - intros a b Hab. repeat case_decide; congruence.
  - intros k. apply (swap_lookup _ _ _ _ _ _ Hi Hj).
Qed.

Lemma shuffleFrom_Permutation {A} i : ∀ (l : list A) r, (shuffleFrom i l r).1 ≡ₚ l.
Proof.
  induction i as [|i IH]; intros l r; [done|].
  simpl. destruct (randInt (S (S i)) r) as [j r'].
  by rewrite IH, swap_Permutation.
Qed.

Lemma shuffleFrom_draws {A} i : ∀ (l : list A) r, (shuffleFrom i l r).2 = drop i r.
Proof.
  induction i as [|i IH]; intros l r; [done|].
  simpl. destruct r as [|k r]; simpl; rewrite IH; [by rewrite drop_nil|done].
Qed.

(** X3.  The shuffle at the head of [carve] only reorders: for every list
    and every random outcome the result is a permutation of the input, and
    a list of [n] elements costs [n - 1] draws. *)
Theorem shuffle_Permutation {A} (l : list A) r :
  (shuffle l r).1 ≡ₚ l ∧ (shuffle l r).2 = drop (length l - 1) r.
Proof.
  split; [apply shuffleFrom_Permutation|apply shuffleFrom_draws].
Qed.


(** ** Entity placement *)

Lemma pickCells_keep count height width keep r p :
  p ∈ (pickCells count (scanCells height width keep) r).1 →
  0 ≤ p.2 < height ∧ 0 ≤ p.1 < width p.2 ∧ keep p.1 p.2 = true.
Proof. intros Hp%elem_of_pickCells. by apply elem_of_scanCells. Qed.

Lemma spawnEnemies_far lvl grid g r :
  let placed := enemies (spawnEnemies lvl grid g r).1 in
  NoDup placed ∧ Forall (λ p, 5 < manhattan p.1 p.2 (startPosition g)) placed.
Proof.
  cbv zeta. unfold spawnEnemies.
  destruct (lvl <? 15); [split; [apply NoDup_nil_2|done]|].
  match goal with |- context [pickCells ?c (scanCells ?h ?w ?k) r] =>
    pose proof (NoDup_pickCells c _ r (NoDup_scanCells h w k)) as Hnd;
    pose proof (λ p, pickCells_keep c h w k r p) as Hkeep;
    destruct (pickCells c (scanCells h w k) r) as [picked r'] end.
  simpl in *. split; [done|]. apply Forall_forall. intros p Hp.
  destruct (Hkeep p Hp) as (_ & _ & Hk). apply andb_true_iff in Hk as [_ Hk]. lia.
Qed.

Lemma spawnStalkers_far lvl grid g r :
  let placed := stalkers (spawnStalkers lvl grid g r).1 in
  NoDup placed ∧ Forall (λ p, 10 < manhattan p.1 p.2 (startPosition g)) placed.
Proof.
  cbv zeta. unfold spawnStalkers.
  destruct (lvl <? 25); [split; [apply NoDup_nil_2|done]|].
  match goal with |- context [pickCells ?c (scanCells ?h ?w ?k) r] =>
    pose proof (NoDup_pickCells c _ r (NoDup_scanCells h w k)) as Hnd;
    pose proof (λ p, pickCells_keep c h w k r p) as Hkeep;
    destruct (pickCells c (scanCells h w k) r) as [picked r'] end.
  simpl in *. split; [done|]. apply Forall_forall. intros p Hp.
  destruct (Hkeep p Hp) as (_ & _ & Hk). apply andb_true_iff in Hk as [_ Hk]. lia.
Qed.

Lemma spawnRegenerateIcons_far lvl grid g r :
  let placed := regenerateIconPositions (spawnRegenerateIcons lvl grid g r).1 in
  let size := mazeHeight grid in
  NoDup placed
  ∧ Forall (λ p, 8 < manhattan p.1 p.2 (startPosition g)
                 ∧ 8 < manhattan p.1 p.2 (size - 2, size - 2)) placed.
Proof.
  cbv zeta. unfold spawnRegenerateIcons.
  destruct (lvl <? 10); [split; [apply NoDup_nil_2|done]|].
  destruct (randInt 2 r) as [coin r1].
  match goal with |- context [pickCells ?c (scanCells ?h ?w ?k) r1] =>
    pose proof (NoDup_pickCells c _ r1 (NoDup_scanCells h w k)) as Hnd;
    pose proof (λ p, pickCells_keep c h w k r1 p) as Hkeep;
    destruct (pickCells c (scanCells h w k) r1) as [picked r'] end.
  simpl in *. split; [done|]. apply Forall_forall. intros p Hp.
  destruct (Hkeep p Hp) as (_ & _ & Hk).
  apply andb_true_iff in Hk as [[_ H1]%andb_true_iff H2]. lia.
Qed.

Lemma spawnTeleporters_clear lvl grid g r :
  let placed := teleporterPositions (spawnTeleporters lvl grid g r).1 in
  let size := mazeHeight grid in
  NoDup placed
  ∧ Forall (λ p, p ≠ startPosition g ∧ p ≠ (size - 2, size - 2)
                 ∧ p ∉ regenerateIconPositions g) placed.
Proof.
  cbv zeta. unfold spawnTeleporters.
  destruct (lvl <? 20); [split; [apply NoDup_nil_2|done]|].
  match goal with |- context [pickCells ?c (scanCells ?h ?w ?k) r] =>
    pose proof (NoDup_pickCells c _ r (NoDup_scanCells h w k)) as Hnd;
    pose proof (λ p, pickCells_keep c h w k r p) as Hkeep;
    destruct (pickCells c (scanCells h w k) r) as [picked r'] end.
  simpl in *. split; [done|]. apply Forall_forall. intros [x y] Hp.
  destruct (Hkeep _ Hp) as (_ & _ & Hk). simpl in Hk.
  apply andb_true_iff in Hk as [[[_ H1]%andb_true_iff H2]%andb_true_iff H3].
  apply negb_true_iff in H1, H2, H3.
  split; [by apply posEqb_neq|]. split; [by apply posEqb_neq|].
  intros Hin. apply existsb_posEqb_l in Hin. congruence.
Qed.

(** X4.  Enemies and stalkers are placed away from the start position:
    every enemy at a Manhattan distance of more than 5, every stalker of
    more than 10, and no two of a kind on the same cell. *)
Theorem guards_keep_distance lvl grid g r :
  let placedEnemies := enemies (spawnEnemies lvl grid g r).1 in
  let placedStalkers := stalkers (spawnStalkers lvl grid g r).1 in
  (NoDup placedEnemies
   ∧ Forall (λ p, 5 < manhattan p.1 p.2 (startPosition g)) placedEnemies)
  ∧ (NoDup placedStalkers
     ∧ Forall (λ p, 10 < manhattan p.1 p.2 (startPosition g)) placedStalkers).
Proof. split; [apply spawnEnemies_far|apply spawnStalkers_far]. Qed.

(** X5.  Regenerate icons are placed on distinct cells at a Manhattan
    distance of more than 8 from the start position and of more than 8
    from the exit corner (size-2, size-2). *)
Theorem icons_keep_distance lvl grid g r :
  let placed := regenerateIconPositions (spawnRegenerateIcons lvl grid g r).1 in
  let size := mazeHeight grid in
  NoDup placed
  ∧ Forall (λ p, 8 < manhattan p.1 p.2 (startPosition g)
                 ∧ 8 < manhattan p.1 p.2 (size - 2, size - 2)) placed.
Proof. apply spawnRegenerateIcons_far. Qed.

(** X6.  Teleporters are placed on distinct cells, never on the start
    position, never on the exit corner and never on a regenerate icon. *)
Theorem teleporters_avoid lvl grid g r :
  let placed := teleporterPositions (spawnTeleporters lvl grid g r).1 in
  let size := mazeHeight grid in
  NoDup placed
  ∧ Forall (λ p, p ≠ startPosition g ∧ p ≠ (size - 2, size - 2)
                 ∧ p ∉ regenerateIconPositions g) placed.
Proof. apply spawnTeleporters_clear. Qed.

(** *** Loading a level *)

Lemma scan_hosts (hosts : list Pos) height width keep :
  NoDup hosts →
  (∀ p, p ∈ hosts →
     0 ≤ p.2 < height ∧ 0 ≤ p.1 < width p.2 ∧ keep p.1 p.2 = true) →
  (length hosts ≤ length (scanCells height width keep))%nat.
Proof.
  intros Hnd Hall. apply submseteq_length, NoDup_submseteq; [done|].
  intros p Hp. apply elem_of_scanCells. by apply Hall.
Qed.

(** The corridor cells of row 1, right of the start cell, are Path cells. *)
Lemma rowOne_path size mz x :
  7 ≤ size → levelGrid size (1, 1) mz →
  Z.odd x = true → 3 ≤ x ≤ size - 2 → cellAt mz x 1 = Some Path.
Proof.
  intros Hsize (Hsq & Hstart & Hlat & Hcells) Hodd Hx.
  assert (Hp : lattice size (x, 1)) by (unfold lattice; simpl; repeat split; lia || done).
  pose proof (Hlat _ Hp) as Hopen. unfold nonWall in Hopen. simpl in Hopen.
  destruct (cellAt mz x 1) as [c|] eqn:Hc; [|done].
  destruct (Hcells _ _ _ Hc) as [->| ->]; try done.
  - intros [= ?]. lia.
  - unfold exitPosition. intros [= ? ?]. lia.
Qed.

Lemma spawnEnemies_count lvl mz g r :
  1 ≤ lvl → levelGrid (mazeSize lvl) (1, 1) mz → startPosition g = (1, 1) →
  Z.of_nat (length (enemies (spawnEnemies lvl mz g r).1))
  = (if lvl <? 15 then 0 else Z.min 4 ((lvl - 15) / 2 + 1)).
Proof.
  intros Hl Hgrid Hstart. unfold spawnEnemies.
  destruct (lvl <? 15) eqn:H15; [done|]. apply Z.ltb_ge in H15.
  assert (Hsize : 35 ≤ mazeSize lvl) by (unfold mazeSize; lia).
  rewrite Hstart, (mazeHeight_square (mazeSize lvl)) by (apply Hgrid || lia).
  match goal with |- context [pickCells ?c ?cells r] =>
    pose proof (pickCells_length c cells r) as Hlen;
    assert (Hhosts : (4 ≤ length cells)%nat);
    [|destruct (pickCells c cells r) as [picked r']] end.
  { etransitivity;
      [|apply (scan_hosts [(7, 1); (9, 1); (11, 1); (13, 1)])].
    - done.
    - apply (bool_decide_unpack (NoDup _)). by vm_compute.
    - intros p Hp. rewrite !elem_of_cons, elem_of_nil in Hp.
      destruct Hp as [-> | [-> | [-> | [-> | []]]]]; simpl;
        (split; [lia|]);
        (split; [rewrite (rowWidth_square (mazeSize lvl)) by (apply Hgrid || lia); lia|]);
        rewrite (rowOne_path (mazeSize lvl)) by (done || lia); done. }
  simpl in *. rewrite Hlen. unfold enemyCount.
  assert (0 ≤ (lvl - 15) / 2) by (apply Z.div_pos; lia). lia.
Qed.

Lemma spawnRegenerateIcons_count lvl mz g r :
  1 ≤ lvl → levelGrid (mazeSize lvl) (1, 1) mz → startPosition g = (1, 1) →
  let n := length (regenerateIconPositions (spawnRegenerateIcons lvl mz g r).1) in
  if lvl <? 10 then n = 0%nat else n = 4%nat ∨ n = 5%nat.
Proof.
  intros Hl Hgrid Hstart. unfold spawnRegenerateIcons.
  destruct (lvl <? 10) eqn:H10; [done|]. apply Z.ltb_ge in H10.
  assert (Hsize : 25 ≤ mazeSize lvl) by (unfold mazeSize; lia).
  rewrite Hstart, (mazeHeight_square (mazeSize lvl)) by (apply Hgrid || lia).
  destruct (randInt 2 r) as [coin r1].
  match goal with |- context [pickCells ?c ?cells r1] =>
    pose proof (pickCells_length c cells r1) as Hlen;
    assert (Hhosts : (5 ≤ length cells)%nat);
    [|destruct (pickCells c cells r1) as [picked r']] end.
  { etransitivity;
      [|apply (scan_hosts [(11, 1); (13, 1); (15, 1); (17, 1); (19, 1)])].
    - done.
    - apply (bool_decide_unpack (NoDup _)). by vm_compute.
    - intros p Hp. rewrite !elem_of_cons, elem_of_nil in Hp.
      destruct Hp as [-> | [-> | [-> | [-> | [-> | []]]]]]; simpl;
        (split; [lia|]); (split; [lia|]);
        rewrite (rowOne_path (mazeSize lvl)) by (done || lia);
        cbn [isPath andb]; apply andb_true_iff;
        split; apply Z.ltb_lt; unfold manhattan; cbn [fst snd]; lia. }
  simpl in *. rewrite Hlen. destruct (coin =? 0)%nat; lia.
Qed.

Lemma spawnTeleporters_count lvl mz g r :
  1 ≤ lvl → levelGrid (mazeSize lvl) (startPosition g) mz →
  (length (regenerateIconPositions g) ≤ 5)%nat →
  Z.of_nat (length (teleporterPositions (spawnTeleporters lvl mz g r).1))
  = (if lvl <? 20 then 0 else Z.min 14 (2 + (lvl - 20) / 4 * 2)).
Proof.
  intros Hl Hgrid Hregen. unfold spawnTeleporters.
  destruct (lvl <? 20) eqn:H20; [done|]. apply Z.ltb_ge in H20.
  pose proof (teleporter_cells lvl mz _ _ H20 Hgrid Hregen) as Hcells.
  simpl in Hcells.
  match goal with |- context [pickCells ?c ?cells r] =>
    pose proof (pickCells_length c cells r) as Hlen;
    destruct (pickCells c cells r) as [picked r'] end.
  simpl in *. rewrite Hlen. unfold teleporterCount.
  assert (0 ≤ (lvl - 20) / 4) by (apply Z.div_pos; lia). lia.
Qed.

Lemma spawnStalkers_count lvl mz g r :
  1 ≤ lvl → levelGrid (mazeSize lvl) (1, 1) mz → startPosition g = (1, 1) →
  length (stalkers (spawnStalkers lvl mz g r).1)
  = (if lvl <? 25 then 0%nat else 1%nat).
Proof.
  intros Hl Hgrid Hstart. unfold spawnStalkers.
  destruct (lvl <? 25) eqn:H25; [done|]. apply Z.ltb_ge in H25.
  assert (Hsize : 55 ≤ mazeSize lvl) by (unfold mazeSize; lia).
  rewrite Hstart, (mazeHeight_square (mazeSize lvl)) by (apply Hgrid || lia).
  match goal with |- context [pickCells ?c ?cells r] =>
    pose proof (pickCells_length c cells r) as Hlen;
    assert (Hhosts : (1 ≤ length cells)%nat);
    [|destruct (pickCells c cells r) as [picked r']] end.
  { etransitivity; [|apply (scan_hosts [(13, 1)])].
    - done.
    - apply NoDup_singleton.
    - intros p Hp. rewrite !elem_of_cons, elem_of_nil in Hp.
      destruct Hp as [-> | []]; simpl.
      split; [lia|]. split; [lia|].
      rewrite (rowOne_path (mazeSize lvl)) by (done || lia). done. }
  cbn [fst stalkers setStalkers] in *. rewrite Hlen.
  change (Z.to_nat stalkerCount) with 1%nat. lia.
Qed.

(** What [loadLevel] leaves behind, field by field. *)
Lemma loadLevel_shape lvl g r :
  1 ≤ lvl →
  ∃ mz r1 r2 r3 r4 r',
    let gS := setStartPosition (1, 1) (setCanTeleport true (setMaze mz g)) in
    let g0 := setPlayerPosition (startPosition gS) gS in
    let es := enemies (spawnEnemies lvl mz g0 r1).1 in
    let g1 := setEnemies es g0 in
    let icons := regenerateIconPositions (spawnRegenerateIcons lvl mz g1 r2).1 in
    let g2 := setRegenerateIconPositions icons g1 in
    let ts := teleporterPositions (spawnTeleporters lvl mz g2 r3).1 in
    let g3 := setTeleporterPositions ts g2 in
    let ss := stalkers (spawnStalkers lvl mz g3 r4).1 in
    generated (mazeSize lvl) mz
    ∧ loadLevel lvl g r = Some (setStalkers ss g3, r').
Proof.
  intros Hl. unfold loadLevel.
  destruct (randInt 12 r) as [colour r0].
  destruct (generateMaze_generated lvl r0 Hl) as (mz & r1 & -> & Hgen).
  destruct (mazeSize_bounds lvl Hl) as [Hsize Hodd].
  rewrite (findStart_generated (mazeSize lvl)) by (done || lia).
  exists mz, r1. cbv zeta.
  set (g0 := setPlayerPosition _ _).
  destruct (spawnEnemies_set lvl mz g0 r1) as (es & r2 & He).
  exists r2. rewrite He.
  change (enemies (setEnemies es g0, r2).1) with es.
  destruct (spawnRegenerateIcons_set lvl mz (setEnemies es g0) r2)
    as (icons & r3 & Hi & _).
  exists r3. rewrite Hi.
  change (regenerateIconPositions
            (setRegenerateIconPositions icons (setEnemies es g0), r3).1) with icons.
  destruct (spawnTeleporters_set lvl mz
              (setRegenerateIconPositions icons (setEnemies es g0)) r3)
    as (ts & r4 & Ht & _).
  exists r4. rewrite Ht.
  change (teleporterPositions
            (setTeleporterPositions ts
               (setRegenerateIconPositions icons (setEnemies es g0)), r4).1) with ts.
  destruct (spawnStalkers_set lvl mz
              (setTeleporterPositions ts
                 (setRegenerateIconPositions icons (setEnemies es g0))) r4)
    as (ss & r5 & Hs).
  exists r5. rewrite Hs. done.
Qed.

(** X7.  Loading a level of at least 1 places the full complement of
    entities, whatever the random outcome: [min(4, floor((level-15)/2)+1)]
    enemies from level 15 on, 4 or 5 regenerate icons from level 10 on,
    [min(14, 2 + floor((level-20)/4)*2)] teleporters from level 20 on and
    one stalker from level 25 on; none of a kind below its level. *)
Theorem loadLevel_entity_counts lvl g r :
  1 ≤ lvl →
  ∃ g' r',
    loadLevel lvl g r = Some (g', r')
    ∧ Z.of_nat (length (enemies g'))
      = (if lvl <? 15 then 0 else Z.min 4 ((lvl - 15) / 2 + 1))
    ∧ (if lvl <? 10 then regenerateIconPositions g' = []
       else length (regenerateIconPositions g') = 4%nat
            ∨ length (regenerateIconPositions g') = 5%nat)
    ∧ Z.of_nat (length (teleporterPositions g'))
      = (if lvl <? 20 then 0 else Z.min 14 (2 + (lvl - 20) / 4 * 2))
    ∧ length (stalkers g') = (if lvl <? 25 then 0%nat else 1%nat).
Proof.
  intros Hl.
  destruct (loadLevel_shape lvl g r Hl) as (mz & r1 & r2 & r3 & r4 & r' & Hgen & Hrun).
  cbv zeta in Hrun. eexists _, _. split; [exact Hrun|].
  pose proof (levelGrid_of_generated _ _ Hgen) as Hgrid.
  cbn [enemies regenerateIconPositions teleporterPositions stalkers
       setStalkers setTeleporterPositions setRegenerateIconPositions setEnemies].
  split; [by apply spawnEnemies_count|].
  split.
  { match goal with |- context [spawnRegenerateIcons lvl mz ?g1 r2] =>
      pose proof (spawnRegenerateIcons_count lvl mz g1 r2 Hl Hgrid eq_refl) as Hn end.
    cbv zeta in Hn. destruct (lvl <? 10); [|done].
    by apply nil_length_inv. }
  split; [|by apply spawnStalkers_count].
  apply spawnTeleporters_count; [done|done|].
  cbn [regenerateIconPositions setRegenerateIconPositions].
  match goal with |- context [spawnRegenerateIcons lvl mz ?g1 r2] =>
    pose proof (spawnRegenerateIcons_spec lvl mz g1 r2) as [_ Hn] end.
  destruct (lvl <? 10); lia.
Qed.

Lemma loadLevel_entity_counts_witness :
  ∃ g' r',
    loadLevel 17 initialGame [2; 7; 1; 8]%nat = Some (g', r')
    ∧ Z.of_nat (length (enemies g'))
      = (if 17 <? 15 then 0 else Z.min 4 ((17 - 15) / 2 + 1))
    ∧ (if 17 <? 10 then regenerateIconPositions g' = []
       else length (regenerateIconPositions g') = 4%nat
            ∨ length (regenerateIconPositions g') = 5%nat)
    ∧ Z.of_nat (length (teleporterPositions g'))
      = (if 17 <? 20 then 0 else Z.min 14 (2 + (17 - 20) / 4 * 2))
    ∧ length (stalkers g') = (if 17 <? 25 then 0%nat else 1%nat).
Proof. apply (loadLevel_entity_counts 17 initialGame [2; 7; 1; 8]%nat). lia. Defined.

(** X8.  Loading a level of at least 1 puts the player on the start cell
    (1,1) with teleporting enabled and leaves level, score, timer, status
    and the player-hit flag as they were; and nothing is placed near the
    player: every enemy is more than 5 steps away, the stalker more than
    10, every regenerate icon more than 8, and no teleporter lies on the
    player's cell or on an icon. *)
Theorem loadLevel_safe_start lvl g r :
  1 ≤ lvl →
  ∃ g' r',
    loadLevel lvl g r = Some (g', r')
    ∧ playerPosition g' = (1, 1) ∧ startPosition g' = (1, 1)
    ∧ cellAt (maze g') 1 1 = Some Start
    ∧ canTeleport g' = true
    ∧ level g' = level g ∧ score g' = score g ∧ timer g' = timer g
    ∧ gameStatus g' = gameStatus g ∧ playerHit g' = playerHit g
    ∧ Forall (λ p, 5 < manhattan p.1 p.2 (playerPosition g')) (enemies g')
    ∧ Forall (λ p, 10 < manhattan p.1 p.2 (playerPosition g')) (stalkers g')
    ∧ Forall (λ p, 8 < manhattan p.1 p.2 (playerPosition g'))
        (regenerateIconPositions g')
    ∧ Forall (λ p, p ≠ playerPosition g' ∧ p ∉ regenerateIconPositions g')
        (teleporterPositions g').
Proof.
  intros Hl.
  destruct (loadLevel_shape lvl g r Hl) as (mz & r1 & r2 & r3 & r4 & r' & Hgen & Hrun).
  cbv zeta in Hrun. eexists _, _. split; [exact Hrun|].
  split; [done|]. split; [done|]. split; [apply Hgen|].
  split; [done|]. split; [done|]. split; [done|]. split; [done|].
  split; [done|]. split; [done|].
  cbn [enemies regenerateIconPositions teleporterPositions stalkers playerPosition
       setStalkers setTeleporterPositions setRegenerateIconPositions setEnemies].
  split.
  { match goal with |- context [spawnEnemies lvl mz ?g0 r1] =>
      pose proof (spawnEnemies_far lvl mz g0 r1) as [_ Hfar] end.
    exact Hfar. }
  split.
  { match goal with |- context [spawnStalkers lvl mz ?g3 r4] =>
      pose proof (spawnStalkers_far lvl mz g3 r4) as [_ Hfar] end.
    exact Hfar. }
  split.
  { match goal with |- context [spawnRegenerateIcons lvl mz ?g1 r2] =>
      pose proof (spawnRegenerateIcons_far lvl mz g1 r2) as [_ Hfar] end.
    cbv zeta in Hfar. eapply Forall_impl; [exact Hfar|]. by intros p [? _]. }
  match goal with |- context [spawnTeleporters lvl mz ?g2 r3] =>
    pose proof (spawnTeleporters_clear lvl mz g2 r3) as [_ Hclear] end.
  cbv zeta in Hclear. eapply Forall_impl; [exact Hclear|]. by intros p (? & _ & ?).
Qed.

Lemma loadLevel_safe_start_witness :
  ∃ g' r',
    loadLevel 26 initialGame [3; 1; 4; 1; 5; 9]%nat = Some (g', r')
    ∧ playerPosition g' = (1, 1) ∧ startPosition g' = (1, 1)
    ∧ cellAt (maze g') 1 1 = Some Start
    ∧ canTeleport g' = true
    ∧ level g' = level initialGame ∧ score g' = score initialGame
    ∧ timer g' = timer initialGame
    ∧ gameStatus g' = gameStatus initialGame ∧ playerHit g' = playerHit initialGame
    ∧ Forall (λ p, 5 < manhattan p.1 p.2 (playerPosition g')) (enemies g')
    ∧ Forall (λ p, 10 < manhattan p.1 p.2 (playerPosition g')) (stalkers g')
    ∧ Forall (λ p, 8 < manhattan p.1 p.2 (playerPosition g'))
        (regenerateIconPositions g')
    ∧ Forall (λ p, p ≠ playerPosition g' ∧ p ∉ regenerateIconPositions g')
        (teleporterPositions g').
Proof. apply (loadLevel_safe_start 26 initialGame [3; 1; 4; 1; 5; 9]%nat). lia. Defined.


(** ** Enemy movement *)

Lemma elem_of_possibleMoves mz player e (m : EnemyMove) :
  m ∈ possibleMoves mz player e
  ↔ ∃ d, d ∈ enemyDirections ∧ enterable mz (move e d) = true
         ∧ m = ((move e d).1, (move e d).2, directionPriority player e d).
Proof.
  unfold possibleMoves. rewrite list_elem_of_omap.
  split.
  - intros (d & Hd & Hm). exists d. split; [done|].
    unfold enterable, move; simpl.
    destruct (_ && _); [|done]. by simplify_eq.
  - intros (d & Hd & Hopen & ->). exists d. split; [done|].
    unfold enterable, move in Hopen; simpl in Hopen. by rewrite Hopen.
Qed.

Lemma insertByPriority_Permutation a l : insertByPriority a l ≡ₚ a :: l.
Proof.
  induction l as [|b l IH]; [done|]. simpl.
  destruct (b.2 <=? a.2); [done|]. rewrite IH. apply Permutation_swap.
Qed.

Lemma sortByPriority_Permutation l : sortByPriority l ≡ₚ l.
Proof.
  induction l as [|a l IH]; [done|]. simpl.
  by rewrite insertByPriority_Permutation, IH.
Qed.

(** The head of the sorted list has the highest priority. *)
Lemma sortByPriority_head l :
  match sortByPriority l with
  | [] => l = []
  | best :: _ => ∀ m, m ∈ l → m.2 ≤ best.2
  end.
Proof.
  induction l as [|a l IH]; [done|]. simpl.
  destruct (sortByPriority l) as [|b s] eqn:Hs.
  - subst l. simpl. intros m Hm. apply list_elem_of_singleton in Hm. by subst.
  - simpl. destruct (b.2 <=? a.2) eqn:Hba.
    + apply Z.leb_le in Hba. intros m [->|Hm]%elem_of_cons; [done|].
      specialize (IH m Hm). lia.
    + apply Z.leb_gt in Hba. intros m [->|Hm]%elem_of_cons; [lia|]. by apply IH.
Qed.

(** One enemy: either it has no neighbour to enter and stays, or it enters
    a neighbour of the highest priority among those it can enter. *)
Lemma enemyStep_spec mz player e r :
  let e' := (enemyStep mz player e r).1 in
  ((∀ d, d ∈ enemyDirections → enterable mz (move e d) = false) ∧ e' = e)
  ∨ (∃ d, d ∈ enemyDirections ∧ e' = move e d ∧ enterable mz e' = true
          ∧ ∀ d', d' ∈ enemyDirections → enterable mz (move e d') = true →
                  directionPriority player e d' ≤ directionPriority player e d).
Proof.
  cbv zeta. unfold enemyStep.
  pose proof (sortByPriority_head (possibleMoves mz player e)) as Hhead.
  pose proof (sortByPriority_Permutation (possibleMoves mz player e)) as Hperm.
  destruct (sortByPriority (possibleMoves mz player e)) as [|best sorted] eqn:Hs.
  { left. split; [|done]. intros d Hd.
    destruct (enterable mz (move e d)) eqn:Hopen; [|done].
    assert (Hin : ((move e d).1, (move e d).2, directionPriority player e d)
                  ∈ possibleMoves mz player e)
      by (apply elem_of_possibleMoves; eauto).
    rewrite Hhead in Hin. by apply elem_of_nil in Hin. }
  right.
  set (bestMoves := filter (λ m : EnemyMove, m.2 = best.2) (best :: sorted)).
  assert (Hne : (0 < length bestMoves)%nat).
  { unfold bestMoves. rewrite filter_cons_True by done. simpl. lia. }
  pose proof (randInt_lt (length bestMoves) r Hne) as Hk.
  destruct (randInt (length bestMoves) r) as [k r']. simpl in Hk.
  destruct (lookup_lt_is_Some_2 bestMoves k Hk) as [chosen Hchosen].
  rewrite Hchosen. simpl.
  apply list_elem_of_lookup_2 in Hchosen.
  apply list_elem_of_filter in Hchosen as [Hprio Hin].
  rewrite Hperm in Hin.
  apply elem_of_possibleMoves in Hin as (d & Hd & Hopen & ->).
  simpl in Hprio. exists d. split; [done|].
  split; [by destruct (move e d)|]. split; [by destruct (move e d)|].
  intros d' Hd' Hopen'. rewrite Hprio.
  apply (Hhead ((move e d').1, (move e d').2, directionPriority player e d')).
  apply elem_of_possibleMoves. eauto.
Qed.

Lemma enemyDirections_cases d :
  d ∈ enemyDirections → d = (0, -1) ∨ d = (0, 1) ∨ d = (-1, 0) ∨ d = (1, 0).
Proof. unfold enemyDirections. rewrite !elem_of_cons, elem_of_nil. tauto. Qed.

(** X9.  An enemy tick keeps the number and the order of the enemies, and
    moves each of them by the rules of the maze: an enemy with no
    neighbour to enter stays where it is; any other enemy steps to one of
    its four neighbours, inside the grid and not a Wall, and no neighbour
    it could have entered has a higher priority than the one it takes. *)
Theorem enemies_move_validly mz player es r :
  Forall2
    (λ e e',
       ((∀ d, d ∈ enemyDirections → enterable mz (move e d) = false) ∧ e' = e)
       ∨ (∃ d, d ∈ enemyDirections ∧ e' = move e d ∧ adjacent e e'
               ∧ enterable mz e' = true
               ∧ ∀ d', d' ∈ enemyDirections → enterable mz (move e d') = true →
                       directionPriority player e d' ≤ directionPriority player e d))
    es (newEnemyPositions mz player es r).1.
Proof.
  revert r. induction es as [|e es IH]; intros r; [constructor|].
  simpl. pose proof (enemyStep_spec mz player e r) as He.
  destruct (enemyStep mz player e r) as [e' r1]. simpl in He.
  specialize (IH r1). destruct (newEnemyPositions mz player es r1) as [ps r2].
  simpl in *. constructor; [|done].
  destruct He as [?|(d & Hd & -> & Hopen & Hbest)]; [by left|right].
  exists d. split; [done|]. split; [done|]. split; [|done].
  apply enemyDirections_cases in Hd. unfold adjacent, move.
  destruct Hd as [-> | [-> | [-> | ->]]]; simpl; lia.
Qed.

(** *** Chasing *)

Lemma towardPlayer_direction player e :
  e ≠ player →
  ∃ d, d ∈ enemyDirections ∧ towardPlayer player e = move e d
       ∧ directionPriority player e d = 2
       ∧ ∀ d', d' ∈ enemyDirections → directionPriority player e d' = 2 → d' = d.
Proof.
  intros Hne. destruct e as [x y], player as [px py].
  unfold towardPlayer, directionPriority, movePriority, move. simpl.
  assert (px - x ≠ 0 ∨ py - y ≠ 0) as Hdiff.
  { destruct (decide (px - x = 0)); [|by left]. right. intros ?.
    apply Hne. f_equal; lia. }
  destruct (Z.abs (py - y) <? Z.abs (px - x)) eqn:Hcmp.
  - apply Z.ltb_lt in Hcmp.
    exists (Z.sgn (px - x), 0). simpl.
    assert (Hs : Z.sgn (px - x) = 1 ∨ Z.sgn (px - x) = -1) by lia.
    split; [unfold enemyDirections; rewrite !elem_of_cons; destruct Hs as [-> | ->]; tauto|].
    split; [f_equal; lia|].
    split.
    { destruct Hs as [Hs|Hs]; rewrite Hs; done. }
    intros d' Hd'%enemyDirections_cases.
    destruct Hd' as [-> | [-> | [-> | ->]]]; cbn [fst snd];
      repeat (match goal with |- context [?a =? ?b] => destruct (Z.eqb_spec a b) end;
              cbn [negb andb]); try done; intros _; f_equal; simpl in *; lia.
  - apply Z.ltb_ge in Hcmp.
    assert (py - y ≠ 0) by lia.
    exists (0, Z.sgn (py - y)). simpl.
    assert (Hs : Z.sgn (py - y) = 1 ∨ Z.sgn (py - y) = -1) by lia.
    split; [unfold enemyDirections; rewrite !elem_of_cons; destruct Hs as [-> | ->]; tauto|].
    split; [f_equal; lia|].
    split.
    { destruct Hs as [Hs|Hs]; rewrite Hs; done. }
    intros d' Hd'%enemyDirections_cases.
    destruct Hd' as [-> | [-> | [-> | ->]]]; cbn [fst snd];
      repeat (match goal with |- context [?a =? ?b] => destruct (Z.eqb_spec a b) end;
              cbn [negb andb]); try done; intros _; f_equal; simpl in *; lia.
Qed.

Lemma directionPriority_le player e d : directionPriority player e d ≤ 2.
Proof.
  unfold directionPriority, movePriority.
  repeat match goal with |- context [if ?b then _ else _] => destruct b end; lia.
Qed.

(** X10.  An enemy that is not on the player's cell and can enter the
    neighbour that lies straight towards the player (along the axis on
    which they are further apart, the vertical one on a tie) always steps
    there, whatever the random outcome, and so comes one step closer. *)
Theorem enemy_steps_toward_player mz player e r :
  e ≠ player → enterable mz (towardPlayer player e) = true →
  (enemyStep mz player e r).1 = towardPlayer player e
  ∧ manhattan player.1 player.2 (towardPlayer player e)
    = manhattan player.1 player.2 e - 1.
Proof.
  intros Hne Hopen. split.
  - destruct (towardPlayer_direction player e Hne) as (d & Hd & Heq & Hp & Huniq).
    destruct (enemyStep_spec mz player e r) as [[Hnone _]|(d' & Hd' & -> & _ & Hbest)].
    { rewrite Heq in Hopen. rewrite (Hnone d Hd) in Hopen. done. }
    rewrite Heq in Hopen. specialize (Hbest d Hd Hopen).
    pose proof (directionPriority_le player e d').
    rewrite Heq. f_equal. apply Huniq; [done|lia].
  - destruct e as [x y], player as [px py]. unfold towardPlayer, manhattan. simpl.
    assert (px - x ≠ 0 ∨ py - y ≠ 0) as Hdiff.
    { destruct (decide (px - x = 0)); [|by left]. right. intros ?.
      apply Hne. f_equal; lia. }
    destruct (Z.abs (py - y) <? Z.abs (px - x)) eqn:Hcmp; simpl.
    + apply Z.ltb_lt in Hcmp. lia.
    + apply Z.ltb_ge in Hcmp. lia.
Qed.

Lemma enemy_steps_toward_player_witness :
  (enemyStep (maze nearExit) (1, 5) (1, 1) [7]%nat).1 = towardPlayer (1, 5) (1, 1)
  ∧ manhattan 1 5 (towardPlayer (1, 5) (1, 1)) = manhattan 1 5 (1, 1) - 1.
Proof.
  apply (enemy_steps_toward_player (maze nearExit) (1, 5) (1, 1) [7]%nat).
  - discriminate.
  - vm_compute. reflexivity.
Defined.


(** ** Stalker movement *)

Lemma walk_cons m a s q b : stepTo m a s → walk m s q b → walk m a (a :: q) b.
Proof.
  intros Hstep. induction 1 as [|path b c Hw IH Hbc].
  - apply (walk_step m a [a] a s); [constructor|done].
  - rewrite app_comm_cons. by eapply walk_step.
Qed.

Lemma walk_tail m a path b :
  walk m a path b → ∀ s rest, path = a :: s :: rest → walk m s (s :: rest) b.
Proof.
  induction 1 as [|path b c Hw IH Hbc]; intros s rest Heq; [done|].
  pose proof (walk_first _ _ _ _ Hw) as Hfirst.
  destruct path as [|a' [|s' rest']]; [done| |].
  - simpl in Heq. simplify_eq. constructor.
  - simpl in Heq, Hfirst. simplify_eq.
    change (s :: rest' ++ [c]) with ((s :: rest') ++ [c]).
    eapply walk_step; [|done]. by eapply IH.
Qed.

Lemma shortestWalk_front m a path b :
  shortestWalk m a path b → a ≠ b →
  ∃ s rest, path = a :: s :: rest ∧ stepTo m a s
            ∧ shortestWalk m s (s :: rest) b.
Proof.
  intros [Hw Hmin] Hne.
  pose proof (walk_first _ _ _ _ Hw) as Hfirst.
  destruct path as [|a' [|s rest]]; [done| |].
  - simpl in Hfirst. simplify_eq.
    exfalso. apply Hne. symmetry. by eapply walk_length_1.
  - simpl in Hfirst. simplify_eq. exists s, rest. split; [done|].
    assert (Hstep : stepTo m a s) by (by eapply walk_second).
    split; [done|]. split; [by eapply walk_tail|].
    intros q Hq. specialize (Hmin _ (walk_cons _ _ _ _ _ Hstep Hq)).
    simpl in *. lia.
Qed.

(** X11.  A stalker that is not on the player's cell and has a route to
    the player comes exactly one step closer with every tick: it moves to
    a neighbouring cell from which the shortest route to the player is one
    cell shorter than from where it stood. *)
Theorem stalker_closes_in m player s route :
  shortestWalk m s route player → s ≠ player →
  ∃ s' route',
    stalkerStep m player s = Some s'
    ∧ stepTo m s s'
    ∧ shortestWalk m s' route' player
    ∧ S (length route') = length route.
Proof.
  intros Hroute Hne.
  destruct (stalkerStep_spec m player s)
    as (s' & Hs & [(path & Hpath & ->)|[Hnone _]]).
  - destruct (shortestWalk_front m s path player Hpath Hne)
      as (s1 & rest & -> & Hstep & Hrest).
    exists s1, (s1 :: rest). split; [done|]. split; [done|]. split; [done|].
    pose proof (proj2 Hroute _ (proj1 Hpath)).
    pose proof (proj2 Hpath _ (proj1 Hroute)).
    simpl in *. lia.
  - destruct (Hnone route). apply Hroute.
Qed.

Lemma stalker_closes_in_witness :
  ∃ s' route',
    stalkerStep (maze nearExit) (1, 5) (1, 1) = Some s'
    ∧ stepTo (maze nearExit) (1, 1) s'
    ∧ shortestWalk (maze nearExit) s' route' (1, 5)
    ∧ S (length route') = length [(1, 1); (1, 2); (1, 3); (1, 4); (1, 5)].
Proof.
  apply (stalker_closes_in (maze nearExit) (1, 5) (1, 1)
           [(1, 1); (1, 2); (1, 3); (1, 4); (1, 5)]).
  - apply (bfs_correct (maze nearExit) (1, 1) (1, 5) (bfsFuel (maze nearExit))
             [(1, 1, [(1, 1)])] [(1, 1)]
             (Some [(1, 1); (1, 2); (1, 3); (1, 4); (1, 5)])).
    + apply bfsInv_initial.
    + apply NoDup_singleton.
    + vm_compute. reflexivity.
  - discriminate.
Defined.

(** How a stalker on the player's cell, or next to it, moves. *)
Lemma stalkerStep_reach m player s :
  s = player ∨ stepTo m s player → stalkerStep m player s = Some player.
Proof.
  intros Hnear.
  assert (Hshort : ∃ q, walk m s q player ∧ (length q ≤ 2)%nat).
  { destruct Hnear as [->|Hstep].
    - exists [player]. split; [constructor|simpl; lia].
    - exists ([s] ++ [player]). split; [|simpl; lia].
      eapply walk_step; [constructor|done]. }
  destruct Hshort as (q & Hq & Hlen).
  destruct (stalkerStep_spec m player s)
    as (s' & Hs & [(path & [Hw Hmin] & ->)|[Hnone _]]); [|by destruct (Hnone q)].
  rewrite Hs. f_equal.
  specialize (Hmin q Hq).
  pose proof (walk_first _ _ _ _ Hw) as Hfirst.
  pose proof (walk_last _ _ _ _ Hw) as Hlast.
  destruct path as [|a [|b [|c rest]]]; simpl in *; simplify_eq; try done; lia.
Qed.

Lemma mapM_stalkers m player (ss positions : list Pos) s :
  mapM (stalkerStep m player) ss = Some positions →
  s ∈ ss → stalkerStep m player s = Some player → player ∈ positions.
Proof.
  intros Hmap Hin Hstep. apply mapM_Some_1 in Hmap.
  apply list_elem_of_lookup in Hin as [i Hi].
  destruct (Forall2_lookup_l _ _ _ _ _ Hmap Hi) as (s' & Hs' & Heq).
  rewrite Hstep in Heq. simplify_eq. by eapply list_elem_of_lookup_2.
Qed.

Lemma newStalkerPositions_total m player ss :
  ∃ positions, newStalkerPositions m player ss = Some positions.
Proof.
  unfold newStalkerPositions.
  assert (∃ positions,
            Forall2 (λ s s', stalkerStep m player s = Some s') ss positions)
    as [ps Hps].
  { induction ss as [|a l [ps Hps]]; [by exists []|].
    destruct (stalkerStep_spec m player a) as (a' & Ha & _).
    exists (a' :: ps). by constructor. }
  exists ps. by apply mapM_Some_2.
Qed.

(** X12.  In a playing session with the player-hit flag clear, a stalker
    that stands on the player's cell or on a neighbouring cell from which
    it can step onto the player's cell catches the player on the next
    stalker tick: the game is over and the three tickers are stopped. *)
Theorem stalker_next_to_player_catches g r s :
  gameStatus g = Playing → playerHit g = false →
  s ∈ stalkers g →
  s = playerPosition g ∨ stepTo (maze g) s (playerPosition g) →
  ∃ positions,
    newStalkerPositions (maze g) (playerPosition g) (stalkers g) = Some positions
    ∧ moveStalkers g r = Some (stalkerCatch (setStalkers positions g), r)
    ∧ gameStatus (stalkerCatch (setStalkers positions g)) = GameOver
    ∧ timerInterval (stalkerCatch (setStalkers positions g)) = false
    ∧ enemyInterval (stalkerCatch (setStalkers positions g)) = false
    ∧ stalkersInterval (stalkerCatch (setStalkers positions g)) = false.
Proof.
  intros Hs Hh Hin Hnear.
  destruct (newStalkerPositions_total (maze g) (playerPosition g) (stalkers g))
    as [positions Hpos].
  exists positions.
  split; [done|]. split; [|done].
  unfold moveStalkers. rewrite Hpos. unfold newStalkerPositions in Hpos.
  destruct (stalkers g) as [|s0 ss] eqn:Hss; [by apply elem_of_nil in Hin|].
  simpl. apply checkGameState_stalker; [done..|]. simpl.
  eapply mapM_stalkers; [exact Hpos|exact Hin|].
  by apply stalkerStep_reach.
Qed.

Lemma stalker_next_to_player_catches_witness :
  ∃ positions,
    newStalkerPositions (maze (setStalkers [(1, 4)] ambush))
      (playerPosition (setStalkers [(1, 4)] ambush))
      (stalkers (setStalkers [(1, 4)] ambush)) = Some positions
    ∧ moveStalkers (setStalkers [(1, 4)] ambush) [2]%nat
      = Some (stalkerCatch (setStalkers positions (setStalkers [(1, 4)] ambush)),
              [2]%nat)
    ∧ gameStatus (stalkerCatch (setStalkers positions (setStalkers [(1, 4)] ambush)))
      = GameOver
    ∧ timerInterval (stalkerCatch (setStalkers positions (setStalkers [(1, 4)] ambush)))
      = false
    ∧ enemyInterval (stalkerCatch (setStalkers positions (setStalkers [(1, 4)] ambush)))
      = false
    ∧ stalkersInterval (stalkerCatch (setStalkers positions (setStalkers [(1, 4)] ambush)))
      = false.
Proof.
  apply (stalker_next_to_player_catches (setStalkers [(1, 4)] ambush) [2]%nat (1, 4)).
  - reflexivity.
  - reflexivity.
  - left.
  - right. split.
    + exists (0, 1). split; [|reflexivity].
      unfold stalkerDirections. left.
    + vm_compute. reflexivity.
Defined.


(** ** The resolver *)

(** The ways a call of [checkGameState] can end. *)
Lemma checkGameState_cases g r g' r' :
  checkGameState g r = Some (g', r') →
  (g' = g ∧ r' = r)
  ∨ (gameStatus g = Playing ∧ playerHit g = false
     ∧ ((g' = stalkerCatch g ∧ r' = r)
        ∨ (∃ dest, dest ∈ teleporterPositions g ∧ canTeleport g = true
                   ∧ g' = setPlayerPosition dest (setCanTeleport false g) ∧ r' = r)
        ∨ (∃ g0, (g0 = g ∨ g0 = setCanTeleport false g)
                 ∧ (regenerateMazeFromPlayerPosition g0 r = Some (g', r')
                    ∨ (g' = reachExit g0 ∧ r' = r)
                    ∨ (g' = enemyHit g0 ∧ r' = r)
                    ∨ (g' = g0 ∧ r' = r))))).
Proof.
  unfold checkGameState.
  destruct (bool_decide (gameStatus g = Playing)) eqn:Hs;
    [|intros Hrun; cbn [negb orb] in Hrun; simplify_eq; by left].
  apply bool_decide_eq_true in Hs.
  destruct (playerHit g) eqn:Hh;
    [intros Hrun; cbn [negb orb] in Hrun; simplify_eq; by left|].
  cbn [negb orb]. intros Hrun. right. split; [done|]. split; [done|].
  destruct (existsb _ (stalkers g)); [simplify_eq; by left|].
  right.
  set (tele := match findIndex _ _ with Some _ => _ | None => _ end) in Hrun.
  assert (Htele : match tele with
                  | inl g1 => ∃ dest, dest ∈ teleporterPositions g
                                      ∧ canTeleport g = true
                                      ∧ g1 = setPlayerPosition dest (setCanTeleport false g)
                  | inr g1 => g1 = g ∨ g1 = setCanTeleport false g
                  end).
  { unfold tele. destruct (findIndex _ _) as [i|]; [|by left].
    destruct (canTeleport g); [|by left].
    destruct (_ && _); [|by right].
    destruct (teleporterPositions g !! _) as [dest|] eqn:Hd; [|by right].
    exists dest. split; [by eapply list_elem_of_lookup_2|done]. }
  destruct tele as [g1|g1].
  { destruct Htele as (dest & ? & ? & ->). simplify_eq. left. by exists dest. }
  right. exists g1. split; [done|].
  destruct (existsb _ (regenerateIconPositions g1)); [by left|].
  destruct (negb (_ && _)); [done|].
  destruct (isExit _); [simplify_eq; right; by left|].
  destruct (existsb _ (enemies g1)); simplify_eq; right; right; [by left|by right].
Qed.

(** What a regeneration leaves behind, field by field. *)
Lemma regenerate_shape g r g' r' :
  regenerateMazeFromPlayerPosition g r = Some (g', r') →
  ∃ layout r1 r2 r3 r4,
    let mz := reanchor layout (playerPosition g) in
    let gS := setStartPosition (playerPosition g) (setMaze mz g) in
    let es := enemies (spawnEnemies (level g) mz gS r1).1 in
    let g1 := setEnemies es gS in
    let icons := regenerateIconPositions (spawnRegenerateIcons (level g) mz g1 r2).1 in
    let g2 := setRegenerateIconPositions icons g1 in
    let ts := teleporterPositions (spawnTeleporters (level g) mz g2 r3).1 in
    let g3 := setTeleporterPositions ts g2 in
    let ss := stalkers (spawnStalkers (level g) mz g3 r4).1 in
    generateMaze (level g) r = Some (layout, r1)
    ∧ g' = setStalkers ss g3.
Proof.
  unfold regenerateMazeFromPlayerPosition. intros Hrun.
  destruct (generateMaze (level g) r) as [[layout r1]|]; [|done].
  exists layout, r1. cbv zeta in Hrun.
  change (setCell _ (playerPosition g).1 (playerPosition g).2 Start)
    with (reanchor layout (playerPosition g)) in Hrun.
  match type of Hrun with context [spawnEnemies ?l ?m ?g0 ?r0] =>
    destruct (spawnEnemies_set l m g0 r0) as (es & r2 & He);
    rewrite He in Hrun; cbv beta iota in Hrun end.
  match type of Hrun with context [spawnRegenerateIcons ?l ?m ?g0 ?r0] =>
    destruct (spawnRegenerateIcons_set l m g0 r0) as (icons & r3 & Hi & _);
    rewrite Hi in Hrun; cbv beta iota in Hrun end.
  match type of Hrun with context [spawnTeleporters ?l ?m ?g0 ?r0] =>
    destruct (spawnTeleporters_set l m g0 r0) as (ts & r4 & Ht & _);
    rewrite Ht in Hrun; cbv beta iota in Hrun end.
  match type of Hrun with context [spawnStalkers ?l ?m ?g0 ?r0] =>
    destruct (spawnStalkers_set l m g0 r0) as (ss & r5 & Hs);
    rewrite Hs in Hrun; cbv beta iota in Hrun end.
  exists r2, r3, r4. cbv zeta. split; [done|].
  change (level (setStartPosition (playerPosition g)
                   (setMaze (reanchor layout (playerPosition g)) g)))
    with (level g) in He.
  rewrite He. change (enemies (setEnemies es ?x, r2).1) with es.
  change (level (setEnemies es ?x)) with (level g) in Hi.
  rewrite Hi.
  change (regenerateIconPositions (setRegenerateIconPositions icons ?x, r3).1) with icons.
  change (level (setRegenerateIconPositions icons ?x)) with (level g) in Ht.
  rewrite Ht.
  change (teleporterPositions (setTeleporterPositions ts ?x, r4).1) with ts.
  change (level (setTeleporterPositions ts ?x)) with (level g) in Hs.
  rewrite Hs.
  change (stalkers (setStalkers ss ?x, r5).1) with ss.
  by simplify_eq.
Qed.

Lemma regenerate_fields g r g' r' :
  regenerateMazeFromPlayerPosition g r = Some (g', r') →
  level g' = level g ∧ score g' = score g ∧ timer g' = timer g
  ∧ gameStatus g' = gameStatus g ∧ canTeleport g' = canTeleport g
  ∧ playerHit g' = playerHit g ∧ playerPosition g' = playerPosition g
  ∧ startPosition g' = playerPosition g
  ∧ timerInterval g' = timerInterval g ∧ enemyInterval g' = enemyInterval g
  ∧ stalkersInterval g' = stalkersInterval g
  ∧ nextLevelTimeout g' = nextLevelTimeout g ∧ hitTimeout g' = hitTimeout g.
Proof.
  intros Hrun.
  destruct (regenerate_shape g r g' r' Hrun) as (layout & r1 & r2 & r3 & r4 & _ & ->).
  done.
Qed.

Lemma reachExit_more g :
  canTeleport (reachExit g) = canTeleport g ∧ playerHit (reachExit g) = playerHit g
  ∧ timer (reachExit g) = timer g ∧ enemies (reachExit g) = enemies g
  ∧ stalkers (reachExit g) = stalkers g ∧ hitTimeout (reachExit g) = hitTimeout g.
Proof. unfold reachExit. by destruct (level _ =? 30). Qed.

Lemma wellFormed_setCanTeleport b g : wellFormed g → wellFormed (setCanTeleport b g).
Proof. by apply wellFormed_fields. Qed.

(** X13.  A teleporter works once per arrival.  Whenever the program runs
    [checkGameState] while can-teleport is cleared, the call returns with
    the player on the same cell and the flag still cleared: after a jump
    the player is not sent back, neither by the ticks of the enemies and
    stalkers nor by stepping straight onto another teleporter. *)
Theorem teleporter_works_once g r :
  resolverInput g → canTeleport g = false →
  ∃ g' r',
    checkGameState g r = Some (g', r')
    ∧ playerPosition g' = playerPosition g
    ∧ canTeleport g' = false.
Proof.
  intros Hin Hc. pose proof (resolverInput_wellFormed g Hin) as Hwf.
  destruct (checkGameState_wellFormed g r Hwf) as (g' & r' & Hrun & _).
  exists g', r'. split; [done|].
  destruct (checkGameState_cases g r g' r' Hrun) as [[-> ->]|(_ & _ & Hcase)]; [done|].
  destruct Hcase as [[-> ->]|[(dest & _ & Htrue & _)|(g0 & Hg0 & Hcase)]];
    [done|congruence|].
  assert (Hpos : playerPosition g0 = playerPosition g ∧ canTeleport g0 = false)
    by (by destruct Hg0 as [->| ->]).
  destruct Hpos as [Hpos Hflag].
  destruct Hcase as [Hregen|[[-> ->]|[[-> ->]|[-> ->]]]]; [| |done..].
  - destruct (regenerate_fields _ _ _ _ Hregen) as (_ & _ & _ & _ & Hc' & _ & Hp' & _).
    split; congruence.
  - destruct (reachExit_fields g0) as (_ & _ & Hp' & _).
    destruct (reachExit_more g0) as (Hc' & _). split; congruence.
Qed.

Lemma afterStep_fields dx dy g :
  playerPosition (afterStep dx dy g) = moveTarget dx dy g
  ∧ teleporterPositions (afterStep dx dy g) = teleporterPositions g
  ∧ level (afterStep dx dy g) = level g ∧ score (afterStep dx dy g) = score g
  ∧ gameStatus (afterStep dx dy g) = gameStatus g
  ∧ playerHit (afterStep dx dy g) = playerHit g.
Proof. unfold afterStep. by destruct (negb _). Qed.

(** Where a move intent can leave the player. *)
Lemma movePlayer_position dx dy g r g' r' :
  movePlayer dx dy g r = Some (g', r') →
  playerPosition g' = playerPosition g
  ∨ playerPosition g' = moveTarget dx dy g
  ∨ playerPosition g' ∈ teleporterPositions g.
Proof.
  rewrite movePlayer_checks.
  destruct (negb _ || playerHit g); [intros; simplify_eq; by left|].
  destruct (moveAccepted dx dy g); [|intros; simplify_eq; by left].
  intros Hrun. right.
  destruct (afterStep_fields dx dy g) as (Hp & Ht & _).
  destruct (checkGameState_cases _ _ _ _ Hrun) as [[-> ->]|(_ & _ & Hcase)];
    [by left|].
  destruct Hcase as [[-> ->]|[(dest & Hdest & _ & -> & _)|(g0 & Hg0 & Hcase)]].
  - by left.
  - right. by rewrite <- Ht.
  - left.
    assert (Hpos : playerPosition g0 = moveTarget dx dy g)
      by (by destruct Hg0 as [->| ->]).
    destruct Hcase as [Hregen|[[-> ->]|[[-> ->]|[-> ->]]]]; [| |done..].
    + destruct (regenerate_fields _ _ _ _ Hregen) as (_ & _ & _ & _ & _ & _ & Hp' & _).
      congruence.
    + destruct (reachExit_fields g0) as (_ & _ & Hp' & _). congruence.
Qed.

(** X16.  A move intent in a started game always returns, and it leaves
    the player on the cell where the player stood, on the neighbouring
    cell the intent aims at, or on a teleporter of the level; the cell is
    in every case inside the grid and not a Wall. *)
Theorem movePlayer_displacement dx dy g r :
  reachable g →
  ∃ g' r',
    movePlayer dx dy g r = Some (g', r')
    ∧ (playerPosition g' = playerPosition g
       ∨ playerPosition g' = ((playerPosition g).1 + dx, (playerPosition g).2 + dy)
       ∨ playerPosition g' ∈ teleporterPositions g)
    ∧ enterable (maze g') (playerPosition g') = true.
Proof.
  intros Hg. pose proof (reachable_wellFormed g Hg) as Hwf.
  destruct (movePlayer_wellFormed dx dy g r Hwf) as (g' & r' & Hrun & Hwf').
  exists g', r'. split; [done|]. split; [by eapply movePlayer_position|].
  destruct (wellFormed_playerValid g' Hwf') as (Hy & Hx & c & Hc & Hne).
  unfold enterable. rewrite Hc.
  repeat (apply andb_true_iff; split); try lia. by destruct c.
Qed.

Lemma teleporter_works_once_witness :
  ∃ g' r',
    checkGameState (afterStep 0 (-1) afterJump) [4]%nat = Some (g', r')
    ∧ playerPosition g' = playerPosition (afterStep 0 (-1) afterJump)
    ∧ canTeleport g' = false.
Proof.
  apply (teleporter_works_once (afterStep 0 (-1) afterJump) [4]%nat).
  - apply input_movePlayer.
    + apply (runEvents_reachable [] (tail toLevel20 ++ [MovePlayer 0 1 []]) initialGame).
      vm_compute. reflexivity.
    + vm_compute. reflexivity.
    + vm_compute. reflexivity.
    + vm_compute. reflexivity.
  - vm_compute. reflexivity.
Defined.

Lemma movePlayer_displacement_witness :
  ∃ g' r',
    movePlayer 1 0 nearExit [6]%nat = Some (g', r')
    ∧ (playerPosition g' = playerPosition nearExit
       ∨ playerPosition g'
         = ((playerPosition nearExit).1 + 1, (playerPosition nearExit).2 + 0)
       ∨ playerPosition g' ∈ teleporterPositions nearExit)
    ∧ enterable (maze g') (playerPosition g') = true.
Proof.
  apply (movePlayer_displacement 1 0 nearExit [6]%nat).
  apply (runEvents_reachable [] (tail toTheExit) initialGame).
  vm_compute. reflexivity.
Defined.

(** X14.  An enemy on the player's cell, with nothing on that cell that
    the resolver checks first, freezes the player and schedules the reset.
    In a session whose grid has a row at the player's [y], so that the
    exit test can read the player's cell: the call sets player-hit and
    nothing else; while the flag is set every move intent and every
    further resolver call leaves the session as it is, so neither a
    stalker nor a second enemy can do anything to the player; and the
    reset puts the player back on the start position of the level and
    clears the flag, with level and score untouched. *)
Theorem enemy_collision_freezes_and_resets g r :
  gameStatus g = Playing → playerHit g = false →
  0 ≤ (playerPosition g).2 < mazeHeight (maze g) →
  playerPosition g ∉ stalkers g →
  playerPosition g ∉ teleporterPositions g →
  playerPosition g ∉ regenerateIconPositions g →
  cellAt (maze g) (playerPosition g).1 (playerPosition g).2 ≠ Some Exit →
  playerPosition g ∈ enemies g →
  checkGameState g r = Some (enemyHit g, r)
  ∧ enemyHit g = setHitTimeout true (setPlayerHit true g)
  ∧ (∀ dx dy r', movePlayer dx dy (enemyHit g) r' = Some (enemyHit g, r'))
  ∧ (∀ r', checkGameState (enemyHit g) r' = Some (enemyHit g, r'))
  ∧ playerPosition (hitCallback (enemyHit g)) = startPosition g
  ∧ playerHit (hitCallback (enemyHit g)) = false
  ∧ hitTimeout (hitCallback (enemyHit g)) = false
  ∧ level (hitCallback (enemyHit g)) = level g
  ∧ score (hitCallback (enemyHit g)) = score g.
Proof.
  intros Hs Hh Hrow Hst Htp Hic Hex Hen.
  split; [|split; [done|split; [|split; [|done]]]].
  - unfold checkGameState. rewrite Hh, bool_decide_eq_true_2 by done. cbn [negb orb].
    rewrite existsb_posEqb_r_false by done.
    rewrite findIndex_None by done.
    rewrite existsb_posEqb_l_false by done.
    rewrite (proj2 (Z.leb_le _ _) (proj1 Hrow)), (proj2 (Z.ltb_lt _ _) (proj2 Hrow)).
    cbn [andb negb].
    destruct (cellAt (maze g) _ _) as [[]|] eqn:Hc; try done; cbn [isExit];
      by rewrite (proj2 (existsb_posEqb_r _ _) Hen).
  - intros dx dy r'. unfold movePlayer. simpl.
    by rewrite orb_true_r.
  - intros r'. unfold checkGameState. simpl. by rewrite orb_true_r.
Qed.

Lemma enemy_collision_freezes_and_resets_witness :
  checkGameState cornered [3]%nat = Some (enemyHit cornered, [3]%nat)
  ∧ enemyHit cornered = setHitTimeout true (setPlayerHit true cornered)
  ∧ (∀ dx dy r', movePlayer dx dy (enemyHit cornered) r' = Some (enemyHit cornered, r'))
  ∧ (∀ r', checkGameState (enemyHit cornered) r' = Some (enemyHit cornered, r'))
  ∧ playerPosition (hitCallback (enemyHit cornered)) = startPosition cornered
  ∧ playerHit (hitCallback (enemyHit cornered)) = false
  ∧ hitTimeout (hitCallback (enemyHit cornered)) = false
  ∧ level (hitCallback (enemyHit cornered)) = level cornered
  ∧ score (hitCallback (enemyHit cornered)) = score cornered.
Proof.
  apply (enemy_collision_freezes_and_resets cornered [3]%nat).
  - reflexivity.
  - reflexivity.
  - vm_compute. split; [discriminate|reflexivity].
  - apply not_elem_of_nil.
  - apply not_elem_of_nil.
  - apply not_elem_of_nil.
  - discriminate.
  - left.
Defined.


(** ** Regeneration *)

Lemma reanchor_cells size layout cur :
  7 ≤ size → generated size layout → inside size cur →
  levelGrid size cur (reanchor layout cur)
  ∧ (cur ≠ (1, 1) → cellAt (reanchor layout cur) 1 1 = Some Path)
  ∧ (cur ≠ (size - 2, size - 2) →
     cellAt (reanchor layout cur) (size - 2) (size - 2) = Some Exit).
Proof.
  intros Hsize Hgen Hcur.
  split; [by apply (levelGrid_regenerated size layout cur)|].
  destruct Hgen as (Hsq & Hs & He & _).
  unfold reanchor. rewrite Hs. cbn [isStart].
  set (m1 := setCell layout 1 1 Path).
  assert (H11 : cellAt m1 1 1 = Some Path) by (by eapply cellAt_setCell_eq).
  assert (Hee : cellAt m1 (size - 2) (size - 2) = Some Exit).
  { unfold m1. rewrite cellAt_setCell_ne; [done|]. intros [= ?]. lia. }
  destruct cur as [cx cy]. cbn [fst snd].
  split; intros Hne.
  - rewrite cellAt_setCell_ne by done.
    destruct (isWall (cellAt m1 cx cy)); [|done].
    by rewrite cellAt_setCell_ne.
  - rewrite cellAt_setCell_ne by done.
    destruct (isWall (cellAt m1 cx cy)); [|done].
    by rewrite cellAt_setCell_ne.
Qed.

(** X15.  A regeneration in a started game always succeeds and changes the
    grid and the entities only: level, score, timer, status and the
    can-teleport and player-hit flags stay, and the player stays on the
    same cell, which becomes the start cell of the new grid and the start
    position of the level.  The new grid has the size of the level; the
    old start cell (1,1) is an ordinary Path cell and the Exit cell is in
    its corner (unless the player stands there).  Nothing is placed near
    the player: enemies are more than 5 steps away, the stalker more than
    10, icons more than 8, and no teleporter lies on the player's cell. *)
Theorem regeneration_keeps_progress g r :
  reachable g →
  ∃ g' r',
    regenerateMazeFromPlayerPosition g r = Some (g', r')
    ∧ level g' = level g ∧ score g' = score g ∧ timer g' = timer g
    ∧ gameStatus g' = gameStatus g ∧ canTeleport g' = canTeleport g
    ∧ playerHit g' = playerHit g
    ∧ playerPosition g' = playerPosition g ∧ startPosition g' = playerPosition g
    ∧ squareOf (mazeSize (level g)) (maze g')
    ∧ cellAt (maze g') (playerPosition g).1 (playerPosition g).2 = Some Start
    ∧ (playerPosition g ≠ (1, 1) → cellAt (maze g') 1 1 = Some Path)
    ∧ (playerPosition g ≠ exitPosition (mazeSize (level g)) →
       cellAt (maze g') (mazeSize (level g) - 2) (mazeSize (level g) - 2) = Some Exit)
    ∧ Forall (λ p, 5 < manhattan p.1 p.2 (playerPosition g)) (enemies g')
    ∧ Forall (λ p, 10 < manhattan p.1 p.2 (playerPosition g)) (stalkers g')
    ∧ Forall (λ p, 8 < manhattan p.1 p.2 (playerPosition g))
        (regenerateIconPositions g')
    ∧ Forall (λ p, p ≠ playerPosition g ∧ p ∉ regenerateIconPositions g')
        (teleporterPositions g').
Proof.
  intros Hg. pose proof (reachable_wellFormed g Hg) as Hwf.
  destruct (regenerate_wellFormed g r Hwf) as (g' & r' & Hrun & _).
  exists g', r'. split; [done|].
  destruct (regenerate_fields g r g' r' Hrun)
    as (Hl & Hsc & Htm & Hst & Hct & Hph & Hpp & Hsp & _).
  do 8 (split; [done|]).
  destruct (regenerate_shape g r g' r' Hrun)
    as (layout & r1 & r2 & r3 & r4 & Hgen & ->).
  pose proof (wellFormed_inside g Hwf) as Hin.
  destruct Hwf as (Hlvl & _).
  destruct (mazeSize_bounds _ Hlvl) as [Hsize _].
  destruct (generateMaze_generated (level g) r Hlvl) as (layout' & r1' & Hgen' & Hlay).
  rewrite Hgen in Hgen'. simplify_eq.
  destruct (reanchor_cells (mazeSize (level g)) layout' (playerPosition g))
    as ((Hsq & Hstart & _) & H11 & Hexit); [lia|done|done|].
  cbn [maze enemies regenerateIconPositions teleporterPositions stalkers
       setStalkers setTeleporterPositions setRegenerateIconPositions setEnemies
       setStartPosition setMaze].
  split; [done|]. split; [done|]. split; [done|]. split; [done|].
  split.
  { match goal with |- context [spawnEnemies ?l ?m ?g0 ?r0] =>
      pose proof (spawnEnemies_far l m g0 r0) as [_ Hfar] end.
    exact Hfar. }
  split.
  { match goal with |- context [spawnStalkers ?l ?m ?g0 ?r0] =>
      pose proof (spawnStalkers_far l m g0 r0) as [_ Hfar] end.
    exact Hfar. }
  split.
  { match goal with |- context [spawnRegenerateIcons ?l ?m ?g0 ?r0] =>
      pose proof (spawnRegenerateIcons_far l m g0 r0) as [_ Hfar] end.
    cbv zeta in Hfar. eapply Forall_impl; [exact Hfar|]. by intros p [? _]. }
  match goal with |- context [spawnTeleporters ?l ?m ?g0 ?r0] =>
    pose proof (spawnTeleporters_clear l m g0 r0) as [_ Hclear] end.
  cbv zeta in Hclear. eapply Forall_impl; [exact Hclear|]. by intros p (? & _ & ?).
Qed.

Lemma regeneration_keeps_progress_witness :
  ∃ g' r',
    regenerateMazeFromPlayerPosition belowIcon [8; 2]%nat = Some (g', r')
    ∧ level g' = level belowIcon ∧ score g' = score belowIcon
    ∧ timer g' = timer belowIcon
    ∧ gameStatus g' = gameStatus belowIcon ∧ canTeleport g' = canTeleport belowIcon
    ∧ playerHit g' = playerHit belowIcon
    ∧ playerPosition g' = playerPosition belowIcon
    ∧ startPosition g' = playerPosition belowIcon
    ∧ squareOf (mazeSize (level belowIcon)) (maze g')
    ∧ cellAt (maze g') (playerPosition belowIcon).1 (playerPosition belowIcon).2
      = Some Start
    ∧ (playerPosition belowIcon ≠ (1, 1) → cellAt (maze g') 1 1 = Some Path)
    ∧ (playerPosition belowIcon ≠ exitPosition (mazeSize (level belowIcon)) →
       cellAt (maze g') (mazeSize (level belowIcon) - 2)
         (mazeSize (level belowIcon) - 2) = Some Exit)
    ∧ Forall (λ p, 5 < manhattan p.1 p.2 (playerPosition belowIcon)) (enemies g')
    ∧ Forall (λ p, 10 < manhattan p.1 p.2 (playerPosition belowIcon)) (stalkers g')
    ∧ Forall (λ p, 8 < manhattan p.1 p.2 (playerPosition belowIcon))
        (regenerateIconPositions g')
    ∧ Forall (λ p, p ≠ playerPosition belowIcon ∧ p ∉ regenerateIconPositions g')
        (teleporterPositions g').
Proof.
  apply (regeneration_keeps_progress belowIcon [8; 2]%nat).
  apply (runEvents_reachable [] (tail toTheIcon) initialGame).
  vm_compute. reflexivity.
Defined.

(** ** Keyboard input *)

Lemma movePlayer_one_step dx dy g r :
  wellFormed g → Z.abs dx + Z.abs dy = 1 →
  ∃ g' r',
    movePlayer dx dy g r = Some (g', r')
    ∧ (manhattan (playerPosition g').1 (playerPosition g').2 (playerPosition g) ≤ 1
       ∨ playerPosition g' ∈ teleporterPositions g).
Proof.
  intros Hwf Hd.
  destruct (movePlayer_wellFormed dx dy g r Hwf) as (g' & r' & Hrun & _).
  exists g', r'. split; [done|].
  destruct (movePlayer_position _ _ _ _ _ _ Hrun) as [->|[->|?]]; [left|left|by right];
    unfold manhattan, moveTarget; simpl; lia.
Qed.

(** X17.  A key press in a started game always returns, and moves the
    player by at most one cell unless a teleporter carries the player
    away.  When the status is not playing, or the key is none of the four
    arrows and of [w], [a], [s], [d], the session stays exactly as it
    is. *)
Theorem handleKeydown_one_step key g r :
  reachable g →
  ∃ g' r',
    handleKeydown key g r = Some (g', r')
    ∧ (manhattan (playerPosition g').1 (playerPosition g').2 (playerPosition g) ≤ 1
       ∨ playerPosition g' ∈ teleporterPositions g)
    ∧ (gameStatus g ≠ Playing ∨ key ∉ moveKeys → g' = g ∧ r' = r).
Proof.
  intros Hg. pose proof (reachable_wellFormed g Hg) as Hwf.
  assert (Hstay : ∃ g' r',
            Some (g, r) = Some (g', r')
            ∧ (manhattan (playerPosition g').1 (playerPosition g').2 (playerPosition g) ≤ 1
               ∨ playerPosition g' ∈ teleporterPositions g)
            ∧ (gameStatus g ≠ Playing ∨ key ∉ moveKeys → g' = g ∧ r' = r)).
  { exists g, r. split; [done|]. split; [|done]. left. unfold manhattan. lia. }
  assert (Hmove : ∀ dx dy, Z.abs dx + Z.abs dy = 1 →
            gameStatus g = Playing → key ∈ moveKeys →
            ∃ g' r',
              movePlayer dx dy g r = Some (g', r')
              ∧ (manhattan (playerPosition g').1 (playerPosition g').2 (playerPosition g) ≤ 1
                 ∨ playerPosition g' ∈ teleporterPositions g)
              ∧ (gameStatus g ≠ Playing ∨ key ∉ moveKeys → g' = g ∧ r' = r)).
  { intros dx dy Hd Hs Hk.
    destruct (movePlayer_one_step dx dy g r Hwf Hd) as (g' & r' & Hrun & Hpos).
    exists g', r'. split; [done|]. split; [done|]. by intros [?|?]. }
  unfold handleKeydown.
  destruct (bool_decide (gameStatus g = Playing)) eqn:Hs; [|done].
  apply bool_decide_eq_true in Hs. cbn [negb].
  unfold moveKeys in *.
  repeat match goal with
    | |- context [bool_decide (key = ?k)] =>
        destruct (bool_decide (key = k)) eqn:?; cbn [orb]
    end;
    repeat match goal with
    | H : bool_decide (key = _) = true |- _ => apply bool_decide_eq_true in H; subst key
    | H : bool_decide (key = _) = false |- _ => apply bool_decide_eq_false in H
    end;
    try (apply Hmove; [done|done|rewrite !elem_of_cons; tauto]).
  exact Hstay.
Qed.

Lemma handleKeydown_one_step_witness :
  ∃ g' r',
    handleKeydown "ArrowRight" nearExit [1]%nat = Some (g', r')
    ∧ (manhattan (playerPosition g').1 (playerPosition g').2 (playerPosition nearExit) ≤ 1
       ∨ playerPosition g' ∈ teleporterPositions nearExit)
    ∧ (gameStatus nearExit ≠ Playing ∨ "ArrowRight" ∉ moveKeys → g' = nearExit ∧ r' = [1]%nat).
Proof.
  apply (handleKeydown_one_step "ArrowRight" nearExit [1]%nat).
  apply (runEvents_reachable [] (tail toTheExit) initialGame).
  vm_compute. reflexivity.
Defined.


(** ** The session as a whole *)

Lemma sessionInv_same g g' :
  score g' = score g → timer g' = timer g → level g' = level g →
  gameStatus g' = gameStatus g → nextLevelTimeout g' = nextLevelTimeout g →
  stalkersInterval g' = stalkersInterval g →
  length (enemies g') = length (enemies g) →
  regenerateIconPositions g' = regenerateIconPositions g →
  teleporterPositions g' = teleporterPositions g →
  length (stalkers g') = length (stalkers g) →
  sessionInv g → sessionInv g'.
Proof.
  unfold sessionInv. intros -> -> -> -> -> -> -> -> -> ->. done.
Qed.

Lemma spawned_within lvl mz g r :
  let g1 := setEnemies (enemies (spawnEnemies lvl mz g r).1) g in
  ∀ r2 r3 r4 g0 g2 g3,
  Z.of_nat (length (enemies (spawnEnemies lvl mz g0 r).1))
    ≤ (if lvl <? 15 then 0 else 4)
  ∧ Z.of_nat (length (regenerateIconPositions (spawnRegenerateIcons lvl mz g1 r2).1))
    ≤ (if lvl <? 10 then 0 else 5)
  ∧ Z.of_nat (length (teleporterPositions (spawnTeleporters lvl mz g2 r3).1))
    ≤ (if lvl <? 20 then 0 else 14)
  ∧ Z.of_nat (length (stalkers (spawnStalkers lvl mz g3 r4).1))
    ≤ (if lvl <? 25 then 0 else 1).
Proof.
  intros g1 r2 r3 r4 g0 g2 g3.
  pose proof (spawnEnemies_spec lvl mz g0 r) as [_ He].
  pose proof (spawnRegenerateIcons_spec lvl mz g1 r2) as [_ Hi].
  pose proof (spawnTeleporters_spec lvl mz g2 r3) as (_ & Ht & _).
  pose proof (spawnStalkers_spec lvl mz g3 r4) as [_ Hs].
  cbv zeta in *.
  repeat split; [destruct (lvl <? 15)|done|destruct (lvl <? 20)|done]; lia.
Qed.

(** A level loaded at the session's own level, with the status set to
    playing and the tickers started. *)
Lemma sessionInv_loaded g r g' r' g'' :
  loadLevel (level g) g r = Some (g', r') → 0 ≤ score g → 1 ≤ level g →
  level g'' = level g' → score g'' = score g' → timer g'' = 0 →
  gameStatus g'' = Playing →
  (stalkersInterval g'' = true → 25 ≤ level g'') →
  enemies g'' = enemies g' →
  regenerateIconPositions g'' = regenerateIconPositions g' →
  teleporterPositions g'' = teleporterPositions g' →
  stalkers g'' = stalkers g' →
  sessionInv g''.
Proof.
  intros Hload Hsc Hl Hl' Hsc' Htm Hst Hiv He Hi Ht Hs.
  destruct (loadLevel_shape (level g) g r Hl)
    as (mz & r1 & r2 & r3 & r4 & r'' & _ & Hrun).
  cbv zeta in Hrun. rewrite Hload in Hrun. injection Hrun as -> _.
  unfold sessionInv. rewrite Hl', Hsc', Htm, Hst, He, Hi, Ht, Hs.
  cbn [level score enemies regenerateIconPositions teleporterPositions stalkers
       setStalkers setTeleporterPositions setRegenerateIconPositions setEnemies
       setPlayerPosition setStartPosition setCanTeleport setMaze].
  split; [done|]. split; [done|]. split; [done|]. split; [done|]. split; [done|].
  split; [by rewrite Hl' in Hiv|].
  match goal with |- context [spawnEnemies ?l ?m ?g0 ?r0] =>
    pose proof (spawned_within l m g0 r0) as Hw end.
  cbv zeta in Hw. apply Hw.
Qed.

Lemma sessionInv_regenerate g r g' r' :
  regenerateMazeFromPlayerPosition g r = Some (g', r') →
  sessionInv g → sessionInv g'.
Proof.
  intros Hrun (Hsc & Htm & Hl & Hgc & Hlc & Hiv & _).
  destruct (regenerate_fields g r g' r' Hrun)
    as (Hl' & Hsc' & Htm' & Hst' & _ & _ & _ & _ & _ & _ & Hiv' & Hnl' & _).
  destruct (regenerate_shape g r g' r' Hrun) as (layout & r1 & r2 & r3 & r4 & _ & Hg').
  unfold sessionInv. rewrite Hl', Hsc', Htm', Hst', Hiv', Hnl'.
  do 6 (split; [done|]).
  rewrite Hg'.
  cbn [enemies regenerateIconPositions teleporterPositions stalkers
       setStalkers setTeleporterPositions setRegenerateIconPositions setEnemies].
  match goal with |- context [spawnEnemies ?l ?m ?g0 ?r0] =>
    pose proof (spawned_within l m g0 r0) as Hw end.
  cbv zeta in Hw. apply Hw.
Qed.

Lemma sessionInv_reachExit g :
  sessionInv g → sessionInv (reachExit g).
Proof.
  intros (Hsc & Htm & Hl & Hgc & Hlc & Hiv & He & Hi & Ht & Hs).
  unfold sessionInv, reachExit, loadNextLevel.
  destruct (level _ =? 30) eqn:H30; simpl in *.
  - apply Z.eqb_eq in H30. repeat split; try done; lia.
  - apply Z.eqb_neq in H30. repeat split; try done; lia.
Qed.

Lemma sessionInv_checkGameState g r g' r' :
  checkGameState g r = Some (g', r') → sessionInv g → sessionInv g'.
Proof.
  intros Hrun Hinv.
  destruct (checkGameState_cases g r g' r' Hrun) as [[-> ->]|(Hs & _ & Hcase)]; [done|].
  assert (Hflag : sessionInv (setCanTeleport false g))
    by (revert Hinv; by apply sessionInv_same).
  destruct Hcase as [[-> ->]|[(dest & _ & _ & -> & _)|(g0 & Hg0 & Hcase)]].
  - destruct Hinv as (Hsc & Htm & Hl & Hgc & Hlc & Hiv & He & Hi & Ht & Hst).
    unfold sessionInv. simpl. repeat split; done.
  - revert Hinv. by apply sessionInv_same.
  - assert (Hinv0 : sessionInv g0) by (by destruct Hg0 as [->| ->]).
    destruct Hcase as [Hregen|[[-> ->]|[[-> ->]|[-> ->]]]].
    + by eapply sessionInv_regenerate.
    + by apply sessionInv_reachExit.
    + revert Hinv0. by apply sessionInv_same.
    + done.
Qed.

Lemma length_newEnemyPositions mz player es : ∀ r,
  length (newEnemyPositions mz player es r).1 = length es.
Proof.
  induction es as [|e es IH]; intros r; [done|]. simpl.
  destruct (enemyStep mz player e r) as [p r1]. specialize (IH r1).
  destruct (newEnemyPositions mz player es r1). simpl in *. by rewrite IH.
Qed.

Lemma length_newStalkerPositions mz player ss positions :
  newStalkerPositions mz player ss = Some positions → length positions = length ss.
Proof.
  unfold newStalkerPositions. intros H%mapM_Some_1.
  symmetry. by eapply Forall2_length.
Qed.

Lemma sessionInv_moveEnemies g r g' r' :
  moveEnemies g r = Some (g', r') → sessionInv g → sessionInv g'.
Proof.
  rewrite moveEnemies_checks. intros Hrun Hinv.
  eapply sessionInv_checkGameState; [exact Hrun|].
  revert Hinv. apply sessionInv_same; try done.
  apply length_newEnemyPositions.
Qed.

Lemma sessionInv_moveStalkers g r g' r' :
  moveStalkers g r = Some (g', r') → sessionInv g → sessionInv g'.
Proof.
  unfold moveStalkers. intros Hrun Hinv.
  destruct (length (stalkers g) =? 0)%nat; [by simplify_eq|].
  destruct (newStalkerPositions _ _ _) as [positions|] eqn:Hpos; [|done].
  eapply sessionInv_checkGameState; [exact Hrun|].
  revert Hinv. apply sessionInv_same; try done.
  by eapply length_newStalkerPositions.
Qed.

Lemma sessionInv_movePlayer dx dy g r g' r' :
  movePlayer dx dy g r = Some (g', r') → sessionInv g → sessionInv g'.
Proof.
  rewrite movePlayer_checks. intros Hrun Hinv.
  destruct (negb _ || playerHit g); [by simplify_eq|].
  destruct (moveAccepted dx dy g); [|by simplify_eq].
  eapply sessionInv_checkGameState; [exact Hrun|].
  revert Hinv. unfold afterStep. destruct (negb _); by apply sessionInv_same.
Qed.

Lemma tickers_fields g :
  let g' := startStalkerMovement (startEnemyMovement (startTimer g)) in
  level g' = level g ∧ score g' = score g ∧ timer g' = 0
  ∧ gameStatus g' = gameStatus g
  ∧ (stalkersInterval g' = true → 25 ≤ level g')
  ∧ enemies g' = enemies g
  ∧ regenerateIconPositions g' = regenerateIconPositions g
  ∧ teleporterPositions g' = teleporterPositions g
  ∧ stalkers g' = stalkers g
  ∧ playerPosition g' = playerPosition g ∧ maze g' = maze g
  ∧ canTeleport g' = canTeleport g ∧ playerHit g' = playerHit g
  ∧ timerInterval g' = true ∧ enemyInterval g' = true
  ∧ nextLevelTimeout g' = nextLevelTimeout g ∧ hitTimeout g' = hitTimeout g
  ∧ startPosition g' = startPosition g.
Proof.
  cbv zeta. unfold startStalkerMovement, startEnemyMovement, startTimer.
  cbv zeta. cbn [level stopStalkerMovement setStalkersInterval setEnemyInterval
                 setTimerInterval setTimer].
  destruct (level g <? 25) eqn:H25; simpl; repeat split; try done.
  apply Z.ltb_ge in H25. done.
Qed.

Lemma sessionInv_startGame g r g' r' :
  startGame g r = Some (g', r') → sessionInv g'.
Proof.
  unfold startGame. cbv zeta. intros Hrun.
  destruct (loadLevel _ _ r) as [[g1 r1]|] eqn:Hload; [|done].
  injection Hrun as <- _.
  destruct (tickers_fields (setGameStatus Playing g1))
    as (? & ? & ? & ? & ? & ? & ? & ? & ? & _).
  eapply (sessionInv_loaded _ _ _ _ _ Hload); done.
Qed.

Lemma sessionInv_nextLevelCallback g r g' r' :
  nextLevelCallback g r = Some (g', r') → sessionInv g → sessionInv g'.
Proof.
  unfold nextLevelCallback. cbv zeta. intros Hrun (Hsc & _ & Hl & _).
  destruct (loadLevel _ _ r) as [[g1 r1]|] eqn:Hload; [|done].
  injection Hrun as <- _.
  destruct (tickers_fields (setGameStatus Playing g1))
    as (? & ? & ? & ? & ? & ? & ? & ? & ? & _).
  eapply (sessionInv_loaded _ _ _ _ _ Hload); try done. simpl. lia.
Qed.

Lemma sessionInv_continueToInfinite g r g' r' :
  continueToInfinite g r = Some (g', r') → sessionInv g → sessionInv g'.
Proof.
  unfold continueToInfinite. cbv zeta. intros Hrun (Hsc & _ & Hl & _).
  destruct (loadLevel _ _ r) as [[g1 r1]|] eqn:Hload; [|done].
  injection Hrun as <- _.
  destruct (tickers_fields (setGameStatus Playing g1))
    as (? & ? & ? & ? & ? & ? & ? & ? & ? & _).
  eapply (sessionInv_loaded _ _ _ _ _ Hload); try done. simpl. lia.
Qed.

Lemma loadLevel_fields lvl g r g' r' :
  1 ≤ lvl → loadLevel lvl g r = Some (g', r') →
  level g' = level g ∧ score g' = score g ∧ timer g' = timer g
  ∧ gameStatus g' = gameStatus g ∧ playerHit g' = playerHit g
  ∧ playerPosition g' = (1, 1) ∧ startPosition g' = (1, 1)
  ∧ canTeleport g' = true
  ∧ generated (mazeSize lvl) (maze g')
  ∧ nextLevelTimeout g' = nextLevelTimeout g ∧ hitTimeout g' = hitTimeout g
  ∧ Z.of_nat (length (enemies g')) ≤ (if lvl <? 15 then 0 else 4)
  ∧ Z.of_nat (length (regenerateIconPositions g')) ≤ (if lvl <? 10 then 0 else 5)
  ∧ Z.of_nat (length (teleporterPositions g')) ≤ (if lvl <? 20 then 0 else 14)
  ∧ Z.of_nat (length (stalkers g')) ≤ (if lvl <? 25 then 0 else 1).
Proof.
  intros Hl Hload.
  destruct (loadLevel_shape lvl g r Hl)
    as (mz & r1 & r2 & r3 & r4 & r'' & Hgen & Hrun).
  cbv zeta in Hrun. rewrite Hload in Hrun. injection Hrun as -> _.
  do 8 (split; [done|]). split; [exact Hgen|]. do 2 (split; [done|]).
  cbn [enemies regenerateIconPositions teleporterPositions stalkers
       setStalkers setTeleporterPositions setRegenerateIconPositions setEnemies].
  match goal with |- context [spawnEnemies ?l ?m ?g0 ?r0] =>
    pose proof (spawned_within l m g0 r0) as Hw end.
  cbv zeta in Hw. apply Hw.
Qed.

Lemma loadLevel_total lvl g r : 1 ≤ lvl → is_Some (loadLevel lvl g r).
Proof.
  intros Hl.
  destruct (loadLevel_shape lvl g r Hl) as (mz & r1 & r2 & r3 & r4 & r' & _ & Hrun).
  cbv zeta in Hrun. by rewrite Hrun.
Qed.

Lemma loadLevel_status lvl g r g' r' :
  1 ≤ lvl → loadLevel lvl g r = Some (g', r') →
  gameStatus g' = gameStatus g ∧ level g' = level g ∧ score g' = score g.
Proof.
  intros Hl Hload.
  destruct (loadLevel_shape lvl g r Hl)
    as (mz & r1 & r2 & r3 & r4 & r'' & _ & Hrun).
  cbv zeta in Hrun. rewrite Hload in Hrun. by injection Hrun as -> _.
Qed.

Lemma sessionInv_skipLevels g r g' r' :
  skipLevels g r = Some (g', r') → sessionInv g → sessionInv g'.
Proof.
  unfold skipLevels. intros Hrun Hinv.
  destruct (bool_decide (gameStatus g = Playing)) eqn:Hs; cbn [negb] in Hrun;
    [|by simplify_eq].
  apply bool_decide_eq_true in Hs.
  destruct (level g =? 29); [by simplify_eq|].
  cbv zeta in Hrun.
  destruct (loadLevel _ _ r) as [[g1 r1]|] eqn:Hload; [|done].
  injection Hrun as <- _.
  destruct Hinv as (Hsc & _ & Hl & _).
  assert (Hl1 : 1 ≤ level g + 1) by lia.
  destruct (loadLevel_status _ _ _ _ _ Hl1 Hload) as (Hst & _).
  destruct (tickers_fields g1) as (? & ? & ? & Hst' & ? & ? & ? & ? & ? & _).
  eapply (sessionInv_loaded _ _ _ _ _ Hload); try done;
    try (change (1 ≤ level g + 1); lia).
  by rewrite Hst', Hst.
Qed.

Lemma reachable_sessionInv g : reachable g → sessionInv g.
Proof.
  induction 1 as [g r g' r' Hrun|g dx dy r g' r' _ IH Hrun|g r g' r' _ IH Hrun
                 |g r g' r' _ IH Hrun|g _ IH|g _ IH|g r g' r' _ IH Hrun
                 |g r g' r' _ IH Hrun|g r g' r' _ IH Hrun|g _ IH].
  - by eapply sessionInv_startGame.
  - by eapply sessionInv_movePlayer.
  - by eapply sessionInv_moveEnemies.
  - by eapply sessionInv_moveStalkers.
  - destruct IH as (Hsc & Htm & Hl & Hgc & Hlc & Hiv & He & Hi & Ht & Hst).
    refine (conj Hsc (conj _ (conj Hl (conj Hgc (conj Hlc (conj Hiv
              (conj He (conj Hi (conj Ht Hst))))))))).
    change (0 ≤ timer g + 1). lia.
  - revert IH. by apply sessionInv_same.
  - by eapply sessionInv_nextLevelCallback.
  - by eapply sessionInv_skipLevels.
  - by eapply sessionInv_continueToInfinite.
  - destruct IH as (Hsc & Htm & Hl & Hgc & Hlc & Hiv & He & Hi & Ht & Hst).
    unfold sessionInv. simpl. repeat split; done.
Qed.


(** X18.  Throughout a started game the score and the timer are never
    negative and the level is at least 1; the status game-complete occurs
    at level 30 only; and whenever the status is level-complete the load
    of the next level is scheduled, and the level is not 30. *)
Theorem session_counters g :
  reachable g →
  0 ≤ score g ∧ 0 ≤ timer g ∧ 1 ≤ level g
  ∧ (gameStatus g = GameComplete → level g = 30)
  ∧ (gameStatus g = LevelComplete → nextLevelTimeout g = true ∧ level g ≠ 30).
Proof.
  intros Hg.
  destruct (reachable_sessionInv g Hg) as (? & ? & ? & ? & ? & _). done.
Qed.

Lemma session_counters_witness :
  0 ≤ score nearExit ∧ 0 ≤ timer nearExit ∧ 1 ≤ level nearExit
  ∧ (gameStatus nearExit = GameComplete → level nearExit = 30)
  ∧ (gameStatus nearExit = LevelComplete →
     nextLevelTimeout nearExit = true ∧ level nearExit ≠ 30).
Proof.
  apply (session_counters nearExit).
  apply (runEvents_reachable [] (tail toTheExit) initialGame).
  vm_compute. reflexivity.
Defined.

(** X19.  Throughout a started game, also after enemy and stalker ticks
    and after regenerations, every kind of entity is absent below its
    unlock level and within its maximum from there on: at most 4 enemies
    from level 15, 5 regenerate icons from level 10, 14 teleporters from
    level 20 and one stalker from level 25; and the stalker ticker runs at
    level 25 and above only. *)
Theorem entities_follow_level g :
  reachable g →
  Z.of_nat (length (enemies g)) ≤ (if level g <? 15 then 0 else 4)
  ∧ Z.of_nat (length (regenerateIconPositions g)) ≤ (if level g <? 10 then 0 else 5)
  ∧ Z.of_nat (length (teleporterPositions g)) ≤ (if level g <? 20 then 0 else 14)
  ∧ Z.of_nat (length (stalkers g)) ≤ (if level g <? 25 then 0 else 1)
  ∧ (stalkersInterval g = true → 25 ≤ level g).
Proof.
  intros Hg.
  destruct (reachable_sessionInv g Hg) as (_ & _ & _ & _ & _ & ? & ? & ? & ? & ?).
  done.
Qed.

Lemma entities_follow_level_witness :
  Z.of_nat (length (enemies atLevel20)) ≤ (if level atLevel20 <? 15 then 0 else 4)
  ∧ Z.of_nat (length (regenerateIconPositions atLevel20))
    ≤ (if level atLevel20 <? 10 then 0 else 5)
  ∧ Z.of_nat (length (teleporterPositions atLevel20))
    ≤ (if level atLevel20 <? 20 then 0 else 14)
  ∧ Z.of_nat (length (stalkers atLevel20)) ≤ (if level atLevel20 <? 25 then 0 else 1)
  ∧ (stalkersInterval atLevel20 = true → 25 ≤ level atLevel20).
Proof.
  apply (entities_follow_level atLevel20).
  apply (runEvents_reachable [] (tail toLevel20) initialGame).
  vm_compute. reflexivity.
Defined.

(** *** Progress *)

Lemma checkGameState_progress g r g' r' :
  1 ≤ level g → checkGameState g r = Some (g', r') →
  level g' = level g ∧ score g ≤ score g'
  ∧ (score g < score g' →
     gameStatus g = Playing
     ∧ (gameStatus g' = LevelComplete ∨ gameStatus g' = GameComplete)).
Proof.
  intros Hl Hrun.
  destruct (checkGameState_cases g r g' r' Hrun) as [[-> ->]|(Hs & _ & Hcase)];
    [split; [done|split; [lia|lia]]|].
  destruct Hcase as [[-> ->]|[(dest & _ & _ & -> & _)|(g0 & Hg0 & Hcase)]];
    [simpl; split; [done|split; [lia|lia]]..|].
  assert (Hf : level g0 = level g ∧ score g0 = score g)
    by (by destruct Hg0 as [->| ->]).
  destruct Hf as [Hl0 Hs0].
  destruct Hcase as [Hregen|[[-> ->]|[[-> ->]|[-> ->]]]].
  - destruct (regenerate_fields _ _ _ _ Hregen) as (Hl' & Hsc' & _).
    rewrite Hl', Hsc', Hl0, Hs0. split; [done|split; [lia|lia]].
  - destruct (reachExit_fields g0) as (Hl' & _). rewrite Hl', Hl0.
    split; [done|].
    assert (Hsc : score (reachExit g0)
                  = score g + Z.max 0 (1000 - timer g0 * 10) + 500 * level g).
    { unfold reachExit, loadNextLevel. rewrite <- Hs0, <- Hl0.
      by destruct (level _ =? 30). }
    split; [lia|]. intros _. split; [done|].
    unfold reachExit, loadNextLevel. destruct (level _ =? 30); simpl; auto.
  - simpl. rewrite Hl0, Hs0. split; [done|split; [lia|lia]].
  - rewrite Hl0, Hs0. split; [done|split; [lia|lia]].
Qed.

Lemma loaded_progress lvl g r g1 r1 :
  1 ≤ lvl → loadLevel lvl g r = Some (g1, r1) →
  level (startStalkerMovement (startEnemyMovement (startTimer g1))) = level g
  ∧ score (startStalkerMovement (startEnemyMovement (startTimer g1))) = score g
  ∧ level (startStalkerMovement (startEnemyMovement
             (startTimer (setGameStatus Playing g1)))) = level g
  ∧ score (startStalkerMovement (startEnemyMovement
             (startTimer (setGameStatus Playing g1)))) = score g.
Proof.
  intros Hl Hload.
  destruct (loadLevel_status lvl g r g1 r1 Hl Hload) as (_ & Hl1 & Hs1).
  destruct (tickers_fields g1) as (-> & -> & _).
  destruct (tickers_fields (setGameStatus Playing g1)) as (-> & -> & _).
  done.
Qed.

(** X20.  Nothing but a new game takes progress away.  In a started game
    every handler and every timer callback other than [startGame] leaves
    the score as it is or raises it, and leaves the level as it is or
    raises it by one; and the score rises only in a playing session that
    the same step turns into level-complete or game-complete. *)
Theorem progress_is_kept e g g' :
  reachable g → (∀ r, e ≠ StartGame r) → handle e g = Some g' →
  score g ≤ score g'
  ∧ level g ≤ level g' ≤ level g + 1
  ∧ (score g < score g' →
     gameStatus g = Playing
     ∧ (gameStatus g' = LevelComplete ∨ gameStatus g' = GameComplete)).
Proof.
  intros Hg Hne Hrun.
  destruct (reachable_sessionInv g Hg) as (_ & _ & Hl & _).
  assert (Hcheck : ∀ g0 r g1 r1,
            level g0 = level g → score g0 = score g → gameStatus g0 = gameStatus g →
            checkGameState g0 r = Some (g1, r1) →
            score g ≤ score g1 ∧ level g ≤ level g1 ≤ level g + 1
            ∧ (score g < score g1 →
               gameStatus g = Playing
               ∧ (gameStatus g1 = LevelComplete ∨ gameStatus g1 = GameComplete))).
  { intros g0 r g1 r1 Hl0 Hs0 Hst0 Hc.
    destruct (checkGameState_progress g0 r g1 r1 ltac:(lia) Hc) as (Hl1 & Hs1 & Hup).
    rewrite Hl0 in Hl1. rewrite Hs0 in Hs1, Hup. rewrite Hst0 in Hup.
    split; [done|]. split; [lia|done]. }
  assert (Hsame : score g ≤ score g ∧ level g ≤ level g ≤ level g + 1
                  ∧ (score g < score g →
                     gameStatus g = Playing
                     ∧ (gameStatus g = LevelComplete ∨ gameStatus g = GameComplete)))
    by (split; [lia|split; lia]).
  destruct e as [r|dx dy r|r|r| | |r|r|r| ]; simpl in Hrun.
  - by destruct (Hne r).
  - destruct (movePlayer dx dy g r) as [[g1 r1]|] eqn:Hm; simplify_eq/=.
    rewrite movePlayer_checks in Hm.
    destruct (negb _ || playerHit g); [by simplify_eq|].
    destruct (moveAccepted dx dy g); [|by simplify_eq].
    destruct (afterStep_fields dx dy g) as (_ & _ & ? & ? & ? & _).
    eapply Hcheck; [..|exact Hm]; done.
  - destruct (moveEnemies g r) as [[g1 r1]|] eqn:Hm; simplify_eq/=.
    rewrite moveEnemies_checks in Hm. eapply Hcheck; [..|exact Hm]; done.
  - destruct (moveStalkers g r) as [[g1 r1]|] eqn:Hm; simplify_eq/=.
    unfold moveStalkers in Hm.
    destruct (length (stalkers g) =? 0)%nat; [by simplify_eq|].
    destruct (newStalkerPositions _ _ _) as [positions|]; [|done].
    eapply Hcheck; [..|exact Hm]; done.
  - simplify_eq. exact Hsame.
  - simplify_eq. exact Hsame.
  - destruct (nextLevelCallback g r) as [[g1 r1]|] eqn:Hm; simplify_eq/=.
    unfold nextLevelCallback in Hm. cbv zeta in Hm.
    destruct (loadLevel _ _ r) as [[g2 r2]|] eqn:Hload; [|done].
    injection Hm as <- _.
    assert (Hl1 : 1 ≤ level g + 1) by lia.
    destruct (loaded_progress _ _ _ _ _ Hl1 Hload) as (_ & _ & -> & ->).
    simpl. split; [lia|]. split; [lia|lia].
  - destruct (skipLevels g r) as [[g1 r1]|] eqn:Hm; simplify_eq/=.
    unfold skipLevels in Hm.
    destruct (negb _); [by simplify_eq|].
    destruct (level g =? 29); [by simplify_eq|].
    cbv zeta in Hm.
    destruct (loadLevel _ _ r) as [[g2 r2]|] eqn:Hload; [|done].
    injection Hm as <- _.
    assert (Hl1 : 1 ≤ level g + 1) by lia.
    destruct (loaded_progress _ _ _ _ _ Hl1 Hload) as (-> & -> & _).
    simpl. split; [lia|]. split; [lia|lia].
  - destruct (continueToInfinite g r) as [[g1 r1]|] eqn:Hm; simplify_eq/=.
    unfold continueToInfinite in Hm. cbv zeta in Hm.
    destruct (loadLevel _ _ r) as [[g2 r2]|] eqn:Hload; [|done].
    injection Hm as <- _.
    assert (Hl1 : 1 ≤ level g + 1) by lia.
    destruct (loaded_progress _ _ _ _ _ Hl1 Hload) as (_ & _ & -> & ->).
    simpl. split; [lia|]. split; [lia|lia].
  - simplify_eq. simpl. split; [lia|split; lia].
Qed.

Lemma progress_is_kept_witness :
  score nearExit ≤ score atExit
  ∧ level nearExit ≤ level atExit ≤ level nearExit + 1
  ∧ (score nearExit < score atExit →
     gameStatus nearExit = Playing
     ∧ (gameStatus atExit = LevelComplete ∨ gameStatus atExit = GameComplete)).
Proof.
  apply (progress_is_kept (MovePlayer 1 0 []) nearExit atExit).
  - apply (runEvents_reachable [] (tail toTheExit) initialGame).
    vm_compute. reflexivity.
  - intros r. discriminate.
  - vm_compute. reflexivity.
Defined.

(** *** Starting, finishing and skipping levels *)

(** X21.  [startGame] always succeeds, from any state and under any random
    outcome, and opens a fresh game: level 1, score 0, timer 0, status
    playing, the player on the start cell (1,1) of a 7 by 7 grid with
    teleporting enabled, no enemies, icons, teleporters or stalkers, the
    timer and the enemy ticker running and the stalker ticker stopped.
    The player-hit flag is the one thing it leaves as it was. *)
Theorem startGame_fresh g r :
  ∃ g' r',
    startGame g r = Some (g', r')
    ∧ level g' = 1 ∧ score g' = 0 ∧ timer g' = 0 ∧ gameStatus g' = Playing
    ∧ playerPosition g' = (1, 1) ∧ startPosition g' = (1, 1)
    ∧ canTeleport g' = true
    ∧ squareOf 7 (maze g') ∧ cellAt (maze g') 1 1 = Some Start
    ∧ cellAt (maze g') 5 5 = Some Exit
    ∧ enemies g' = [] ∧ regenerateIconPositions g' = []
    ∧ teleporterPositions g' = [] ∧ stalkers g' = []
    ∧ timerInterval g' = true ∧ enemyInterval g' = true
    ∧ stalkersInterval g' = false
    ∧ playerHit g' = playerHit g.
Proof.
  unfold startGame. cbv zeta.
  change (level (setLevel 1 (setScore 0 g))) with 1.
  destruct (loadLevel_total 1 (setLevel 1 (setScore 0 g)) r ltac:(lia))
    as [[g1 r1] Hload].
  rewrite Hload. eexists _, _. split; [done|].
  assert (Hone : 1 ≤ 1) by lia.
  destruct (loadLevel_fields _ _ _ _ _ Hone Hload)
    as (Hl & Hsc & _ & _ & Hph & Hpp & Hsp & Hct & (Hsq & Hs & He & _) & _ & _
        & Hen & Hic & Htp & Hst).
  destruct (tickers_fields (setGameStatus Playing g1))
    as (Hl' & Hsc' & Htm' & Hgs' & Hiv' & Hen' & Hic' & Htp' & Hst' & Hpp' & Hmz'
        & Hct' & Hph' & Hti' & Hei' & _ & _ & Hsp').
  cbv zeta in *.
  rewrite Hl', Hsc', Htm', Hgs', Hen', Hic', Htp', Hst', Hpp', Hmz', Hct', Hph',
    Hti', Hei', Hsp'.
  cbn [level score gameStatus enemies regenerateIconPositions teleporterPositions
       stalkers playerPosition maze canTeleport playerHit startPosition
       setGameStatus].
  split; [done|]. split; [done|]. split; [done|]. split; [done|].
  split; [done|]. split; [done|]. split; [done|].
  split; [exact Hsq|]. split; [exact Hs|]. split; [exact He|].
  split; [apply nil_length_inv; simpl in Hen; lia|].
  split; [apply nil_length_inv; simpl in Hic; lia|].
  split; [apply nil_length_inv; simpl in Htp; lia|].
  split; [apply nil_length_inv; simpl in Hst; lia|].
  split; [done|]. split; [done|].
  split; [|done].
  destruct (stalkersInterval _) eqn:Hon; [|done].
  specialize (Hiv' eq_refl). rewrite Hl' in Hiv'.
  change (level (setGameStatus Playing g1)) with (level g1) in Hiv'.
  rewrite Hl in Hiv'. simpl in Hiv'. lia.
Qed.

(** X22.  Reaching the exit below level 30 leads to the next level.  When
    the program runs [checkGameState] in a playing session with the player
    on the Exit cell, no stalker there, and the level not 30, the status
    becomes level-complete with all three tickers stopped and the load
    scheduled; and the scheduled load always succeeds: it raises the level
    by one, keeps the score, restarts the timer at 0, puts the player on
    (1,1) of a grid of the new level's size and sets the status back to
    playing. *)
Theorem exit_leads_to_next_level g r r2 :
  resolverInput g → gameStatus g = Playing → playerHit g = false →
  playerPosition g ∉ stalkers g →
  cellAt (maze g) (playerPosition g).1 (playerPosition g).2 = Some Exit →
  level g ≠ 30 →
  ∃ g1 g2 r2',
    checkGameState g r = Some (g1, r)
    ∧ gameStatus g1 = LevelComplete ∧ nextLevelTimeout g1 = true
    ∧ timerInterval g1 = false ∧ enemyInterval g1 = false
    ∧ stalkersInterval g1 = false
    ∧ nextLevelCallback g1 r2 = Some (g2, r2')
    ∧ level g2 = level g + 1 ∧ score g2 = score g1 ∧ timer g2 = 0
    ∧ gameStatus g2 = Playing ∧ nextLevelTimeout g2 = false
    ∧ playerPosition g2 = (1, 1)
    ∧ squareOf (mazeSize (level g + 1)) (maze g2).
Proof.
  intros Hin Hs Hh Hst Hexit H30.
  pose proof (resolverInput_wellFormed g Hin) as Hwf.
  assert (Hl : 1 ≤ level g) by apply Hwf.
  assert (Hone : reachExit g = loadNextLevel
                   (setScore (score g + Z.max 0 (1000 - timer g * 10) + 500 * level g) g)).
  { unfold reachExit. cbv zeta. cbn [level setScore].
    apply Z.eqb_neq in H30. by rewrite H30. }
  assert (Hcheck : checkGameState g r = Some (reachExit g, r))
    by (by apply checkGameState_exit).
  exists (reachExit g).
  unfold nextLevelCallback. cbv zeta.
  assert (Hl1 : 1 ≤ level g + 1) by lia.
  assert (Hlv : level (setNextLevelTimeout false (reachExit g)) = level g)
    by (by rewrite Hone).
  set (g1 := setNextLevelTimeout false (reachExit g)) in *.
  change (level (setLevel (level g1 + 1) g1)) with (level g1 + 1).
  rewrite Hlv.
  destruct (loadLevel_total (level g + 1) (setLevel (level g + 1) g1) r2 Hl1)
    as [[g2 r2'] Hload].
  rewrite Hload. eexists _, _.
  split; [exact Hcheck|].
  rewrite Hone at 1 2 3 4 5.
  do 5 (split; [done|]). split; [done|].
  destruct (loadLevel_fields _ _ _ _ _ Hl1 Hload)
    as (Hl2 & Hsc2 & _ & _ & _ & Hpp2 & _ & _ & (Hsq & _) & Hnl2 & _).
  destruct (tickers_fields (setGameStatus Playing g2))
    as (Hl' & Hsc' & Htm' & Hgs' & _ & _ & _ & _ & _ & Hpp' & Hmz'
        & _ & _ & _ & _ & Hnl' & _).
  cbv zeta in *.
  rewrite Hl', Hsc', Htm', Hgs', Hpp', Hmz', Hnl'.
  cbn [level score gameStatus playerPosition maze nextLevelTimeout setGameStatus].
  rewrite Hl2, Hsc2, Hpp2, Hnl2.
  split; [simpl; lia|]. split; [done|]. split; [done|]. split; [done|].
  split; [done|]. split; [done|]. exact Hsq.
Qed.

Lemma exit_leads_to_next_level_witness :
  ∃ g1 g2 r2',
    checkGameState (afterStep 1 0 nearExit) [9]%nat = Some (g1, [9]%nat)
    ∧ gameStatus g1 = LevelComplete ∧ nextLevelTimeout g1 = true
    ∧ timerInterval g1 = false ∧ enemyInterval g1 = false
    ∧ stalkersInterval g1 = false
    ∧ nextLevelCallback g1 [2; 6]%nat = Some (g2, r2')
    ∧ level g2 = level (afterStep 1 0 nearExit) + 1
    ∧ score g2 = score g1 ∧ timer g2 = 0
    ∧ gameStatus g2 = Playing ∧ nextLevelTimeout g2 = false
    ∧ playerPosition g2 = (1, 1)
    ∧ squareOf (mazeSize (level (afterStep 1 0 nearExit) + 1)) (maze g2).
Proof.
  apply (exit_leads_to_next_level (afterStep 1 0 nearExit) [9]%nat [2; 6]%nat).
  - apply input_movePlayer.
    + apply (runEvents_reachable [] (tail toTheExit) initialGame).
      vm_compute. reflexivity.
    + vm_compute. reflexivity.
    + vm_compute. reflexivity.
    + vm_compute. reflexivity.
  - vm_compute. reflexivity.
  - vm_compute. reflexivity.
  - assert (Hnone : stalkers (afterStep 1 0 nearExit) = [])
      by (vm_compute; reflexivity).
    rewrite Hnone. apply not_elem_of_nil.
  - vm_compute. reflexivity.
  - assert (Hlevel : level (afterStep 1 0 nearExit) = 1) by (vm_compute; reflexivity).
    rewrite Hlevel. lia.
Defined.

(** X23.  Skipping a level in a started game always returns.  It does
    nothing at all when the status is not playing or the level is 29;
    otherwise it loads the next level at once: the level rises by one, the
    score is kept, the timer restarts at 0, the status stays playing, a
    pending load of the next level is cancelled and the player stands on
    (1,1) of a grid of the new level's size. *)
Theorem skipLevels_loads_next g r :
  reachable g →
  ∃ g' r',
    skipLevels g r = Some (g', r')
    ∧ (gameStatus g ≠ Playing ∨ level g = 29 → g' = g ∧ r' = r)
    ∧ (gameStatus g = Playing → level g ≠ 29 →
       level g' = level g + 1 ∧ score g' = score g ∧ timer g' = 0
       ∧ gameStatus g' = Playing ∧ nextLevelTimeout g' = false
       ∧ playerPosition g' = (1, 1)
       ∧ squareOf (mazeSize (level g + 1)) (maze g')).
Proof.
  intros Hg. destruct (reachable_sessionInv g Hg) as (_ & _ & Hl & _).
  unfold skipLevels.
  destruct (bool_decide (gameStatus g = Playing)) eqn:Hs; cbn [negb].
  2:{ apply bool_decide_eq_false in Hs. eexists _, _. split; [done|]. by split. }
  apply bool_decide_eq_true in Hs.
  destruct (level g =? 29) eqn:H29.
  { apply Z.eqb_eq in H29. eexists _, _. split; [done|]. by split. }
  apply Z.eqb_neq in H29. cbv zeta.
  assert (Hl1 : 1 ≤ level g + 1) by lia.
  set (g0 := stopStalkerMovement (stopEnemyMovement (stopTimer (setNextLevelTimeout false g)))).
  change (level (setLevel (level g0 + 1) g0)) with (level g + 1).
  destruct (loadLevel_total (level g + 1) (setLevel (level g0 + 1) g0) r Hl1)
    as [[g1 r1] Hload].
  rewrite Hload. eexists _, _. split; [done|].
  split; [intros [?|?]; done|]. intros _ _.
  destruct (loadLevel_fields _ _ _ _ _ Hl1 Hload)
    as (Hl2 & Hsc2 & _ & Hgs2 & _ & Hpp2 & _ & _ & (Hsq & _) & Hnl2 & _).
  destruct (tickers_fields g1)
    as (Hl' & Hsc' & Htm' & Hgs' & _ & _ & _ & _ & _ & Hpp' & Hmz'
        & _ & _ & _ & _ & Hnl' & _).
  cbv zeta in *.
  rewrite Hl', Hsc', Htm', Hgs', Hpp', Hmz', Hnl', Hl2, Hsc2, Hgs2, Hpp2, Hnl2.
  split; [done|]. split; [done|]. split; [done|]. split; [done|].
  split; [done|]. split; [done|]. exact Hsq.
Qed.

Lemma skipLevels_loads_next_witness :
  ∃ g' r',
    skipLevels nearExit [5; 3]%nat = Some (g', r')
    ∧ (gameStatus nearExit ≠ Playing ∨ level nearExit = 29 →
       g' = nearExit ∧ r' = [5; 3]%nat)
    ∧ (gameStatus nearExit = Playing → level nearExit ≠ 29 →
       level g' = level nearExit + 1 ∧ score g' = score nearExit ∧ timer g' = 0
       ∧ gameStatus g' = Playing ∧ nextLevelTimeout g' = false
       ∧ playerPosition g' = (1, 1)
       ∧ squareOf (mazeSize (level nearExit + 1)) (maze g')).
Proof.
  apply (skipLevels_loads_next nearExit [5; 3]%nat).
  apply (runEvents_reachable [] (tail toTheExit) initialGame).
  vm_compute. reflexivity.
Defined.


(** X24.  Finishing level 30 completes the game, and the game can go on.
    When the program runs [checkGameState] in a playing session at level
    30 with the player on the Exit cell and no stalker there, the status
    becomes game-complete, the score grows by the time bonus and 15000,
    the three tickers are stopped and no load is scheduled, so that the
    session rests: move intents are ignored.  [continueToInfinite] then
    always succeeds: it loads level 31 on a grid of side 65, keeps the
    score, restarts the timer at 0, puts the player on (1,1) and sets the
    status to playing. *)
Theorem level_30_completes_the_game g r r2 :
  resolverInput g → gameStatus g = Playing → playerHit g = false →
  playerPosition g ∉ stalkers g →
  cellAt (maze g) (playerPosition g).1 (playerPosition g).2 = Some Exit →
  level g = 30 →
  ∃ g1 g2 r2',
    checkGameState g r = Some (g1, r)
    ∧ gameStatus g1 = GameComplete
    ∧ score g1 = score g + Z.max 0 (1000 - timer g * 10) + 15000
    ∧ nextLevelTimeout g1 = false
    ∧ timerInterval g1 = false ∧ enemyInterval g1 = false
    ∧ stalkersInterval g1 = false
    ∧ (∀ dx dy r', movePlayer dx dy g1 r' = Some (g1, r'))
    ∧ continueToInfinite g1 r2 = Some (g2, r2')
    ∧ level g2 = 31 ∧ score g2 = score g1 ∧ timer g2 = 0
    ∧ gameStatus g2 = Playing
    ∧ playerPosition g2 = (1, 1)
    ∧ squareOf 65 (maze g2).
Proof.
  intros Hin Hs Hh Hst Hexit H30.
  pose proof (resolverInput_wellFormed g Hin) as Hwf.
  assert (Hcheck : checkGameState g r = Some (reachExit g, r))
    by (by apply checkGameState_exit).
  assert (Hone : reachExit g
                 = stopStalkerMovement (stopEnemyMovement (stopTimer
                     (setGameStatus GameComplete (setNextLevelTimeout false
                        (setScore (score g + Z.max 0 (1000 - timer g * 10) + 500 * level g)
                           g)))))).
  { unfold reachExit. cbv zeta. cbn [level setScore]. by rewrite H30. }
  exists (reachExit g).
  unfold continueToInfinite. cbv zeta.
  assert (Hlv : level (reachExit g) = 30) by (by rewrite Hone).
  rewrite Hlv.
  change (level (setLevel (30 + 1) (reachExit g))) with 31.
  assert (Hl1 : 1 ≤ 31) by lia.
  destruct (loadLevel_total 31 (setLevel (30 + 1) (reachExit g)) r2 Hl1)
    as [[g2 r2'] Hload].
  rewrite Hload. eexists _, _.
  split; [exact Hcheck|].
  split; [by rewrite Hone|].
  split; [rewrite Hone; simpl; lia|].
  split; [by rewrite Hone|]. split; [by rewrite Hone|].
  split; [by rewrite Hone|]. split; [by rewrite Hone|].
  split.
  { intros dx dy r'. unfold movePlayer. by rewrite Hone. }
  split; [done|].
  destruct (loadLevel_fields _ _ _ _ _ Hl1 Hload)
    as (Hl2 & Hsc2 & _ & _ & _ & Hpp2 & _ & _ & (Hsq & _) & _).
  destruct (tickers_fields (setGameStatus Playing g2))
    as (Hl' & Hsc' & Htm' & Hgs' & _ & _ & _ & _ & _ & Hpp' & Hmz' & _).
  cbv zeta in *.
  rewrite Hl', Hsc', Htm', Hgs', Hpp', Hmz'.
  cbn [level score gameStatus playerPosition maze setGameStatus].
  rewrite Hl2, Hsc2, Hpp2.
  split; [done|]. split; [done|]. split; [done|]. split; [done|].
  split; [done|]. exact Hsq.
Qed.

Lemma level_30_completes_the_game_witness :
  ∃ g1 g2 r2',
    checkGameState (afterStep 1 0 nearLastExit) [4]%nat = Some (g1, [4]%nat)
    ∧ gameStatus g1 = GameComplete
    ∧ score g1 = score (afterStep 1 0 nearLastExit)
                 + Z.max 0 (1000 - timer (afterStep 1 0 nearLastExit) * 10) + 15000
    ∧ nextLevelTimeout g1 = false
    ∧ timerInterval g1 = false ∧ enemyInterval g1 = false
    ∧ stalkersInterval g1 = false
    ∧ (∀ dx dy r', movePlayer dx dy g1 r' = Some (g1, r'))
    ∧ continueToInfinite g1 [1; 1]%nat = Some (g2, r2')
    ∧ level g2 = 31 ∧ score g2 = score g1 ∧ timer g2 = 0
    ∧ gameStatus g2 = Playing
    ∧ playerPosition g2 = (1, 1)
    ∧ squareOf 65 (maze g2).
Proof.
  apply (level_30_completes_the_game (afterStep 1 0 nearLastExit) [4]%nat [1; 1]%nat).
  - apply input_movePlayer.
    + apply (runEvents_reachable [] (tail toTheLastExit) initialGame).
      vm_compute. reflexivity.
    + vm_compute. reflexivity.
    + vm_compute. reflexivity.
    + vm_compute. reflexivity.
  - vm_compute. reflexivity.
  - vm_compute. reflexivity.
  - assert (Hone : stalkers (afterStep 1 0 nearLastExit) = [(12, 1)])
      by (vm_compute; reflexivity).
    assert (Hpos : playerPosition (afterStep 1 0 nearLastExit) = (63, 63))
      by (vm_compute; reflexivity).
    rewrite Hone, Hpos. rewrite list_elem_of_singleton. discriminate.
  - vm_compute. reflexivity.
  - vm_compute. reflexivity.
Defined.

(** ** The placement loop *)

(** X25.  The loop that draws positions for a kind of entity takes cells
    out of the candidate list without ever taking one twice: of distinct
    candidates it returns distinct cells, each of them a candidate, and
    exactly as many as were asked for, or all candidates when there are
    fewer. *)
Theorem placement_takes_what_is_there count cells r :
  NoDup cells →
  NoDup (pickCells count cells r).1
  ∧ (∀ p, p ∈ (pickCells count cells r).1 → p ∈ cells)
  ∧ length (pickCells count cells r).1 = (count `min` length cells)%nat.
Proof.
  intros Hnd. split; [by apply NoDup_pickCells|].
  split; [intros p; apply elem_of_pickCells|apply pickCells_length].
Qed.

Lemma placement_takes_what_is_there_witness :
  NoDup (pickCells 4 [(3, 1); (5, 1); (5, 3)] [7; 2; 9]%nat).1
  ∧ (∀ p, p ∈ (pickCells 4 [(3, 1); (5, 1); (5, 3)] [7; 2; 9]%nat).1 →
          p ∈ [(3, 1); (5, 1); (5, 3)])
  ∧ length (pickCells 4 [(3, 1); (5, 1); (5, 3)] [7; 2; 9]%nat).1
    = (4 `min` length [(3, 1); (5, 1); (5, 3)])%nat.
Proof.
  apply (placement_takes_what_is_there 4 [(3, 1); (5, 1); (5, 3)] [7; 2; 9]%nat).
  apply (bool_decide_unpack (NoDup _)). by vm_compute.
Defined.


(** ** The carved maze is a tree *)

Lemma elem_of_allCells size p : p ∈ allCells size ↔ inside size p.
Proof. unfold allCells, inside. rewrite elem_of_scanCells. tauto. Qed.

Lemma elem_of_latticeCells size p : p ∈ latticeCells size ↔ lattice size p.
Proof.
  unfold latticeCells, lattice. rewrite elem_of_scanCells.
  rewrite !andb_true_iff, !Z.ltb_lt. split.
  - intros (_ & _ & ((((? & ?) & ?) & ?) & ?) & ?). repeat split; lia || done.
  - intros ((? & ?) & (? & ?) & ? & ?). repeat split; lia || done.
Qed.

Lemma nonWall_setCell_iff m x y c p :
  c ≠ Wall → is_Some (cellAt m x y) →
  nonWall (setCell m x y c) p = true ↔ p = (x, y) ∨ nonWall m p = true.
Proof.
  intros Hc Hin. unfold nonWall. rewrite cellAt_setCell.
  destruct p as [px py]. simpl. case_decide as Hd.
  - destruct Hd as [[= -> ->] _]. destruct c; naive_solver.
  - split; [by right|]. intros [[= -> ->]|?]; [|done]. destruct Hd. done.
Qed.

Lemma countOpen_setCell_other m x y c (l : list Pos) :
  (x, y) ∉ l → countOpen (setCell m x y c) l = countOpen m l.
Proof.
  unfold countOpen. induction l as [|p l IH]; intros Hnot; [done|].
  apply not_elem_of_cons in Hnot as [Hne Hnot].
  rewrite !filter_cons.
  assert (Heq : nonWall (setCell m x y c) p = nonWall m p).
  { unfold nonWall. rewrite cellAt_setCell_ne; [done|].
    destruct p. simpl. congruence. }
  rewrite Heq. specialize (IH Hnot).
  destruct (decide (nonWall m p = true)); simpl; by rewrite IH.
Qed.

Lemma countOpen_setCell_new m x y c (l : list Pos) :
  NoDup l → (x, y) ∈ l → nonWall m (x, y) = false →
  c ≠ Wall → is_Some (cellAt m x y) →
  countOpen (setCell m x y c) l = S (countOpen m l).
Proof.
  intros Hnd Hin Hclosed Hc Hsome. revert Hin.
  induction Hnd as [|p l Hp Hnd IH]; intros Hin; [by apply elem_of_nil in Hin|].
  unfold countOpen in *. rewrite !filter_cons.
  apply elem_of_cons in Hin as [<-|Hin].
  - rewrite decide_True by (by apply nonWall_setCell_iff; [..|left]).
    rewrite decide_False by congruence.
    simpl. f_equal. by apply countOpen_setCell_other.
  - assert (Hne : p ≠ (x, y)) by (intros ->; done).
    assert (Heq : nonWall (setCell m x y c) p = nonWall m p).
    { unfold nonWall. rewrite cellAt_setCell_ne; [done|].
      destruct p. simpl. congruence. }
    rewrite Heq. specialize (IH Hin).
    destruct (decide (nonWall m p = true)); simpl; by rewrite IH.
Qed.

Lemma countOpen_setCell_open m x y c (l : list Pos) :
  nonWall m (x, y) = true → c ≠ Wall →
  countOpen (setCell m x y c) l = countOpen m l.
Proof.
  intros Hopen Hc. unfold countOpen.
  assert (Hsome : is_Some (cellAt m x y)).
  { unfold nonWall in Hopen. simpl in Hopen. by destruct (cellAt m x y). }
  induction l as [|p l IH]; [done|]. rewrite !filter_cons.
  assert (Heq : nonWall (setCell m x y c) p = nonWall m p).
  { apply Bool.eq_true_iff_eq. rewrite nonWall_setCell_iff by done.
    split; [intros [->|?]; done|by right]. }
  rewrite Heq. destruct (decide (nonWall m p = true)); simpl; by rewrite IH.
Qed.

Lemma countOpen_all m (l : list Pos) :
  (∀ p, p ∈ l → nonWall m p = true) → countOpen m l = length l.
Proof.
  unfold countOpen. induction l as [|p l IH]; intros Hall; [done|].
  rewrite filter_cons, decide_True by (apply Hall; left).
  simpl. f_equal. apply IH. intros q Hq. apply Hall. by right.
Qed.

Lemma countOpen_none m (l : list Pos) :
  (∀ p, p ∈ l → nonWall m p = false) → countOpen m l = 0%nat.
Proof.
  unfold countOpen. induction l as [|p l IH]; intros Hall; [done|].
  rewrite filter_cons, decide_False by (rewrite Hall; [done|left]).
  apply IH. intros q Hq. apply Hall. by right.
Qed.

Lemma odd_Odd z : Z.odd z = true → ∃ k, z = 2 * k + 1.
Proof. intros H. by apply Z.odd_spec in H. Qed.

(** A passage cell lies between exactly one pair of lattice cells. *)
Lemma midpoint_pair size c d c' d' :
  lattice size c → d ∈ carveDirections →
  lattice size c' → d' ∈ carveDirections →
  midpoint c' d' = midpoint c d →
  (c' = c ∧ move c' d' = move c d) ∨ (c' = move c d ∧ move c' d' = c).
Proof.
  intros (_ & _ & Hx & Hy) Hd (_ & _ & Hx' & Hy') Hd'.
  destruct c as [cx cy], c' as [cx' cy']. simpl in *.
  apply odd_Odd in Hx as [kx ->], Hy as [ky ->], Hx' as [kx' ->], Hy' as [ky' ->].
  apply carveDirections_cases in Hd, Hd'.
  unfold midpoint, move.
  destruct Hd as [-> | [-> | [-> | ->]]], Hd' as [-> | [-> | [-> | ->]]];
    cbn [fst snd];
    change (-2 / 2) with (-1); change (2 / 2) with 1; change (0 / 2) with 0;
    intros [= ? ?];
    first [ left; split; f_equal; lia | right; split; f_equal; lia | exfalso; lia ].
Qed.

Lemma midpoint_between size c d :
  lattice size c → d ∈ carveDirections → lattice size (move c d) →
  inside size (midpoint c d) ∧ midpoint c d ≠ move c d ∧ midpoint c d ≠ c
  ∧ ¬ lattice size (midpoint c d).
Proof.
  intros Hc Hd Hn. destruct d as [dx dy].
  destruct (carve_between size c dx dy Hc Hd Hn) as (? & _ & _ & ? & ? & ?).
  done.
Qed.

Section CarveTree.
Variable size : Z.
Variable rec : Maze → Z → Z → Rng → option (Maze * Rng).
Hypothesis rec_post : ∀ m n r m' r',
  squareOf size m → lattice size n →
  rec m n.1 n.2 r = Some (m', r') → carvePost size m n m'.
Hypothesis rec_tree : ∀ m n r m' r',
  squareOf size m → lattice size n →
  passagesJoin size (setCell m n.1 n.2 Path) →
  treeCount size (setCell m n.1 n.2 Path) →
  rec m n.1 n.2 r = Some (m', r') →
  passagesJoin size m' ∧ treeCount size m'.

Lemma carveLoop_tree c dirs :
  lattice size c →
  (∀ d, d ∈ dirs → d ∈ carveDirections) →
  ∀ m r m' r',
    squareOf size m → nonWall m c = true →
    passagesJoin size m → treeCount size m →
    carveLoop rec size c.1 c.2 dirs m r = Some (m', r') →
    passagesJoin size m' ∧ treeCount size m'.
Proof.
  intros Hc. induction dirs as [|[dx dy] dirs IH];
    intros Hdirs m r m' r' Hsq Hopen Hjoin Hcount Hrun.
  { simpl in Hrun. by simplify_eq. }
  assert (Hd : (dx, dy) ∈ carveDirections) by (apply Hdirs; left).
  assert (Hdirs' : ∀ d, d ∈ dirs → d ∈ carveDirections)
    by (intros; apply Hdirs; by right).
  specialize (IH Hdirs').
  simpl in Hrun.
  change (c.1 + dx, c.2 + dy) with (move c (dx, dy)) in *.
  set (n := move c (dx, dy)) in *.
  change (c.1 + dx) with n.1 in Hrun. change (c.2 + dy) with n.2 in Hrun.
  destruct ((0 <? n.2) && (n.2 <? size - 1) && (0 <? n.1) && (n.1 <? size - 1))
    eqn:Hbounds; cbn [andb] in Hrun; [|by eapply IH].
  pose proof (lattice_move _ _ _ Hc Hd Hbounds) as Hn. fold n in Hn.
  destruct (isWall (cellAt m n.1 n.2)) eqn:Hwall; [|by eapply IH].
  destruct (midpoint_between size c (dx, dy) Hc Hd Hn) as (Hmid_in & Hmid_n & Hmid_c & Hmid_lat).
  change (n.1 - dx / 2) with (midpoint c (dx, dy)).1 in Hrun.
  change (n.2 - dy / 2) with (midpoint c (dx, dy)).2 in Hrun.
  fold n in Hmid_n.
  set (mid := midpoint c (dx, dy)) in *.
  assert (Hn_closed : nonWall m n = false).
  { rewrite (nonWall_false_isWall size); [|done|by apply lattice_inside].
    by rewrite Hwall. }
  assert (Hmid_closed : nonWall m mid = false).
  { destruct (nonWall m mid) eqn:Hm; [|done].
    destruct (Hjoin c (dx, dy) Hc Hd Hn Hm) as [_ Hn']. fold n in Hn'. congruence. }
  set (m2 := setCell m mid.1 mid.2 Path) in *.
  assert (Hsq2 : squareOf size m2) by by apply squareOf_setCell.
  assert (Hmid_some : is_Some (cellAt m mid.1 mid.2)).
  { eapply cellAt_inside; [done|]. by destruct mid. }
  assert (Hn_some2 : is_Some (cellAt m2 n.1 n.2)).
  { eapply cellAt_inside; [done|]. destruct n. by apply lattice_inside. }
  assert (Hopen2 : ∀ p, nonWall m2 p = true ↔ p = mid ∨ nonWall m p = true).
  { intros p. unfold m2. rewrite nonWall_setCell_iff by done. by destruct mid. }
  assert (Hopen3 : ∀ p, nonWall (setCell m2 n.1 n.2 Path) p = true
                        ↔ p = n ∨ p = mid ∨ nonWall m p = true).
  { intros p. rewrite nonWall_setCell_iff by done. rewrite Hopen2. by destruct n. }
  destruct (rec m2 n.1 n.2 r) as [[m3 r3]|] eqn:Hrec; [|done].
  destruct (rec_post _ n _ _ _ Hsq2 Hn Hrec) as (Hsq3 & Hmono3 & _).
  destruct (rec_tree m2 n r m3 r3 Hsq2 Hn) as [Hjoin3 Hcount3]; [| |done|].
  - (* the passages of the grid with the two new cells *)
    intros c' d' Hc' Hd' Hn' Hm'. rewrite !Hopen3.
    apply Hopen3 in Hm' as [Hm'|[Hm'|Hm']].
    + destruct (midpoint_between size c' d' Hc' Hd' Hn') as (_ & _ & _ & Hlat').
      rewrite Hm' in Hlat'. done.
    + destruct (midpoint_pair size c (dx, dy) c' d' Hc Hd Hc' Hd' Hm')
        as [[-> ->]|[-> ->]]; fold n; auto.
    + destruct (Hjoin c' d' Hc' Hd' Hn' Hm'). auto.
  - (* the count of the grid with the two new cells *)
    unfold treeCount.
    assert (Hn_closed2 : nonWall m2 n = false).
    { destruct (nonWall m2 n) eqn:Hm; [|done].
      apply Hopen2 in Hm as [Hm|Hm]; [by symmetry in Hm|congruence]. }
    rewrite (countOpen_setCell_new m2 n.1 n.2 Path (allCells size));
      [|apply NoDup_scanCells|apply elem_of_allCells; destruct n; by apply lattice_inside
       |by destruct n|done|done].
    rewrite (countOpen_setCell_new m2 n.1 n.2 Path (latticeCells size));
      [|apply NoDup_scanCells|apply elem_of_latticeCells; by destruct n
       |by destruct n|done|done].
    unfold m2.
    rewrite (countOpen_setCell_new m mid.1 mid.2 Path (allCells size));
      [|apply NoDup_scanCells|apply elem_of_allCells; by destruct mid
       |by destruct mid|done|done].
    rewrite (countOpen_setCell_other m mid.1 mid.2 Path (latticeCells size)).
    + unfold treeCount in Hcount. lia.
    + rewrite elem_of_latticeCells. by destruct mid.
  - eapply IH; [exact Hsq3| |exact Hjoin3|exact Hcount3|exact Hrun].
    apply Hmono3, Hopen2. by right.
Qed.
End CarveTree.

Lemma carve_tree size fuel : ∀ m c r m' r',
  squareOf size m → lattice size c →
  passagesJoin size (setCell m c.1 c.2 Path) →
  treeCount size (setCell m c.1 c.2 Path) →
  carve fuel size m c.1 c.2 r = Some (m', r') →
  passagesJoin size m' ∧ treeCount size m'.
Proof.
  induction fuel as [|fuel IH]; intros m c r m' r' Hsq Hc Hjoin Hcount Hrun; [done|].
  simpl in Hrun.
  destruct (shuffle carveDirections r) as [dirs r1] eqn:Hsh.
  assert (Hdirs : ∀ d, d ∈ dirs → d ∈ carveDirections).
  { intros d Hd. rewrite <- (elem_of_shuffle carveDirections r d). by rewrite Hsh. }
  assert (Hopen : nonWall (setCell m c.1 c.2 Path) c = true).
  { destruct c as [cx cy]. apply (nonWall_setCell_here m cx cy Path); [done|].
    eapply cellAt_inside; [done|]. by apply lattice_inside. }
  exact (carveLoop_tree size (carve fuel size) (carve_spec size fuel) IH c dirs Hc Hdirs
           (setCell m c.1 c.2 Path) r1 m' r' (squareOf_setCell _ _ _ _ _ Hsq)
           Hopen Hjoin Hcount Hrun).
Qed.

Lemma tree_start size :
  3 ≤ size →
  passagesJoin size (setCell (blankMaze size) 1 1 Path)
  ∧ treeCount size (setCell (blankMaze size) 1 1 Path).
Proof.
  intros Hsize.
  assert (Hone : lattice size (1, 1)) by (unfold lattice; simpl; repeat split; lia || done).
  assert (Hsome : is_Some (cellAt (blankMaze size) 1 1)).
  { eapply cellAt_inside; [apply squareOf_blankMaze|]. by apply lattice_inside. }
  assert (Hopen : ∀ p, nonWall (setCell (blankMaze size) 1 1 Path) p = true ↔ p = (1, 1)).
  { intros p. rewrite nonWall_setCell_iff by done. rewrite nonWall_blankMaze.
    split; [by intros [?|?]|by left]. }
  split.
  - intros c d Hc Hd Hn Hm. apply Hopen in Hm.
    destruct (midpoint_between size c d Hc Hd Hn) as (_ & _ & _ & Hlat).
    rewrite Hm in Hlat. done.
  - unfold treeCount.
    rewrite (countOpen_setCell_new _ 1 1 Path (allCells size));
      [|apply NoDup_scanCells|apply elem_of_allCells; by apply lattice_inside
       |apply nonWall_blankMaze|done|done].
    rewrite (countOpen_setCell_new _ 1 1 Path (latticeCells size));
      [|apply NoDup_scanCells|by apply elem_of_latticeCells
       |apply nonWall_blankMaze|done|done].
    rewrite !countOpen_none by (intros; apply nonWall_blankMaze). done.
Qed.

Lemma length_allCells size : 0 ≤ size → length (allCells size) = Z.to_nat (size * size).
Proof.
  intros Hsize. unfold allCells, scanCells.
  rewrite length_scanRows by done. rewrite length_seqZ. lia.
Qed.

Lemma length_latticeCells size :
  1 ≤ size → Z.odd size = true →
  length (latticeCells size) = Z.to_nat ((size - 1) / 2 * ((size - 1) / 2)).
Proof.
  intros Hsize [n ->]%odd_Odd.
  replace ((2 * n + 1 - 1) / 2) with n
    by (replace (2 * n + 1 - 1) with (n * 2) by lia; by rewrite Z.div_mul).
  rewrite <- length_allCells by lia.
  rewrite <- (length_fmap (λ p : Pos, (2 * p.1 + 1, 2 * p.2 + 1)) (allCells n)).
  apply Permutation_length, NoDup_Permutation.
  - apply NoDup_scanCells.
  - apply NoDup_fmap_2; [|apply NoDup_scanCells].
    intros [a b] [a' b'] [= ? ?]. f_equal; lia.
  - intros [x y]. rewrite elem_of_latticeCells, list_elem_of_fmap.
    setoid_rewrite elem_of_allCells. unfold lattice, inside. simpl. split.
    + intros (Hx & Hy & [kx ->]%odd_Odd & [ky ->]%odd_Odd).
      exists (kx, ky). simpl. split; [done|lia].
    + intros ([a b] & [= -> ->] & Ha & Hb). simpl in *.
      split; [lia|]. split; [lia|].
      rewrite !Z.odd_add, !Z.odd_mul. done.
Qed.

Lemma countOpen_removeWalls size n : ∀ m r,
  squareOf size m →
  (countOpen m (allCells size)
   ≤ countOpen (removeWalls n size m r).1 (allCells size)
   ≤ countOpen m (allCells size) + n)%nat.
Proof.
  induction n as [|n IH]; intros m r Hsq; [simpl; lia|].
  simpl. destruct (randInt _ r) as [a r1]. destruct (randInt _ r1) as [b r2].
  destruct (removeWallAt_cases size m (Z.of_nat a + 1) (Z.of_nat b + 1) Hsq)
    as [->|[[Hwall _] ->]].
  - specialize (IH m r2 Hsq). lia.
  - specialize (IH (setCell m (Z.of_nat a + 1) (Z.of_nat b + 1) Path) r2
                  (squareOf_setCell _ _ _ _ _ Hsq)).
    rewrite (countOpen_setCell_new m _ _ Path (allCells size)) in IH;
      [lia|apply NoDup_scanCells| | |done|by rewrite Hwall].
    + apply elem_of_allCells. by eapply cellAt_Some_inside.
    + unfold nonWall. simpl. by rewrite Hwall.
Qed.

(** X26.  Carving opens as many cells as a tree has.  For every level of
    at least 1 and every random outcome, [carve] opens all
    [n = ((size-1)/2)^2] cells of the lattice and [2n - 1] cells in all,
    one cell between two lattice cells for each lattice cell but the
    first; and every open cell between two lattice cells has both of them
    open.  The wall-removal pass that follows closes no cell and opens at
    most [floor(size * level / 5)] more. *)
Theorem carving_makes_a_tree level r :
  1 ≤ level →
  let size := mazeSize level in
  let n := Z.to_nat ((size - 1) / 2 * ((size - 1) / 2)) in
  ∃ carvedGrid r1 grid r2,
    carve (carveFuel size) size (blankMaze size) 1 1 r = Some (carvedGrid, r1)
    ∧ length (latticeCells size) = n
    ∧ countOpen carvedGrid (latticeCells size) = n
    ∧ countOpen carvedGrid (allCells size) = (2 * n - 1)%nat
    ∧ passagesJoin size carvedGrid
    ∧ generateMaze level r = Some (grid, r2)
    ∧ (2 * n - 1 ≤ countOpen grid (allCells size)
       ≤ 2 * n - 1 + removalIterations size level)%nat.
Proof.
  intros Hl size n. destruct (mazeSize_bounds level Hl) as [Hsize Hodd].
  fold size in Hsize, Hodd.
  destruct (carve_blank_total size r) as [[m r1] Hrun]; [lia|].
  assert (Hcarved : carved size m)
    by (eapply carved_of_carve; [|done|exact Hrun]; lia).
  destruct (tree_start size ltac:(lia)) as [Hjoin0 Hcount0].
  destruct (carve_tree size (carveFuel size) (blankMaze size) (1, 1) r m r1)
    as [Hjoin Hcount];
    [apply squareOf_blankMaze| |exact Hjoin0|exact Hcount0|exact Hrun|].
  { unfold lattice; simpl; repeat split; lia || done. }
  assert (Hlen : length (latticeCells size) = n)
    by (apply length_latticeCells; [lia|done]).
  assert (Hlat : countOpen m (latticeCells size) = n).
  { rewrite countOpen_all; [done|]. intros p Hp%elem_of_latticeCells.
    by apply Hcarved. }
  assert (Hall : countOpen m (allCells size) = (2 * n - 1)%nat).
  { unfold treeCount in Hcount. lia. }
  pose proof (countOpen_removeWalls size (removalIterations size level) m r1
                (proj1 Hcarved)) as Hrem.
  pose proof (carved_removeWalls size (removalIterations size level) m r1 Hcarved)
    as Hcarved'.
  exists m, r1.
  unfold generateMaze. fold (mazeSize level). fold size. rewrite Hrun.
  destruct (removeWalls _ size m r1) as [noisy r2]. simpl in Hrem, Hcarved'.
  eexists _, _. do 5 (split; [done|]). split; [done|].
  destruct Hcarved' as (Hsq' & Hlat' & _).
  assert (H11 : nonWall noisy (1, 1) = true).
  { apply Hlat'. unfold lattice; simpl; repeat split; lia || done. }
  assert (Hee : nonWall (setCell noisy 1 1 Start) (size - 2, size - 2) = true).
  { apply nonWall_setCell; [done|]. apply Hlat'.
    unfold lattice; simpl. repeat split; try lia; by rewrite Z.odd_sub, Hodd. }
  rewrite !countOpen_setCell_open by done. lia.
Qed.

Lemma carving_makes_a_tree_witness :
  ∃ carvedGrid r1 grid r2,
    carve (carveFuel (mazeSize 2)) (mazeSize 2) (blankMaze (mazeSize 2)) 1 1 [3; 0; 2]%nat
      = Some (carvedGrid, r1)
    ∧ length (latticeCells (mazeSize 2))
      = Z.to_nat ((mazeSize 2 - 1) / 2 * ((mazeSize 2 - 1) / 2))
    ∧ countOpen carvedGrid (latticeCells (mazeSize 2))
      = Z.to_nat ((mazeSize 2 - 1) / 2 * ((mazeSize 2 - 1) / 2))
    ∧ countOpen carvedGrid (allCells (mazeSize 2))
      = (2 * Z.to_nat ((mazeSize 2 - 1) / 2 * ((mazeSize 2 - 1) / 2)) - 1)%nat
    ∧ passagesJoin (mazeSize 2) carvedGrid
    ∧ generateMaze 2 [3; 0; 2]%nat = Some (grid, r2)
    ∧ (2 * Z.to_nat ((mazeSize 2 - 1) / 2 * ((mazeSize 2 - 1) / 2)) - 1
       ≤ countOpen grid (allCells (mazeSize 2))
       ≤ 2 * Z.to_nat ((mazeSize 2 - 1) / 2 * ((mazeSize 2 - 1) / 2)) - 1
         + removalIterations (mazeSize 2) 2)%nat.
Proof. apply (carving_makes_a_tree 2 [3; 0; 2]%nat). lia. Defined.


(** ** Entities stay on open cells *)

Lemma enterable_nonWall m p : enterable m p = true ↔ nonWall m p = true.
Proof.
  unfold enterable, nonWall, cellAt, mazeHeight, rowWidth. destruct p as [x y]. simpl.
  split.
  - rewrite !andb_true_iff, !Z.leb_le, !Z.ltb_lt.
    intros ((((Hy0 & Hy) & Hx0) & Hx) & Hw).
    rewrite (proj2 (Z.leb_le _ _) Hx0), (proj2 (Z.leb_le _ _) Hy0) in *. simpl in *.
    destruct (m !! Z.to_nat y) as [row|] eqn:Hrow; [|lia]. simpl in *.
    destruct (row !! Z.to_nat x) as [c|] eqn:Hc.
    + by destruct c.
    + apply lookup_ge_None in Hc. lia.
  - destruct ((0 <=? x) && (0 <=? y)) eqn:Hb; [|done].
    apply andb_true_iff in Hb as [Hx0%Z.leb_le Hy0%Z.leb_le].
    destruct (m !! Z.to_nat y) as [row|] eqn:Hrow; [|done]. simpl.
    destruct (row !! Z.to_nat x) as [c|] eqn:Hc; [|done].
    apply lookup_lt_Some in Hrow, Hc. intros Hw.
    rewrite !andb_true_iff, !Z.leb_le, !Z.ltb_lt.
    repeat split; try lia. by destruct c.
Qed.

Lemma onOpenCells_same g g' :
  maze g' = maze g → enemies g' = enemies g → stalkers g' = stalkers g →
  onOpenCells g → onOpenCells g'.
Proof. unfold onOpenCells. by intros -> -> ->. Qed.

Lemma spawned_open lvl mz (g0 : Game) (r1 : Rng) (g3 : Game) (r4 : Rng) :
  let es := enemies (spawnEnemies lvl mz g0 r1).1 in
  let ss := stalkers (spawnStalkers lvl mz g3 r4).1 in
  ∀ g', maze g' = mz → enemies g' = es → stalkers g' = ss → onOpenCells g'.
Proof.
  intros es ss g' Hm He Hs. unfold onOpenCells. rewrite Hm, He, Hs. split.
  - pose proof (spawnEnemies_spec lvl mz g0 r1) as [Hp _].
    eapply Forall_impl; [exact Hp|]. intros p Hc. by apply nonWall_of_Path.
  - pose proof (spawnStalkers_spec lvl mz g3 r4) as [Hp _].
    eapply Forall_impl; [exact Hp|]. intros p Hc. by apply nonWall_of_Path.
Qed.

Lemma onOpenCells_loadLevel lvl g r g' r' :
  1 ≤ lvl → loadLevel lvl g r = Some (g', r') → onOpenCells g'.
Proof.
  intros Hl Hload.
  destruct (loadLevel_shape lvl g r Hl)
    as (mz & r1 & r2 & r3 & r4 & r'' & _ & Hrun).
  cbv zeta in Hrun. rewrite Hload in Hrun. injection Hrun as -> _.
  eapply (spawned_open lvl mz _ r1 _ r4); reflexivity.
Qed.

Lemma onOpenCells_regenerate g r g' r' :
  regenerateMazeFromPlayerPosition g r = Some (g', r') → onOpenCells g'.
Proof.
  intros Hrun.
  destruct (regenerate_shape g r g' r' Hrun) as (layout & r1 & r2 & r3 & r4 & _ & ->).
  eapply (spawned_open (level g) _ _ r1 _ r4); reflexivity.
Qed.

Lemma onOpenCells_checkGameState g r g' r' :
  checkGameState g r = Some (g', r') → onOpenCells g → onOpenCells g'.
Proof.
  intros Hrun Hinv.
  destruct (checkGameState_cases g r g' r' Hrun) as [[-> ->]|(_ & _ & Hcase)]; [done|].
  destruct Hcase as [[-> ->]|[(dest & _ & _ & -> & _)|(g0 & Hg0 & Hcase)]];
    [revert Hinv; by apply onOpenCells_same..|].
  assert (Hinv0 : onOpenCells g0) by (by destruct Hg0 as [->| ->]).
  destruct Hcase as [Hregen|[[-> ->]|[[-> ->]|[-> ->]]]].
  - by eapply onOpenCells_regenerate.
  - destruct (reachExit_fields g0) as (_ & Hm & _).
    destruct (reachExit_more g0) as (_ & _ & _ & He & Hs & _).
    revert Hinv0. by apply onOpenCells_same.
  - revert Hinv0. by apply onOpenCells_same.
  - done.
Qed.

Lemma onOpenCells_tickers g :
  onOpenCells g → onOpenCells (startStalkerMovement (startEnemyMovement (startTimer g))).
Proof.
  destruct (tickers_fields g)
    as (_ & _ & _ & _ & _ & He & _ & _ & Hs & _ & Hm & _).
  by apply onOpenCells_same.
Qed.

Lemma stalkerStep_open m size player s s' :
  0 ≤ size → squareOf size m → nonWall m s = true →
  stalkerStep m player s = Some s' → nonWall m s' = true.
Proof.
  intros Hsize Hsq Hopen Hstep.
  destruct (stalkerStep_spec m player s)
    as (s'' & Hs & [(path & [Hw _] & ->)|[_ ->]]);
    rewrite Hstep in Hs; simplify_eq; [|done].
  destruct (path !! 1%nat) as [q|] eqn:Hq; [|done]. simpl.
  destruct (walk_second _ _ _ _ _ Hw Hq) as [_ Hwalk].
  unfold walkable in Hwalk.
  apply andb_true_iff in Hwalk as [Hb Hwall].
  assert (Hin : inside size q).
  { rewrite (mazeHeight_square size), (rowWidth_square size) in Hb by (done || lia).
    unfold inside. lia. }
  destruct (cellAt_inside size m q.1 q.2 Hsq) as [c Hc]; [by destruct q|].
  unfold nonWall. rewrite Hc in *. by destruct c.
Qed.

Lemma enemies_open mz player es : ∀ r,
  Forall (λ p, nonWall mz p = true) es →
  Forall (λ p, nonWall mz p = true) (newEnemyPositions mz player es r).1.
Proof.
  induction es as [|e es IH]; intros r Hall; [constructor|].
  apply Forall_cons in Hall as [He Hall]. simpl.
  pose proof (enemyStep_spec mz player e r) as Hstep.
  destruct (enemyStep mz player e r) as [e' r1]. simpl in Hstep.
  specialize (IH r1 Hall). destruct (newEnemyPositions mz player es r1) as [ps r2].
  simpl in *. constructor; [|done].
  destruct Hstep as [[_ ->]|(d & _ & _ & Hopen & _)]; [done|].
  by apply enterable_nonWall.
Qed.

Lemma reachable_onOpenCells g : reachable g → onOpenCells g.
Proof.
  induction 1 as [g r g' r' Hrun|g dx dy r g' r' Hg IH Hrun|g r g' r' Hg IH Hrun
                 |g r g' r' Hg IH Hrun|g _ IH|g _ IH|g r g' r' Hg IH Hrun
                 |g r g' r' Hg IH Hrun|g r g' r' Hg IH Hrun|g _ IH].
  - unfold startGame in Hrun. cbv zeta in Hrun.
    destruct (loadLevel _ _ r) as [[g1 r1]|] eqn:Hload; [|done].
    injection Hrun as <- _. apply onOpenCells_tickers.
    assert (H1 : 1 ≤ 1) by lia.
    pose proof (onOpenCells_loadLevel _ _ _ _ _ H1 Hload) as Hopen.
    revert Hopen. by apply onOpenCells_same.
  - rewrite movePlayer_checks in Hrun.
    destruct (negb _ || playerHit g); [by simplify_eq|].
    destruct (moveAccepted dx dy g); [|by simplify_eq].
    eapply onOpenCells_checkGameState; [exact Hrun|].
    revert IH. unfold afterStep. destruct (negb _); by apply onOpenCells_same.
  - rewrite moveEnemies_checks in Hrun.
    eapply onOpenCells_checkGameState; [exact Hrun|].
    destruct IH as [He Hs]. split; [|done]. simpl.
    pose proof (enemies_open (maze g) (playerPosition g) (enemies g) r He) as Hmoved.
    exact Hmoved.
  - unfold moveStalkers in Hrun.
    destruct (length (stalkers g) =? 0)%nat; [by simplify_eq|].
    destruct (newStalkerPositions _ _ _) as [positions|] eqn:Hpos; [|done].
    eapply onOpenCells_checkGameState; [exact Hrun|].
    destruct IH as [He Hs]. split; [done|]. simpl.
    destruct (reachable_wellFormed g Hg) as (Hl & (Hsq & _) & _).
    destruct (mazeSize_bounds _ Hl) as [Hsize _].
    apply mapM_Some_1 in Hpos.
    apply Forall_forall. intros s' [i Hi]%list_elem_of_lookup.
    destruct (Forall2_lookup_r _ _ _ _ _ Hpos Hi) as (s & Hs0 & Hstep).
    eapply (stalkerStep_open _ (mazeSize (level g))); [lia|done| |exact Hstep].
    exact (Forall_lookup_1 _ _ _ _ Hs Hs0).
  - revert IH. by apply onOpenCells_same.
  - revert IH. by apply onOpenCells_same.
  - unfold nextLevelCallback in Hrun. cbv zeta in Hrun.
    destruct (loadLevel _ _ r) as [[g1 r1]|] eqn:Hload; [|done].
    injection Hrun as <- _. apply onOpenCells_tickers.
    destruct (reachable_sessionInv g Hg) as (_ & _ & Hl & _).
    assert (H1 : 1 ≤ level g + 1) by lia.
    pose proof (onOpenCells_loadLevel _ _ _ _ _ H1 Hload) as Hopen.
    revert Hopen. by apply onOpenCells_same.
  - unfold skipLevels in Hrun.
    destruct (negb _); [by simplify_eq|].
    destruct (level g =? 29); [by simplify_eq|].
    cbv zeta in Hrun.
    destruct (loadLevel _ _ r) as [[g1 r1]|] eqn:Hload; [|done].
    injection Hrun as <- _. apply onOpenCells_tickers.
    destruct (reachable_sessionInv g Hg) as (_ & _ & Hl & _).
    assert (H1 : 1 ≤ level g + 1) by lia.
    exact (onOpenCells_loadLevel _ _ _ _ _ H1 Hload).
  - unfold continueToInfinite in Hrun. cbv zeta in Hrun.
    destruct (loadLevel _ _ r) as [[g1 r1]|] eqn:Hload; [|done].
    injection Hrun as <- _. apply onOpenCells_tickers.
    destruct (reachable_sessionInv g Hg) as (_ & _ & Hl & _).
    assert (H1 : 1 ≤ level g + 1) by lia.
    pose proof (onOpenCells_loadLevel _ _ _ _ _ H1 Hload) as Hopen.
    revert Hopen. by apply onOpenCells_same.
  - revert IH. by apply onOpenCells_same.
Qed.

(** X27.  Throughout a started game no entity is ever inside a wall or
    outside the grid: after every load, regeneration and tick each enemy
    and each stalker stands on a cell inside the grid that is not a Wall,
    and each regenerate icon and each teleporter lies on a Path cell. *)
Theorem entities_stay_on_open_cells g :
  reachable g →
  Forall (λ p, enterable (maze g) p = true) (enemies g)
  ∧ Forall (λ p, enterable (maze g) p = true) (stalkers g)
  ∧ Forall (λ p, cellAt (maze g) p.1 p.2 = Some Path) (regenerateIconPositions g)
  ∧ Forall (λ p, cellAt (maze g) p.1 p.2 = Some Path) (teleporterPositions g).
Proof.
  intros Hg. destruct (reachable_onOpenCells g Hg) as [He Hs].
  destruct (reachable_wellFormed g Hg) as (_ & _ & _ & Hi & Ht & _).
  split; [eapply Forall_impl; [exact He|]; intros p Hp; by apply enterable_nonWall|].
  split; [eapply Forall_impl; [exact Hs|]; intros p Hp; by apply enterable_nonWall|].
  done.
Qed.

Lemma entities_stay_on_open_cells_witness :
  Forall (λ p, enterable (maze atLevel20) p = true) (enemies atLevel20)
  ∧ Forall (λ p, enterable (maze atLevel20) p = true) (stalkers atLevel20)
  ∧ Forall (λ p, cellAt (maze atLevel20) p.1 p.2 = Some Path)
      (regenerateIconPositions atLevel20)
  ∧ Forall (λ p, cellAt (maze atLevel20) p.1 p.2 = Some Path)
      (teleporterPositions atLevel20).
Proof.
  apply (entities_stay_on_open_cells atLevel20).
  apply (runEvents_reachable [] (tail toLevel20) initialGame).
  vm_compute. reflexivity.
Defined.

(** ** Teleporters work both ways *)

Lemma partner_partner i :
  (if Nat.even (if Nat.even i then i + 1 else i - 1)
   then (if Nat.even i then i + 1 else i - 1) + 1
   else (if Nat.even i then i + 1 else i - 1) - 1)%nat = i.
Proof.
  destruct (Nat.even i) eqn:He.
  - rewrite Nat.add_1_r, Nat.even_succ, <- Nat.negb_even, He. simpl. lia.
  - destruct i as [|i]; [done|].
    rewrite Nat.even_succ, <- Nat.negb_even in He. apply negb_false_iff in He.
    replace (S i - 1)%nat with i by lia. rewrite He. lia.
Qed.

(** X28.  Teleporters are linked in both directions.  When the resolver
    lets the player jump from the teleporter at index [i], the player
    lands on the teleporter at the partner index, a different cell; and
    from there, once teleporting is enabled again and no stalker stands
    on that cell, the resolver sends the player back to the cell where
    the first jump began. *)
Theorem teleporters_work_both_ways g r i :
  resolverInput g → gameStatus g = Playing → playerHit g = false →
  playerPosition g ∉ stalkers g →
  teleporterPositions g !! i = Some (playerPosition g) →
  canTeleport g = true →
  ∃ dest,
    teleporterPositions g !! (if Nat.even i then i + 1 else i - 1)%nat = Some dest
    ∧ dest ≠ playerPosition g
    ∧ checkGameState g r = Some (setPlayerPosition dest (setCanTeleport false g), r)
    ∧ (dest ∉ stalkers g →
       ∀ r', checkGameState (setCanTeleport true (setPlayerPosition dest g)) r'
             = Some (setPlayerPosition (playerPosition g)
                       (setCanTeleport false
                          (setCanTeleport true (setPlayerPosition dest g))), r')).
Proof.
  intros Hin Hs Hh Hst Hi Hc. pose proof (resolverInput_wellFormed g Hin) as Hwf.
  destruct (checkGameState_teleport g r i Hwf Hs Hh Hst Hi Hc) as (dest & Hd & Hrun).
  assert (Hd' : teleporterPositions g !! (if Nat.even i then i + 1 else i - 1)%nat
                = Some dest).
  { destruct (Nat.even i); [by rewrite Nat.add_1_r|by rewrite Nat.sub_1_r]. }
  exists dest. split; [done|].
  assert (Hnd : NoDup (teleporterPositions g)) by apply Hwf.
  split.
  { intros ->.
    pose proof (NoDup_lookup _ _ _ _ Hnd Hi Hd') as Heq.
    destruct (Nat.even i) eqn:He; [lia|].
    destruct i as [|i]; [done|]. lia. }
  split; [done|].
  intros Hst' r'.
  set (g2 := setCanTeleport true (setPlayerPosition dest g)).
  assert (Hwf2 : wellFormed g2).
  { apply wellFormed_setCanTeleport.
    apply (wellFormed_fields (setPlayerPosition dest (setCanTeleport false g)));
      try done.
    by eapply wellFormed_teleport. }
  destruct (checkGameState_teleport g2 r' (if Nat.even i then i + 1 else i - 1)%nat
              Hwf2 Hs Hh Hst' Hd' eq_refl) as (back & Hb & Hrun2).
  rewrite Hrun2. do 3 f_equal.
  assert (Hb' : teleporterPositions g !! i = Some back).
  { rewrite <- Hb. f_equal. symmetry.
    pose proof (partner_partner i) as Hp.
    destruct (Nat.even (if Nat.even i then (i + 1)%nat else (i - 1)%nat));
      [by rewrite <- Nat.add_1_r|by rewrite <- Nat.sub_1_r]. }
  congruence.
Qed.

Lemma teleporters_work_both_ways_witness :
  ∃ dest,
    teleporterPositions (afterStep 0 1 atLevel20) !! (if Nat.even 0 then 0 + 1 else 0 - 1)%nat
    = Some dest
    ∧ dest ≠ playerPosition (afterStep 0 1 atLevel20)
    ∧ checkGameState (afterStep 0 1 atLevel20) [5]%nat
      = Some (setPlayerPosition dest (setCanTeleport false (afterStep 0 1 atLevel20)),
              [5]%nat)
    ∧ (dest ∉ stalkers (afterStep 0 1 atLevel20) →
       ∀ r', checkGameState
               (setCanTeleport true (setPlayerPosition dest (afterStep 0 1 atLevel20))) r'
             = Some (setPlayerPosition (playerPosition (afterStep 0 1 atLevel20))
                       (setCanTeleport false
                          (setCanTeleport true
                             (setPlayerPosition dest (afterStep 0 1 atLevel20)))), r')).
Proof.
  apply (teleporters_work_both_ways (afterStep 0 1 atLevel20) [5]%nat 0).
  - apply input_movePlayer.
    + apply (runEvents_reachable [] (tail toLevel20) initialGame).
      vm_compute. reflexivity.
    + vm_compute. reflexivity.
    + vm_compute. reflexivity.
    + vm_compute. reflexivity.
  - vm_compute. reflexivity.
  - vm_compute. reflexivity.
  - assert (Hnone : stalkers (afterStep 0 1 atLevel20) = [])
      by (vm_compute; reflexivity).
    rewrite Hnone. apply not_elem_of_nil.
  - vm_compute. reflexivity.
  - vm_compute. reflexivity.
Defined.


(** ** Stalkers in a generated maze *)

Lemma adjacent_stepTo size m b c :
  squareOf size m → 0 ≤ size → adjacent b c → nonWall m c = true → stepTo m b c.
Proof.
  intros Hsq Hsize Hadj Hopen. split.
  - exists (c.1 - b.1, c.2 - b.2). split.
    + unfold adjacent in Hadj. unfold stalkerDirections. rewrite !elem_of_cons.
      destruct b as [bx by'], c as [cx cy]. simpl in *.
      assert ((cx - bx = 0 ∧ cy - by' = 1) ∨ (cx - bx = 0 ∧ cy - by' = -1)
              ∨ (cx - bx = 1 ∧ cy - by' = 0) ∨ (cx - bx = -1 ∧ cy - by' = 0))
        as [[-> ->]|[[-> ->]|[[-> ->]|[-> ->]]]] by lia; tauto.
    + unfold move. destruct b, c. simpl. f_equal; lia.
  - pose proof (nonWall_inside size m c Hsq Hopen) as [Hx Hy].
    unfold walkable.
    rewrite (mazeHeight_square size), (rowWidth_square size) by (done || lia).
    unfold nonWall in Hopen.
    destruct (cellAt m c.1 c.2) as [cell|]; [|done].
    rewrite !andb_true_iff, !Z.leb_le, !Z.ltb_lt.
    repeat split; try lia. by destruct cell.
Qed.

Lemma connected_walk size m a b :
  squareOf size m → 0 ≤ size → connected m a b → ∃ q, walk m a q b.
Proof.
  intros Hsq Hsize. induction 1 as [|b c _ [q Hq] Hadj Hopen].
  - exists [a]. constructor.
  - exists (q ++ [c]). eapply walk_step; [done|]. by eapply adjacent_stepTo.
Qed.

(** X29.  In every generated maze a stalker can reach the player.  For
    every level of at least 1 and every random outcome, on the grid that
    [generateMaze] returns, a stalker on an open cell other than the
    player's open cell has a route to the player, and its step takes it
    to a neighbouring cell from which the shortest route is one cell
    shorter. *)
Theorem stalker_hunts_in_generated_maze level r :
  1 ≤ level →
  ∃ grid r',
    generateMaze level r = Some (grid, r')
    ∧ ∀ s player,
        nonWall grid s = true → nonWall grid player = true → s ≠ player →
        ∃ route s' route',
          shortestWalk grid s route player
          ∧ stalkerStep grid player s = Some s'
          ∧ stepTo grid s s'
          ∧ shortestWalk grid s' route' player
          ∧ S (length route') = length route.
Proof.
  intros Hl. destruct (mazeSize_bounds level Hl) as [Hsize _].
  destruct (generateMaze_generated level r Hl)
    as (grid & r' & Hrun & Hsq & _ & _ & _ & _ & Hconn).
  exists grid, r'. split; [done|]. intros s player Hs Hp Hne.
  assert (Hsp : connected grid s player).
  { eapply connected_trans; [|by apply Hconn]. by apply connected_sym, Hconn. }
  destruct (connected_walk _ _ _ _ Hsq ltac:(lia) Hsp) as [q Hq].
  destruct (stalkerStep_spec grid player s)
    as (s' & Hstep & [(path & Hpath & ->)|[Hnone _]]); [|by destruct (Hnone q)].
  destruct (shortestWalk_front grid s path player Hpath Hne)
    as (s1 & rest & -> & Hstep1 & Hrest).
  exists (s :: s1 :: rest), s1, (s1 :: rest). done.
Qed.

Lemma stalker_hunts_in_generated_maze_witness :
  ∃ grid r',
    generateMaze 25 [6; 2; 8]%nat = Some (grid, r')
    ∧ ∀ s player,
        nonWall grid s = true → nonWall grid player = true → s ≠ player →
        ∃ route s' route',
          shortestWalk grid s route player
          ∧ stalkerStep grid player s = Some s'
          ∧ stepTo grid s s'
          ∧ shortestWalk grid s' route' player
          ∧ S (length route') = length route.
Proof. apply (stalker_hunts_in_generated_maze 25 [6; 2; 8]%nat). lia. Defined.
